(** * TeamShufflerPro: the grouping engine of [App.tsx]

    A shallow embedding of [handleGenerateGroups] (and of
    [shuffleArray], which it calls) together with the properties of the
    partition it computes.  The engine is embedded twice: on values
    ([partition]), where the properties of the groups are proved, and on
    a store of shared, mutable arrays ([partition_store]), which is
    proved to compute the same outcome and to leave its inputs as they
    are.  Around the engine come the handlers of the setup form
    ([App]), which make its inputs, and the functions that name the
    groups and draw their images ([Service]).

    Conventions of the embedding.
    - A JavaScript string is a [string]; each character stands for one
      code unit, so that the default order of [Array.prototype.sort] is
      the lexicographic order [String.leb].
    - A value that is either a string or [undefined] is an
      [option string] ([None] is [undefined]).
    - The objects [parent] and [cliques] are used as string-keyed
      maps.  [parent] is never enumerated and is a [gmap]; [cliques] is
      enumerated by [Object.values] and keeps its keys in creation
      order ([Object_values] puts the array indices first).  Both are
      plain objects and inherit the properties of [Object.prototype].
      [cliques] is read under roots that it may not have as own keys,
      and what it inherits under such a root is part of the embedding
      ([Object_prototype_names], [cliques_push]).  [parent] is a map of
      own properties: every person is assigned before anything is read
      (line 191), and an assignment makes an own property under every
      name but [__proto__], where it stores nothing.  The properties of
      the units as components of the together-graph are stated for
      people not named [__proto__].
    - [Math.random] is an oracle [random : nat -> nat] read through a
      counter: the [n]-th call, made with bound [c], yields the index
      [random n mod c], an arbitrary element of [0, c).
    - A function of the source that recurses without a bound ([find])
      takes fuel; running out of fuel is written [None].  So is an
      exception that nothing catches: a run that is [None] does not
      return, and the promise of line 184 is never settled.
    - The generative service is an oracle as well: each request has an
      answer, or throws. *)

From Stdlib Require Import ZArith String Ascii.
From stdpp Require Import gmap strings list fin_maps sorting pretty.

(** ** types.ts *)

Module types.
Record Constraint := { people : list string }.
End types.

(** ** JavaScript library functions used by the engine *)

(** A string or [undefined]. *)
Definition jsval := option string.

(** Property key of a value used as an index ([ToPropertyKey]). *)
Definition key (v : jsval) : string :=
  match v with
  | Some s => s
  | None => "undefined"%string
  end.

(** [o[k] = v] on an object used as a map.  Storing [undefined] reads
    back like an absent key. *)
Definition store (o : gmap string string) (k : string) (v : jsval)
  : gmap string string :=
  match v with
  | Some s => <[k := s]> o
  | None => delete k o
  end.

(** [array.includes(x)] on an array of strings. *)
Definition includes (l : list string) (x : string) : bool :=
  bool_decide (x ∈ l).

(** [new Set(array)]: the distinct elements in order of first
    occurrence. *)
Definition Set_add (s : list string) (x : string) : list string :=
  if includes s x then s else s ++ [x].

Definition new_Set (l : list string) : list string :=
  fold_left Set_add l [].

(** [Array.prototype.sort] is stable.  [le a b] stands for
    [compare(a, b) <= 0]. *)
Section js_sort.
Context {A : Type} (le : A → A → bool).

Fixpoint sort_insert (x : A) (l : list A) : list A :=
  match l with
  | [] => [x]
  | y :: l' => if le x y then x :: y :: l' else y :: sort_insert x l'
  end.

Fixpoint js_sort (l : list A) : list A :=
  match l with
  | [] => []
  | x :: l' => sort_insert x (js_sort l')
  end.

End js_sort.

(** [Math.ceil(n / k)] for integers [n >= 0] and [k <> 0]. *)
Definition ceil_div (n k : Z) : Z := (- ((- n) / k))%Z.

(** Own property order of an ordinary object: array indices first, in
    ascending numeric order, then the other string keys in creation
    order. *)
Definition digit_of (a : ascii) : option N :=
  let n := N_of_ascii a in
  if ((48 <=? n) && (n <=? 57))%N then Some (n - 48)%N else None.

Fixpoint digits_value (acc : N) (s : string) : option N :=
  match s with
  | EmptyString => Some acc
  | String a s' =>
      match digit_of a with
      | Some d => digits_value (10 * acc + d)%N s'
      | None => None
      end
  end.

(** A canonical numeric string below [2^32 - 1]. *)
Definition array_index (s : string) : option N :=
  match s with
  | EmptyString => None
  | String a s' =>
      if (N_of_ascii a =? 48)%N
      then match s' with EmptyString => Some 0%N | _ => None end
      else match digits_value 0 s with
           | Some n => if (n <? 2 ^ 32 - 1)%N then Some n else None
           | None => None
           end
  end.

Definition is_index (s : string) : bool :=
  match array_index s with Some _ => true | None => false end.

(** The order of two keys that are array indices. *)
Definition index_le {V : Type} (a b : string * V) : bool :=
  match array_index a.1, array_index b.1 with
  | Some m, Some n => (m <=? n)%N
  | _, _ => true
  end.

Definition Object_values {V : Type} (o : list (string * V)) : list V :=
  (js_sort index_le (filter (λ kv, is_index kv.1 = true) o)
   ++ filter (λ kv, is_index kv.1 = false) o).*2.

(** ** shuffleArray (App.tsx, lines 67-75) *)

Section shuffle.
Context {A : Type} (random : nat → nat).

(** [[array[i], array[j]] = [array[j], array[i]]] *)
Definition swap (array : list A) (i j : nat) : list A :=
  match array !! j, array !! i with
  | Some aj, Some ai => <[j := ai]> (<[i := aj]> array)
  | _, _ => array
  end.

(** The loop, entered with [currentIndex] and having made [calls]
    calls to [Math.random] so far. *)
Fixpoint shuffle_loop (currentIndex : nat) (array : list A) (calls : nat)
  : list A * nat :=
  match currentIndex with
  | 0 => (array, calls)
  | S currentIndex' =>
      let randomIndex := random calls `mod` currentIndex in
      shuffle_loop currentIndex' (swap array currentIndex' randomIndex)
                   (S calls)
  end.

Definition shuffleArray (array : list A) (calls : nat) : list A * nat :=
  shuffle_loop (length array) array calls.

End shuffle.

(** ** handleGenerateGroups (App.tsx, lines 150-287)

    The engine proper starts once [finalGroupCount] is known (line 162)
    and ends when the promise is resolved (line 257). *)

(** The four failures, named after the messages passed to [setError];
    the specification calls them [InsufficientPeople],
    [ConflictingConstraint], [OversizedClique] and
    [UnsatisfiableConstraints]. *)
Inductive error :=
| errorMorePeople
| errorConflict (conflicted0 conflicted1 : string)
| errorCliqueSize
| errorFailedConstraints.

(** What the caller observes: the resolved groups, or the error set. *)
Inductive outcome :=
| Groups (generatedGroups : list (list string))
| Failure (e : error).

(** *** Conflict detection (lines 167-178) *)

Definition conflict (apart together : types.Constraint)
  : option (string * string) :=
  let apartSet := new_Set (types.people apart) in
  let togetherSet := new_Set (types.people together) in
  let intersection :=
    new_Set (filter (λ x, includes togetherSet x = true) apartSet) in
  if bool_decide (2 ≤ length intersection)
  then match intersection with
       | conflicted0 :: conflicted1 :: _ => Some (conflicted0, conflicted1)
       | _ => None
       end
  else None.

Fixpoint first_conflict_with (apart : types.Constraint)
  (togetherConstraints : list types.Constraint) : option (string * string) :=
  match togetherConstraints with
  | [] => None
  | together :: rest =>
      match conflict apart together with
      | Some c => Some c
      | None => first_conflict_with apart rest
      end
  end.

Fixpoint first_conflict (apartConstraints togetherConstraints
  : list types.Constraint) : option (string * string) :=
  match apartConstraints with
  | [] => None
  | apart :: rest =>
      match first_conflict_with apart togetherConstraints with
      | Some c => Some c
      | None => first_conflict rest togetherConstraints
      end
  end.

(** *** Union-find over the together-constraints (lines 190-203) *)

(** [find]: [parent[i] === i ? i : (parent[i] = find(parent[i]))]. *)
Fixpoint find (fuel : nat) (parent : gmap string string) (i : jsval)
  : option (gmap string string * jsval) :=
  match fuel with
  | 0 => None
  | S fuel' =>
      if decide (parent !! key i = i) then Some (parent, i)
      else match find fuel' parent (parent !! key i) with
           | Some (parent', root) => Some (store parent' (key i) root, root)
           | None => None
           end
  end.

(** The fuel [find] is called with.  A chain of parent links that does
    not come back on itself visits each key at most once, and besides
    the keys at most [undefined] and one name that is not a key: fewer
    than [find_fuel parent] values.  ([find_total] proves that the fuel
    is enough on the tables of well-formed input.) *)
Definition find_fuel (parent : gmap string string) : nat :=
  size parent + 3.

Definition union (parent : gmap string string) (i j : jsval)
  : option (gmap string string) :=
  match find (find_fuel parent) parent i with
  | Some (parent1, rootI) =>
      match find (find_fuel parent1) parent1 j with
      | Some (parent2, rootJ) =>
          Some (if decide (rootI = rootJ) then parent2
                else store parent2 (key rootJ) rootI)
      | None => None
      end
  | None => None
  end.

(** [people.forEach(p => parent[p] = p)]: an own property for every
    person (for a person named [__proto__] the source stores none). *)
Definition init_parent (people : list string) : gmap string string :=
  fold_left (λ parent p, <[p := p]> parent) people ∅.

(** The inner loop over one together-constraint: [c.people[i]] is
    united with [c.people[i+1]] for [i < c.people.length - 1]. *)
Fixpoint union_consecutive (parent : gmap string string)
  (members : list string) : option (gmap string string) :=
  match members with
  | a :: (b :: _) as rest =>
      match union parent (Some a) (Some b) with
      | Some parent' => union_consecutive parent' rest
      | None => None
      end
  | _ => Some parent
  end.

Fixpoint union_all (parent : gmap string string)
  (togetherConstraints : list types.Constraint)
  : option (gmap string string) :=
  match togetherConstraints with
  | [] => Some parent
  | c :: rest =>
      match union_consecutive parent (types.people c) with
      | Some parent' => union_all parent' rest
      | None => None
      end
  end.

(** *** The units (lines 205-212) *)

(** The properties every object inherits from [Object.prototype]:
    read on an object that has no property of that name of its own,
    each of them yields a value that is not falsy and is no array (a
    function; the prototype itself for [__proto__]). *)
Definition Object_prototype_names : list string :=
  ["constructor"; "hasOwnProperty"; "isPrototypeOf"; "propertyIsEnumerable";
   "toLocaleString"; "toString"; "valueOf"; "__proto__";
   "__defineGetter__"; "__defineSetter__";
   "__lookupGetter__"; "__lookupSetter__"].

(** [if (!cliques[root]) cliques[root] = []; cliques[root].push(p)].
    Where [cliques] has no property [root] of its own, [cliques[root]]
    is what [Object.prototype] has under that name: [undefined], and
    the array is made; or an inherited value, no array is made, the
    value has no [push] and line 209 throws a TypeError ([None]). *)
Fixpoint cliques_push (cliques : list (string * list string))
  (root p : string) : option (list (string * list string)) :=
  match cliques with
  | [] =>
      if decide (root ∈ Object_prototype_names) then None
      else Some [(root, [p])]
  | (k, members) :: cliques' =>
      if decide (k = root) then Some ((k, members ++ [p]) :: cliques')
      else match cliques_push cliques' root p with
           | Some cliques'' => Some ((k, members) :: cliques'')
           | None => None
           end
  end.

(** Lines 206-210.  [None] when a call of [find] does not return or
    line 209 throws. *)
Fixpoint build_cliques (parent : gmap string string)
  (cliques : list (string * list string)) (people : list string)
  : option (gmap string string * list (string * list string)) :=
  match people with
  | [] => Some (parent, cliques)
  | p :: rest =>
      match find (find_fuel parent) parent (Some p) with
      | Some (parent', root) =>
          match cliques_push cliques (key root) p with
          | Some cliques' => build_cliques parent' cliques' rest
          | None => None
          end
      | None => None
      end
  end.

(** [shuffleUnits] as it stands on line 212. *)
Definition units (people : list string)
  (togetherConstraints : list types.Constraint)
  : option (list (list string)) :=
  match union_all (init_parent people) togetherConstraints with
  | Some parent =>
      match build_cliques parent [] people with
      | Some (_, cliques) => Some (Object_values cliques)
      | None => None
      end
  | None => None
  end.

(** [unit.length > Math.ceil(people.length / finalGroupCount)].  With
    [finalGroupCount = 0] the quotient is [Infinity] or [NaN] and the
    comparison is false. *)
Definition oversized {A B : Type} (people : list A) (finalGroupCount : Z)
  (unit : list B) : bool :=
  if decide (finalGroupCount = 0%Z) then false
  else bool_decide
         (ceil_div (Z.of_nat (length people)) finalGroupCount
          < Z.of_nat (length unit))%Z.

(** *** One packing attempt (lines 219-243) *)

Section packing.
Variable apartConstraints : list types.Constraint.

(** Line 228: some person of the group and some person of the unit are
    named by one apart-constraint. *)
Definition groupHasApartPerson (group unit : list string) : bool :=
  existsb (λ personInGroup,
    existsb (λ personInUnit,
      existsb (λ c, includes (types.people c) personInGroup
                    && includes (types.people c) personInUnit)
              apartConstraints)
      unit)
    group.

(** Line 225: the indices of the groups, sorted by current length. *)
Definition length_le (a b : list string * nat) : bool :=
  bool_decide (Z.of_nat (length a.1) - Z.of_nat (length b.1) ≤ 0)%Z.

Definition groupOrder (tempGroups : list (list string)) : list nat :=
  (js_sort length_le (imap (λ i g, (g, i)) tempGroups)).*2.

(** Lines 227-238.  Every index of [groupOrder] is in range, so that
    [tempGroups[i]] is always an array. *)
Fixpoint place (order : list nat) (tempGroups : list (list string))
  (unit : list string) : option (list (list string)) :=
  match order with
  | [] => None
  | i :: order' =>
      if groupHasApartPerson (tempGroups !!! i) unit
      then place order' tempGroups unit
      else Some (<[i := tempGroups !!! i ++ unit]> tempGroups)
  end.

(** Lines 223-243: [Some] of the filled groups when [possible] stays
    true. *)
Fixpoint pack (shuffledUnits : list (list string))
  (tempGroups : list (list string)) : option (list (list string)) :=
  match shuffledUnits with
  | [] => Some tempGroups
  | unit :: rest =>
      match place (groupOrder tempGroups) tempGroups unit with
      | Some tempGroups' => pack rest tempGroups'
      | None => None
      end
  end.

End packing.

(** *** The engine (lines 162-257) *)

Section partition.
Variable people : list string.
Variable finalGroupCount : Z.
Variable apartConstraints togetherConstraints : list types.Constraint.
Variable random : nat → nat.

(** Line 219: [Array.from({ length: finalGroupCount }, () => [])]. *)
Definition empty_groups : list (list string) :=
  replicate (Z.to_nat finalGroupCount) [].

(** The body of the [for] loop of line 189, run with [attempts]
    iterations left and after [calls] calls to [Math.random].  The
    result carries the number of calls made. *)
Fixpoint attempt_loop (attempts : nat) (calls : nat)
  : option (outcome * nat) :=
  match attempts with
  | 0 => Some (Failure errorFailedConstraints, calls)
  | S attempts' =>
      match units people togetherConstraints with
      | None => None
      | Some shuffleUnits =>
          if existsb (oversized people finalGroupCount) shuffleUnits
          then Some (Failure errorCliqueSize, calls)
          else
            let '(shuffledUnits, calls') :=
              shuffleArray random shuffleUnits calls in
            match pack apartConstraints shuffledUnits empty_groups with
            | Some tempGroups =>
                Some (Groups (js_sort String.leb <$> tempGroups), calls')
            | None => attempt_loop attempts' calls'
            end
      end
  end.

Definition partition : option (outcome * nat) :=
  if bool_decide (Z.of_nat (length people) < finalGroupCount)%Z
  then Some (Failure errorMorePeople, 0)
  else match first_conflict apartConstraints togetherConstraints with
       | Some (conflicted0, conflicted1) =>
           Some (Failure (errorConflict conflicted0 conflicted1), 0)
       | None => attempt_loop 50 0
       end.

End partition.

(** * The engine on a store of arrays

    Arrays are mutable and shared in the source: [shuffleArray] permutes
    its argument in place and returns it, [push] and [sort] change the
    array they are called on, and the arrays of [cliques] are the
    elements of [shuffleUnits].  Here every array is a cell of a store
    and an array-valued variable is the address of a cell.  An object
    of type [Constraint] is identified with its only field, the array
    [people].  The objects [parent] and [cliques] and the sets of the
    conflict detection are local values as before; [cliques] maps its
    keys to the addresses of its arrays.  A loop over an array reads the
    array when it starts. *)

Definition loc := nat.

Inductive val :=
| Str (s : string)
| Ref (l : loc).

Definition as_str (v : val) : option string :=
  match v with Str s => Some s | Ref _ => None end.

Definition as_ref (v : val) : option loc :=
  match v with Ref l => Some l | Str _ => None end.

(** A computation on the store; [None] when it does not return. *)
Definition M (A : Type) : Type :=
  gmap loc (list val) → option (A * gmap loc (list val)).

Definition ret {A : Type} (a : A) : M A := λ h, Some (a, h).

Definition bind {A B : Type} (m : M A) (f : A → M B) : M B :=
  λ h, match m h with
       | Some (a, h') => f a h'
       | None => None
       end.

Definition lift {A : Type} (o : option A) : M A :=
  λ h, match o with Some a => Some (a, h) | None => None end.

#[local] Instance M_bind : MBind M := λ A B f m, bind m f.

(** A new array. *)
Definition alloc (elems : list val) : M loc :=
  λ h, let l := fresh (dom h) in Some (l, <[l := elems]> h).

Definition read (l : loc) : M (list val) :=
  λ h, match h !! l with Some elems => Some (elems, h) | None => None end.

(** The array at [l] becomes [elems]. *)
Definition write (l : loc) (elems : list val) : M unit :=
  λ h, match h !! l with
       | Some _ => Some (tt, <[l := elems]> h)
       | None => None
       end.

Definition read_strings (l : loc) : M (list string) :=
  elems ← read l; lift (mapM as_str elems).

Definition read_refs (l : loc) : M (list loc) :=
  elems ← read l; lift (mapM as_ref elems).

Fixpoint read_each (ls : list loc) : M (list (list string)) :=
  match ls with
  | [] => ret []
  | l :: ls' =>
      x ← read_strings l;
      xs ← read_each ls';
      ret (x :: xs)
  end.

(** An array of constraints, each seen through its [people]. *)
Definition read_constraints (l : loc) : M (list types.Constraint) :=
  cs ← read_refs l;
  members ← read_each cs;
  ret (types.Build_Constraint <$> members).

Fixpoint assoc {V : Type} (k : string) (o : list (string * V)) : option V :=
  match o with
  | [] => None
  | (k', v) :: o' => if decide (k' = k) then Some v else assoc k o'
  end.

(** [if (!cliques[root]) cliques[root] = []; cliques[root].push(p)],
    [cliques] holding the addresses of its arrays.  Under a name of
    [Object.prototype] that [cliques] does not have as its own, no
    array is made and the call of [push] throws. *)
Definition cliques_push_store (cliques : list (string * loc))
  (root p : string) : M (list (string * loc)) :=
  cliques1 ←
    match assoc root cliques with
    | Some _ => ret cliques
    | None =>
        if decide (root ∈ Object_prototype_names) then lift None
        else (l ← alloc []; ret (cliques ++ [(root, l)]))
    end;
  l ← lift (assoc root cliques1);
  members ← read l;
  write l (members ++ [Str p]);;
  ret cliques1.

(** Lines 206-210. *)
Fixpoint build_cliques_store (parent : gmap string string)
  (cliques : list (string * loc)) (people : list string)
  : M (gmap string string * list (string * loc)) :=
  match people with
  | [] => ret (parent, cliques)
  | p :: rest =>
      '(parent1, root) ← lift (find (find_fuel parent) parent (Some p));
      cliques1 ← cliques_push_store cliques (key root) p;
      build_cliques_store parent1 cliques1 rest
  end.

(** [Array.from({ length: n }, () => [])] *)
Fixpoint alloc_empty (n : nat) : M (list loc) :=
  match n with
  | 0 => ret []
  | S n' => (l ← alloc []; ls ← alloc_empty n'; ret (l :: ls))
  end.

Section store_engine.
Variable people : loc.
Variable finalGroupCount : Z.
Variable apartConstraints togetherConstraints : loc.
Variable random : nat → nat.

(** [shuffleArray(array)]: the array at [array] is permuted in place. *)
Definition shuffleArray_store (array : loc) (calls : nat) : M nat :=
  elems ← read array;
  let '(elems', calls') := shuffleArray random elems calls in
  write array elems';;
  ret calls'.

(** Lines 227-238 for one unit: [true] when the unit is placed. *)
Fixpoint place_store (order : list nat) (tempGroups : list loc)
  (unit : loc) : M bool :=
  match order with
  | [] => ret false
  | i :: order' =>
      g ← lift (tempGroups !! i);
      personsInGroup ← read_strings g;
      personsInUnit ← read_strings unit;
      apart ← read_constraints apartConstraints;
      if groupHasApartPerson apart personsInGroup personsInUnit
      then place_store order' tempGroups unit
      else
        group ← read g;
        elems ← read unit;
        write g (group ++ elems);;
        ret true
  end.

(** Lines 223-243: [possible]. *)
Fixpoint pack_store (shuffledUnits : list loc) (tempGroups : loc) : M bool :=
  match shuffledUnits with
  | [] => ret true
  | unit :: rest =>
      groups ← read_refs tempGroups;
      contents ← read_each groups;
      placed ← place_store (groupOrder contents) groups unit;
      if placed : bool then pack_store rest tempGroups else ret false
  end.

(** [g.sort()] for every group, in place. *)
Fixpoint sort_each (groups : list loc) : M unit :=
  match groups with
  | [] => ret tt
  | g :: rest =>
      members ← read_strings g;
      write g (Str <$> js_sort String.leb members);;
      sort_each rest
  end.

(** The outcome: the address of [sortedGroups], or the error. *)
Inductive outcome_store :=
| Groups_store (sortedGroups : loc)
| Failure_store (e : error).

(** Lines 190-212: the address of [shuffleUnits]. *)
Definition units_store : M loc :=
  persons ← read_strings people;
  together ← read_constraints togetherConstraints;
  parent ← lift (union_all (init_parent persons) together);
  '(_, cliques) ← build_cliques_store parent [] persons;
  alloc (Ref <$> Object_values cliques).

Fixpoint attempt_loop_store (attempts : nat) (calls : nat)
  : M (outcome_store * nat) :=
  match attempts with
  | 0 => ret (Failure_store errorFailedConstraints, calls)
  | S attempts' =>
      shuffleUnits ← units_store;
      units ← read_refs shuffleUnits;
      contents ← read_each units;
      persons ← read people;
      if existsb (oversized persons finalGroupCount) contents
      then ret (Failure_store errorCliqueSize, calls)
      else
        groups ← alloc_empty (Z.to_nat finalGroupCount);
        tempGroups ← alloc (Ref <$> groups);
        calls' ← shuffleArray_store shuffleUnits calls;
        shuffledUnits ← read_refs shuffleUnits;
        possible ← pack_store shuffledUnits tempGroups;
        if possible : bool
        then
          groups' ← read_refs tempGroups;
          sort_each groups';;
          sortedGroups ← alloc (Ref <$> groups');
          ret (Groups_store sortedGroups, calls')
        else attempt_loop_store attempts' calls'
  end.

Definition partition_store : M (outcome_store * nat) :=
  persons ← read people;
  if bool_decide (Z.of_nat (length persons) < finalGroupCount)%Z
  then ret (Failure_store errorMorePeople, 0)
  else
    apart ← read_constraints apartConstraints;
    together ← read_constraints togetherConstraints;
    match first_conflict apart together with
    | Some (conflicted0, conflicted1) =>
        ret (Failure_store (errorConflict conflicted0 conflicted1), 0)
    | None => attempt_loop_store 50 0
    end.

End store_engine.

(** The groups behind the address of an array of arrays. *)
Definition read_groups (l : loc) : M (list (list string)) :=
  groups ← read_refs l; read_each groups.

(** * The setup form (App.tsx, lines 8-65, 150-160 and 400-523)

    The handlers bound to the controls of the setup view, on the state
    variables they read and write.  A handler runs on the state of the
    render it closes over; what it returns is the state of the next
    render, with the updates it queued applied in order.  The state
    variables left out ([groups], [groupNames], [groupImages], [view],
    [isProcessing], [processingMessage], [error], [language]) are not
    read by these handlers, and no other handler writes the variables
    kept. *)

(** ** JavaScript library functions used by the form *)

(** The white space and line terminators among the code units of a
    [string]: TAB, LF, VT, FF, CR, SP and NBSP. *)
Definition is_white_space (c : ascii) : bool :=
  let n := N_of_ascii c in
  ((9 <=? n) && (n <=? 13) || (n =? 32) || (n =? 160))%N.

Fixpoint trimStart (s : string) : string :=
  match s with
  | String c s' => if is_white_space c then trimStart s' else s
  | EmptyString => EmptyString
  end.

(** [s.trim()] *)
Definition trim (s : string) : string :=
  String.rev (trimStart (String.rev (trimStart s))).

(** The decimal digits [s] starts with, read as a number after the
    digits [acc] read so far. *)
Fixpoint leading_digits (acc : option N) (s : string) : option N :=
  match s with
  | String c s' =>
      match digit_of c with
      | Some d => leading_digits (Some (10 * default 0 acc + d)%N) s'
      | None => acc
      end
  | EmptyString => acc
  end.

(** [parseInt(s, 10)] on a numeral that a Number holds exactly (fewer
    than 16 digits); [None] is [NaN], and [-0] reads as [0]. *)
Definition parseInt (s : string) : option Z :=
  match trimStart s with
  | String "-" s' => Z.opp ∘ Z.of_N <$> leading_digits None s'
  | String "+" s' => Z.of_N <$> leading_digits None s'
  | s' => Z.of_N <$> leading_digits None s'
  end.

(** [array.filter((_, i) => i !== index)] *)
Definition filter_index {A : Type} (index : nat) (array : list A) : list A :=
  (filter (λ ix, ix.1 ≠ index) (imap (λ i x, (i, x)) array)).*2.

(** ** The state and its setters (lines 8-17) *)

Module App.

Inductive NamingMethod := count | custom.

Inductive ConstraintType := apart | together.

#[global] Instance NamingMethod_eq_dec : EqDecision NamingMethod.
Proof. solve_decision. Defined.

Record state := {
  people : list string;
  personName : string;
  groupCount : Z;
  apartConstraints : list types.Constraint;
  togetherConstraints : list types.Constraint;
  selectedForConstraint : list string;
  customGroupNames : list string;
  namingMethod : NamingMethod
}.

(** The state of the first render. *)
Definition initial : state :=
  {| people := []; personName := ""; groupCount := 2;
     apartConstraints := []; togetherConstraints := [];
     selectedForConstraint := []; customGroupNames := [""; ""]%string;
     namingMethod := count |}.

Definition setPeople (v : list string) (s : state) : state :=
  {| people := v; personName := personName s;
     groupCount := groupCount s;
     apartConstraints := apartConstraints s;
     togetherConstraints := togetherConstraints s;
     selectedForConstraint := selectedForConstraint s;
     customGroupNames := customGroupNames s;
     namingMethod := namingMethod s |}.

Definition setPersonName (v : string) (s : state) : state :=
  {| people := people s; personName := v;
     groupCount := groupCount s;
     apartConstraints := apartConstraints s;
     togetherConstraints := togetherConstraints s;
     selectedForConstraint := selectedForConstraint s;
     customGroupNames := customGroupNames s;
     namingMethod := namingMethod s |}.

Definition setGroupCount (v : Z) (s : state) : state :=
  {| people := people s; personName := personName s;
     groupCount := v;
     apartConstraints := apartConstraints s;
     togetherConstraints := togetherConstraints s;
     selectedForConstraint := selectedForConstraint s;
     customGroupNames := customGroupNames s;
     namingMethod := namingMethod s |}.

Definition setApartConstraints (v : list types.Constraint) (s : state)
  : state :=
  {| people := people s; personName := personName s;
     groupCount := groupCount s;
     apartConstraints := v;
     togetherConstraints := togetherConstraints s;
     selectedForConstraint := selectedForConstraint s;
     customGroupNames := customGroupNames s;
     namingMethod := namingMethod s |}.

Definition setTogetherConstraints (v : list types.Constraint) (s : state)
  : state :=
  {| people := people s; personName := personName s;
     groupCount := groupCount s;
     apartConstraints := apartConstraints s;
     togetherConstraints := v;
     selectedForConstraint := selectedForConstraint s;
     customGroupNames := customGroupNames s;
     namingMethod := namingMethod s |}.

Definition setSelectedForConstraint (v : list string) (s : state) : state :=
  {| people := people s; personName := personName s;
     groupCount := groupCount s;
     apartConstraints := apartConstraints s;
     togetherConstraints := togetherConstraints s;
     selectedForConstraint := v;
     customGroupNames := customGroupNames s;
     namingMethod := namingMethod s |}.

Definition setCustomGroupNames (v : list string) (s : state) : state :=
  {| people := people s; personName := personName s;
     groupCount := groupCount s;
     apartConstraints := apartConstraints s;
     togetherConstraints := togetherConstraints s;
     selectedForConstraint := selectedForConstraint s;
     customGroupNames := v;
     namingMethod := namingMethod s |}.

Definition setNamingMethod (v : NamingMethod) (s : state) : state :=
  {| people := people s; personName := personName s;
     groupCount := groupCount s;
     apartConstraints := apartConstraints s;
     togetherConstraints := togetherConstraints s;
     selectedForConstraint := selectedForConstraint s;
     customGroupNames := customGroupNames s;
     namingMethod := v |}.

(** The setter of the list of constraints of one type (line 46). *)
Definition constraintsOf (type : ConstraintType) (s : state)
  : list types.Constraint :=
  match type with
  | apart => apartConstraints s
  | together => togetherConstraints s
  end.

Definition setConstraints (type : ConstraintType)
  : list types.Constraint → state → state :=
  match type with
  | apart => setApartConstraints
  | together => setTogetherConstraints
  end.

(** ** The handlers (lines 31-65) *)

(** Lines 31-36. *)
Definition handleAddPerson (s : state) : state :=
  if bool_decide (personName s ≠ ""%string)
     && negb (includes (people s) (personName s))
  then setPersonName "" (setPeople (people s ++ [trim (personName s)]) s)
  else s.

(** Lines 38-43. *)
Definition handleRemovePerson (name : string) (s : state) : state :=
  let s := setPeople (filter (λ p, p ≠ name) (people s)) s in
  let s := setApartConstraints
             (filter (λ c, negb (includes (types.people c) name))
                     (apartConstraints s)) s in
  let s := setTogetherConstraints
             (filter (λ c, negb (includes (types.people c) name))
                     (togetherConstraints s)) s in
  setSelectedForConstraint
    (filter (λ p, p ≠ name) (selectedForConstraint s)) s.

(** Lines 45-48. *)
Definition handleRemoveConstraint (type : ConstraintType) (index : nat)
  (s : state) : state :=
  setConstraints type (filter_index index (constraintsOf type s)) s.

(** Lines 50-59. *)
Definition handleCreateConstraint (type : ConstraintType) (s : state)
  : state :=
  if bool_decide (length (selectedForConstraint s) < 2) then s
  else
    let newConstraint := {| types.people := selectedForConstraint s |} in
    let s := setConstraints type (constraintsOf type s ++ [newConstraint]) s in
    setSelectedForConstraint [] s.

(** Lines 61-65. *)
Definition toggleSelectedForConstraint (name : string) (s : state) : state :=
  let prev := selectedForConstraint s in
  setSelectedForConstraint
    (if includes prev name then filter (λ p, p ≠ name) prev
     else prev ++ [name]) s.

(** Line 300. *)
Definition canAddConstraint (s : state) : bool :=
  bool_decide (2 ≤ length (selectedForConstraint s)).

(** ** The controls of the setup view (lines 400-523) *)

(** What the user can do on the rendered form: type in the text box
    (line 405), add the person typed, with the button or the Enter key
    (lines 406 and 410), and so on down the form. *)
Inductive event :=
| change_personName (value : string)
| add_person
| remove_person (p : string)
| change_checkbox (p : string)
| create_constraint (type : ConstraintType)
| remove_constraint (type : ConstraintType) (i : nat)
| change_namingMethod (value : NamingMethod)
| change_groupCount (value : string)
| change_customName (index : nat) (value : string)
| remove_customName (index : nat)
| addTeamName.

(** The controls that the render of [s] shows and enables: a trash
    button and a checkbox for each person of [people] (lines 415-442),
    the two constraint buttons unless disabled (lines 446-447), a trash
    button for each constraint (lines 454-470), and either the number
    input or the inputs of the custom names (lines 490-523).  The
    number input yields numerals that [parseInt] reads exactly. *)
Definition offered (s : state) (e : event) : bool :=
  match e with
  | change_personName _ | add_person | change_namingMethod _ => true
  | remove_person p | change_checkbox p => includes (people s) p
  | create_constraint _ => canAddConstraint s
  | remove_constraint type i => bool_decide (i < length (constraintsOf type s))
  | change_groupCount value =>
      bool_decide (namingMethod s = count ∧ String.length value < 16)
  | change_customName index _ | remove_customName index =>
      bool_decide (namingMethod s = custom
                   ∧ index < length (customGroupNames s))
  | addTeamName => bool_decide (namingMethod s = custom)
  end.

(** The handler bound to each control.  [change_customName] writes
    inside the array, since [index] is the index of a rendered input
    (lines 511-515). *)
Definition handle (e : event) (s : state) : state :=
  match e with
  | change_personName value => setPersonName value s
  | add_person => handleAddPerson s
  | remove_person p => handleRemovePerson p s
  | change_checkbox p => toggleSelectedForConstraint p s
  | create_constraint type => handleCreateConstraint type s
  | remove_constraint type i => handleRemoveConstraint type i s
  | change_namingMethod value => setNamingMethod value s
  | change_groupCount value =>
      setGroupCount
        (match parseInt value with
         | Some n => if decide (n = 0%Z) then 2%Z else n
         | None => 2%Z
         end) s
  | change_customName index value =>
      setCustomGroupNames (<[index := value]> (customGroupNames s)) s
  | remove_customName index =>
      setCustomGroupNames (filter_index index (customGroupNames s)) s
  | addTeamName =>
      setCustomGroupNames (customGroupNames s ++ [""%string]) s
  end.

(** The state after a session on the form, if every event of the
    session is offered when it occurs. *)
Fixpoint session (s : state) (events : list event) : option state :=
  match events with
  | [] => Some s
  | e :: events' =>
      if offered s e then session (handle e s) events' else None
  end.

(** ** The start of handleGenerateGroups (lines 153-160, 261-268) *)

(** Lines 153-155. *)
Definition finalGroupCount (s : state) : Z :=
  match namingMethod s with
  | custom =>
      Z.of_nat (length (filter (λ name, trim name ≠ ""%string)
                               (customGroupNames s)))
  | count => groupCount s
  end.

(** What the handler has when the promise of line 184 is settled: the
    failure of line 158, or the outcome of the engine. *)
Inductive generated :=
| errorMinTwoCustom
| engine (result : outcome).

(** Lines 157-259, with the number of calls to [Math.random]. *)
Definition generatedGroups (random : nat → nat) (s : state)
  : option (generated * nat) :=
  if bool_decide (namingMethod s = custom ∧ (finalGroupCount s < 2)%Z)
  then Some (errorMinTwoCustom, 0)
  else '(result, calls) ←
         partition (people s) (finalGroupCount s) (apartConstraints s)
                   (togetherConstraints s) random;
       Some (engine result, calls).

(** Line 268: the names of the groups in custom mode. *)
Definition finalNames (s : state) : list string :=
  filter (λ name, trim name ≠ ""%string) (customGroupNames s).

End App.

(** * Names and images of the groups (App.tsx, lines 77-148, 261-298)

    The two functions that call the generative service, and the
    handlers around them.  What the service does is not known: each
    call is an oracle, like [Math.random]. *)

Module Service.

(** A value parsed by [JSON.parse], as far as the two functions tell
    values apart: a string, or a value of another type, which is falsy
    ([null], [false], [0]) or not.  The response schema of lines
    126-132 asks for strings; line 138 does not look at the entries. *)
Inductive value :=
| text (s : string)
| other (falsy : bool).

(** [!name] *)
Definition falsy (name : value) : bool :=
  match name with
  | text s => bool_decide (s = ""%string)
  | other falsy => falsy
  end.

(** What lines 119-136 of [generateNames] yield: an exception (thrown
    by the client, by the request, or by [JSON.parse]), or the value
    parsed, which is an array ([Array.isArray]) or something else. *)
Inductive answer :=
| thrown
| parsed (generatedNames : list value)
| parsed_other.

(** A part of the content of a response (lines 91-96): its
    [inlineData.data], if it has [inlineData]. *)
Definition part := option string.

(** The messages that the two functions pass to [setError]. *)
Inductive message := errorNameGeneration | errorImageGeneration.

Section service.
(** [t('group')] *)
Variable group : string.

(** Line 146: [currentGroups.map((_, i) => `${t('group')} ${i + 1}`)] *)
Definition default_names (currentGroups : list (list string)) : list string :=
  imap (λ i _, group +:+ " " +:+ pretty (i + 1)) currentGroups.

(** [generateNames] (lines 116-148): the names, and the message set.
    An array of the right length is returned as it is. *)
Definition generateNames (service : answer)
  (currentGroups : list (list string)) : list value * option message :=
  match service with
  | parsed generatedNames =>
      if bool_decide (length generatedNames = length currentGroups)
      then (generatedNames, None)
      else (text <$> default_names currentGroups, Some errorNameGeneration)
  | _ => (text <$> default_names currentGroups, Some errorNameGeneration)
  end.

(** Lines 91-97: the image of the first part with [inlineData]. *)
Fixpoint image_of (parts : list part) : string :=
  match parts with
  | [] => "error"
  | Some base64ImageBytes :: _ => "data:image/png;base64," +:+ base64ImageBytes
  | None :: parts' => image_of parts'
  end.

(** [generateImagesForGroups] (lines 77-114).  [client] tells whether
    the client of line 81 is built; [service index] is the response to
    the request for the name at [index]: the parts of its first
    candidate, or [None] for an exception. *)
Definition generateImagesForGroups (client : bool)
  (service : nat → option (list part)) (names : list value)
  : list string * option message :=
  if client
  then (imap (λ index name,
                if falsy name then ""%string
                else match service index with
                     | Some parts => image_of parts
                     | None => "error"%string
                     end) names,
        None)
  else (replicate (length names) "error"%string, Some errorImageGeneration).

(** What the results view shows (lines 19-21 and 26). *)
Record results := {
  groups : list (list string);
  groupNames : list value;
  groupImages : list string;
  error : option message
}.

(** The later message replaces the earlier one. *)
Definition last_message (a b : option message) : option message :=
  match b with Some _ => b | None => a end.

(** [handleGenerateGroups] (lines 150-287): [None] if the engine does
    not return; [Some (inl e)] if the run fails, the setup view staying
    with the failure [e]; [Some (inr r)] if the results view opens on
    [r]. *)
Definition handleGenerateGroups (random : nat → nat) (names : answer)
  (client : bool) (images : nat → option (list part)) (s : App.state)
  : option (App.generated + results) :=
  '(generated, _) ← App.generatedGroups random s;
  match generated with
  | App.engine (Groups generatedGroups) =>
      let '(finalNames, e1) :=
        match App.namingMethod s with
        | App.custom => (text <$> App.finalNames s, None)
        | App.count => generateNames names generatedGroups
        end in
      let '(finalImages, e2) :=
        generateImagesForGroups client images finalNames in
      Some (inr {| groups := generatedGroups; groupNames := finalNames;
                   groupImages := finalImages;
                   error := last_message e1 e2 |})
  | _ => Some (inl generated)
  end.

(** [handleGenerateNamesAndImages] (lines 289-298). *)
Definition handleGenerateNamesAndImages (names : answer) (client : bool)
  (images : nat → option (list part)) (r : results) : results :=
  if bool_decide (0 < length (groups r))
  then
    let '(finalNames, e1) := generateNames names (groups r) in
    let '(finalImages, e2) :=
      generateImagesForGroups client images finalNames in
    {| groups := groups r; groupNames := finalNames;
       groupImages := finalImages;
       error := last_message (last_message (error r) e1) e2 |}
  else r.

End service.

End Service.

(** * Vocabulary of the properties *)

(** The constraints name people of the list only. *)
Definition drawn_from (people : list string)
  (constraints : list types.Constraint) : Prop :=
  Forall (λ c, Forall (λ x, x ∈ people) (types.people c)) constraints.

(** No person is named after a property of [Object.prototype]. *)
Definition ordinary (people : list string) : Prop :=
  Forall (λ p, p ∉ Object_prototype_names) people.

(** The names an apart-constraint and a together-constraint share, in
    the order of the apart-constraint. *)
Definition common (apart together : types.Constraint) : list string :=
  filter (λ x, x ∈ types.people together) (new_Set (types.people apart)).

(** The order in which line 225 lists the groups: by current length,
    and by index among groups of one length. *)
Definition before (a b : list string * nat) : Prop :=
  length a.1 < length b.1 ∨ (length a.1 = length b.1 ∧ a.2 < b.2).

Definition indexed (tempGroups : list (list string))
  : list (list string * nat) :=
  js_sort length_le (imap (λ i g, (g, i)) tempGroups).

(** The groups filled by the attempt that starts after [calls] calls to
    [Math.random], if it places every unit. *)
Definition attempt (finalGroupCount : Z)
  (apartConstraints : list types.Constraint) (random : nat → nat)
  (shuffleUnits : list (list string)) (calls : nat)
  : option (list (list string)) :=
  pack apartConstraints (shuffleArray random shuffleUnits calls).1
       (empty_groups finalGroupCount).

(** Two people named by one apart-constraint. *)
Definition apart_linked (apartConstraints : list types.Constraint)
  (a b : string) : Prop :=
  ∃ c, c ∈ apartConstraints ∧ a ∈ types.people c ∧ b ∈ types.people c.

(** [reach parent n x r]: following [n] parent links from [x] ends in
    the root [r]. *)
Inductive reach (parent : gmap string string) : nat → string → string → Prop :=
| reach_root x :
    parent !! x = Some x → reach parent 0 x x
| reach_step n x y r :
    parent !! x = Some y → y ≠ x → reach parent n y r →
    reach parent (S n) x r.

(** Every entry of the table leads to a root. *)
Definition wf (parent : gmap string string) : Prop :=
  ∀ x, x ∈ dom parent → ∃ n r, reach parent n x r.

(** Two names with one root. *)
Definition conn (parent : gmap string string) (x y : string) : Prop :=
  ∃ r n m, reach parent n x r ∧ reach parent m y r.

(** The table [parent'] has the entries of [parent] and every name
    keeps its root. *)
Definition same_roots (parent parent' : gmap string string) : Prop :=
  dom parent' = dom parent ∧
  ∀ z m s, reach parent m z s → ∃ m', reach parent' m' z s.

(** [parent'] has the entries of [parent], is well formed, and joins
    what [parent] joins. *)
Definition grows (parent parent' : gmap string string) : Prop :=
  dom parent' = dom parent ∧ wf parent' ∧
  ∀ x y, conn parent x y → conn parent' x y.

(** The table joins two names only if [R] relates them. *)
Definition within (R : relation string) (parent : gmap string string) : Prop :=
  ∀ x y, conn parent x y → R x y.

(** [cliques] after line 209 has filed [p] under [root]. *)
Fixpoint cliques_add (cliques : list (string * list string))
  (root p : string) : list (string * list string) :=
  match cliques with
  | [] => [(root, [p])]
  | (k, members) :: cliques' =>
      if decide (k = root) then (k, members ++ [p]) :: cliques'
      else (k, members) :: cliques_add cliques' root p
  end.

(** The state of the loop of lines 206-210 over a well-formed table
    [parent0]: [cliques] files the people [done] so far, each under its
    root. *)
Definition cliques_inv (parent0 : gmap string string)
  (cliques : list (string * list string))
  (done : list string) : Prop :=
  NoDup cliques.*1 ∧ concat cliques.*2 ≡ₚ done ∧
  Forall (λ kv, kv.2 ≠ [] ∧ ∀ x, x ∈ kv.2 → ∃ n, reach parent0 n x kv.1)
         cliques.

(** [a] comes right before [b] in the list. *)
Definition next_in (members : list string) (a b : string) : Prop :=
  ∃ i, members !! i = Some a ∧ members !! S i = Some b.

(** The edges of the together-graph: consecutive members of a
    together-constraint. *)
Definition adjacent (togetherConstraints : list types.Constraint)
  (a b : string) : Prop :=
  ∃ c, c ∈ togetherConstraints ∧ next_in (types.people c) a b.

(** [a] and [b] are in one connected component of the together-graph. *)
Definition linked (togetherConstraints : list types.Constraint)
  : relation string :=
  rtsc (adjacent togetherConstraints).

(** The array at [l] holds the strings [ss]. *)
Definition strings_at (h : gmap loc (list val)) (l : loc)
  (ss : list string) : Prop :=
  h !! l = Some (Str <$> ss).

(** The array at [l] holds the constraints [cs]. *)
Definition constraints_at (h : gmap loc (list val)) (l : loc)
  (cs : list types.Constraint) : Prop :=
  ∃ ls, h !! l = Some (Ref <$> ls) ∧
        Forall2 (λ l c, strings_at h l (types.people c)) ls cs.

(** [cliques], with its arrays in the store and outside [h0], stands
    for the object [c] of the engine. *)
Definition cliques_at (h0 h : gmap loc (list val))
  (cliques : list (string * loc))
  (c : list (string * list string)) : Prop :=
  Forall2 (λ kl km, kl.1 = km.1 ∧ strings_at h kl.2 km.2 ∧ kl.2 ∉ dom h0)
          cliques c ∧
  NoDup cliques.*2.

(** Outside the arrays [ls] the stores [h] and [h'] agree. *)
Definition only_changed (ls : list loc) (h h' : gmap loc (list val))
  : Prop :=
  ∀ l, l ∉ ls → h' !! l = h !! l.

(** The arrays at [groups] hold the groups [gs]. *)
Definition groups_at (h : gmap loc (list val)) (groups : list loc)
  (gs : list (list string)) : Prop :=
  Forall2 (strings_at h) groups gs.

(** The run on the store [run] has the outcome [result] of the engine
    on values, and leaves the store [h0] as it is. *)
Definition outcome_at (h0 : gmap loc (list val))
  (result : option (outcome * nat))
  (run : option (outcome_store * nat * gmap loc (list val))) : Prop :=
  match result with
  | Some (Groups generatedGroups, calls) =>
      ∃ sortedGroups h',
        run = Some (Groups_store sortedGroups, calls, h') ∧ (h0 ⊆ h') ∧
        read_groups sortedGroups h' = Some (generatedGroups, h')
  | Some (Failure e, calls) =>
      ∃ h', run = Some (Failure_store e, calls, h') ∧ (h0 ⊆ h')
  | None => run = None
  end.

(** Scenario A in a store: the people at address 0, no apart-constraint
    (the empty array at address 1), and at address 2 the array of
    together-constraints, whose only element has its people at
    address 3. *)
Definition scenario_A_store : gmap loc (list val) :=
  list_to_map
    [(0, Str <$> ["A"; "B"; "C"; "D"]%string);
     (1, []);
     (2, [Ref 3]);
     (3, Str <$> ["A"; "B"]%string)].

(** A decidable side condition, settled by evaluation. *)
Ltac by_evaluation :=
  lazymatch goal with
  | |- ?P => apply (@bool_decide_unpack P _); vm_compute; exact I
  end.

(** ** The form and its groups *)

(** A constraint made on the form: at least two names, all different,
    all of them people of the list. *)
Definition constraint_ok (people : list string) (c : types.Constraint)
  : Prop :=
  2 ≤ length (types.people c) ∧ NoDup (types.people c) ∧
  Forall (λ x, x ∈ people) (types.people c).

(** The constraints and the selection of the form fit its people. *)
Definition form_ok (s : App.state) : Prop :=
  Forall (constraint_ok (App.people s)) (App.apartConstraints s) ∧
  Forall (constraint_ok (App.people s)) (App.togetherConstraints s) ∧
  NoDup (App.selectedForConstraint s) ∧
  Forall (λ x, x ∈ App.people s) (App.selectedForConstraint s).

(** A name without a visible character. *)
Definition blank (name : string) : Prop :=
  Forall (λ c, is_white_space c = true) (list_ascii_of_string name).

(** The sizes of two groups differ by [U] at most. *)
Definition spread (U : nat) (tempGroups : list (list string)) : Prop :=
  ∀ i j g g', tempGroups !! i = Some g → tempGroups !! j = Some g' →
              length g ≤ length g' + U.

(** ** Examples

    A session: A, B and C are added; A and B are tied together (C is
    ticked and unticked on the way), C and A are set apart, and B is
    removed, which takes the together-constraint away. *)
Definition a_session : list App.event :=
  [App.change_personName "A"; App.add_person;
   App.change_personName "B"; App.add_person;
   App.change_personName "C"; App.add_person;
   App.change_checkbox "A"; App.change_checkbox "C";
   App.change_checkbox "B"; App.change_checkbox "C";
   App.create_constraint App.together;
   App.change_checkbox "C"; App.change_checkbox "A";
   App.create_constraint App.apart;
   App.remove_person "B"]%string.

(** The form after [a_session]. *)
Definition after_a_session : App.state :=
  {| App.people := ["A"; "C"]%string; App.personName := "";
     App.groupCount := 2;
     App.apartConstraints := [types.Build_Constraint ["C"; "A"]%string];
     App.togetherConstraints := [];
     App.selectedForConstraint := [];
     App.customGroupNames := [""; ""]%string;
     App.namingMethod := App.count |}.

(** A is listed, and A is typed again after a space. *)
Definition padded_A : App.state :=
  App.setPersonName " A" (App.setPeople ["A"]%string App.initial).

(** After [a_session], D is typed between two spaces. *)
Definition typed_D : App.state := App.setPersonName " D " after_a_session.

(** A session on the number input. *)
Definition count_session : list App.event :=
  [App.change_groupCount "0"; App.change_groupCount "-3";
   App.change_groupCount ""; App.change_groupCount "07"]%string.

(** The form after [count_session]. *)
Definition after_count_session : App.state := App.setGroupCount 7 App.initial.

(** Three people, and three names typed for the groups, one of them
    blank. *)
Definition named_form : App.state :=
  App.setNamingMethod App.custom
    (App.setCustomGroupNames ["Red "; "  "; "Blue"]%string
       (App.setPeople ["A"; "B"; "C"]%string App.initial)).

(** The results view on the groups of [named_form], without images. *)
Definition named_results : Service.results :=
  {| Service.groups := [["A"; "B"]; ["C"]]%string;
     Service.groupNames := Service.text <$> ["Red "; "Blue"]%string;
     Service.groupImages := ["error"; "error"]%string;
     Service.error := Some Service.errorImageGeneration |}.

(** A table with a chain: A points at B, B at its root C. *)
Definition chain_parent : gmap string string :=
  list_to_map [("A", "B"); ("B", "C"); ("C", "C")]%string.

(** * Properties *)

(** ** Sorting *)

Section js_sort_facts.
Context {A : Type} (le : A → A → bool).

Lemma sort_insert_perm (x : A) (l : list A) : sort_insert le x l ≡ₚ x :: l.
Proof.
  induction l as [|y l IH]; simpl; [done|].
  destruct (le x y); [done|].
  rewrite IH. apply Permutation_swap.
Qed.

Lemma js_sort_perm (l : list A) : js_sort le l ≡ₚ l.
Proof.
  induction l as [|x l IH]; simpl; [done|].
  by rewrite sort_insert_perm, IH.
Qed.

Lemma length_js_sort (l : list A) : length (js_sort le l) = length l.
Proof. apply Permutation_length, js_sort_perm. Qed.

Hypothesis le_total : ∀ a b, le a b = false → le b a = true.

Lemma sort_insert_sorted (x : A) (l : list A) :
  Sorted (λ a b, le a b = true) l →
  Sorted (λ a b, le a b = true) (sort_insert le x l).
Proof.
  induction 1 as [|y l Hl IH Hhd]; simpl.
  - repeat constructor.
  - destruct (le x y) eqn:Hxy.
    + constructor; [by constructor|by constructor].
    + constructor; [done|].
      destruct Hhd as [|z l Hyz]; simpl.
      * constructor. by apply le_total.
      * destruct (le x z); constructor; [by apply le_total|done].
Qed.

Lemma js_sort_sorted (l : list A) :
  Sorted (λ a b, le a b = true) (js_sort le l).
Proof.
  induction l as [|x l IH]; simpl; [constructor|].
  by apply sort_insert_sorted.
Qed.

End js_sort_facts.

(** The default comparison of strings is total. *)
Lemma string_leb_total (a b : string) :
  String.leb a b = false → String.leb b a = true.
Proof. destruct (String.leb_total a b); congruence. Qed.

(** ** Enumeration of an object and shuffling *)

Lemma Object_values_perm {V : Type} (o : list (string * V)) :
  Object_values o ≡ₚ o.*2.
Proof.
  unfold Object_values. apply fmap_Permutation.
  rewrite js_sort_perm.
  induction o as [|kv o IH]; [done|].
  rewrite !filter_cons.
  destruct (is_index kv.1) eqn:E.
  - rewrite decide_True, decide_False by congruence. simpl. by rewrite IH.
  - rewrite decide_False, decide_True by congruence.
    rewrite <- Permutation_middle. by rewrite IH.
Qed.

Section shuffle_facts.
Context {A : Type} (random : nat → nat).

Lemma swap_perm (array : list A) (i j : nat) : swap array i j ≡ₚ array.
Proof.
  unfold swap.
  destruct (array !! j) as [aj|] eqn:Hj; [|done].
  destruct (array !! i) as [ai|] eqn:Hi; [|done].
  by apply Permutation_insert_swap.
Qed.

Lemma shuffle_loop_perm (currentIndex : nat) (array : list A) (calls : nat) :
  (shuffle_loop random currentIndex array calls).1 ≡ₚ array.
Proof.
  revert array calls.
  induction currentIndex as [|n IH]; intros array calls; simpl; [done|].
  rewrite IH. apply swap_perm.
Qed.

Lemma shuffle_loop_calls (currentIndex : nat) (array : list A) (calls : nat) :
  (shuffle_loop random currentIndex array calls).2 = calls + currentIndex.
Proof.
  revert array calls.
  induction currentIndex as [|n IH]; intros array calls; simpl; [lia|].
  rewrite IH. lia.
Qed.

Lemma shuffleArray_perm (array : list A) (calls : nat) :
  (shuffleArray random array calls).1 ≡ₚ array.
Proof. apply shuffle_loop_perm. Qed.

Lemma shuffleArray_calls (array : list A) (calls : nat) :
  (shuffleArray random array calls).2 = calls + length array.
Proof. apply shuffle_loop_calls. Qed.

End shuffle_facts.

(** Only the values the oracle gives to the calls that are made
    matter. *)
Lemma shuffle_loop_ext {A : Type} (random random' : nat → nat)
  (currentIndex : nat) (array : list A) (calls : nat) :
  (∀ n, calls ≤ n < calls + currentIndex → random n = random' n) →
  shuffle_loop random currentIndex array calls
  = shuffle_loop random' currentIndex array calls.
Proof.
  revert array calls.
  induction currentIndex as [|n IH]; intros array calls H; simpl; [done|].
  rewrite (H calls) by lia. apply IH. intros m ?. apply H. lia.
Qed.

(** ** Packing *)

Section packing_facts.
Variable apartConstraints : list types.Constraint.

Lemma includes_true (l : list string) (x : string) :
  includes l x = true ↔ x ∈ l.
Proof. unfold includes. by rewrite bool_decide_eq_true. Qed.

(** Eligibility, spelled out: the group is rejected exactly when one of
    its members and one member of the unit are named together by an
    apart-constraint. *)
Lemma groupHasApartPerson_true (group unit : list string) :
  groupHasApartPerson apartConstraints group unit = true ↔
  ∃ personInGroup personInUnit c,
    personInGroup ∈ group ∧ personInUnit ∈ unit ∧ c ∈ apartConstraints ∧
    personInGroup ∈ types.people c ∧ personInUnit ∈ types.people c.
Proof.
  unfold groupHasApartPerson. rewrite existsb_exists. split.
  - intros (pg & Hpg & H). apply existsb_exists in H as (pu & Hpu & H).
    apply existsb_exists in H as (c & Hc & H).
    apply andb_true_iff in H as [H1 H2].
    apply list_elem_of_In in Hpg, Hpu, Hc.
    apply includes_true in H1, H2. by exists pg, pu, c.
  - intros (pg & pu & c & Hpg & Hpu & Hc & H1 & H2).
    exists pg. split; [by apply list_elem_of_In|].
    apply existsb_exists. exists pu. split; [by apply list_elem_of_In|].
    apply existsb_exists. exists c. split; [by apply list_elem_of_In|].
    apply andb_true_iff. by rewrite !includes_true.
Qed.

Lemma groupOrder_perm (tempGroups : list (list string)) :
  groupOrder tempGroups ≡ₚ seq 0 (length tempGroups).
Proof.
  unfold groupOrder. rewrite js_sort_perm.
  rewrite fmap_imap. unfold compose. simpl.
  rewrite imap_seq_0. by rewrite list_fmap_id.
Qed.

Lemma groupOrder_in_range (tempGroups : list (list string)) (i : nat) :
  i ∈ groupOrder tempGroups ↔ i < length tempGroups.
Proof.
  rewrite groupOrder_perm, elem_of_seq. lia.
Qed.

Lemma length_le_true (a b : list string * nat) :
  length_le a b = true ↔ length a.1 ≤ length b.1.
Proof. unfold length_le. rewrite bool_decide_eq_true. lia. Qed.

Lemma sort_insert_before (x : list string * nat) l :
  StronglySorted before l →
  Forall (λ y, x.2 < y.2) l →
  StronglySorted before (sort_insert length_le x l).
Proof.
  induction 1 as [|y l Hl IH Hy]; intros Hx; simpl.
  - repeat constructor.
  - apply Forall_cons in Hx as [Hxy Hx].
    destruct (length_le x y) eqn:E.
    + apply length_le_true in E.
      constructor; [by constructor|].
      constructor; [unfold before; lia|].
      rewrite Forall_forall in Hx, Hy |- *. intros z Hz.
      specialize (Hx z Hz). specialize (Hy z Hz).
      unfold before in *. lia.
    + assert (length y.1 < length x.1) as Hlt.
      { destruct (decide (length x.1 ≤ length y.1)) as [H|H]; [|lia].
        apply length_le_true in H. congruence. }
      constructor; [by apply IH|].
      rewrite sort_insert_perm. constructor; [|done].
      by left.
Qed.

Lemma js_sort_before (l : list (list string * nat)) :
  StronglySorted (λ a b, a.2 < b.2) l →
  StronglySorted before (js_sort length_le l).
Proof.
  induction 1 as [|x l Hl IH Hx]; simpl; [constructor|].
  apply sort_insert_before; [done|]. by rewrite js_sort_perm.
Qed.

Lemma imap_index_sorted (tempGroups : list (list string)) (k : nat) :
  StronglySorted (λ a b : list string * nat, a.2 < b.2)
    (imap (λ i g, (g, k + i)) tempGroups).
Proof.
  revert k. induction tempGroups as [|g gs IH]; intros k; simpl.
  - constructor.
  - constructor.
    + specialize (IH (S k)).
      erewrite imap_ext; [exact IH|]. intros i x _. simpl. f_equal. lia.
    + apply Forall_forall. intros [g' j] H.
      apply elem_of_lookup_imap in H as (i & x & ? & _). simplify_eq/=. lia.
Qed.

Lemma indexed_sorted (tempGroups : list (list string)) :
  StronglySorted before (indexed tempGroups).
Proof. apply js_sort_before, (imap_index_sorted tempGroups 0). Qed.

Lemma elem_of_indexed (tempGroups : list (list string)) g i :
  (g, i) ∈ indexed tempGroups ↔ tempGroups !! i = Some g.
Proof.
  unfold indexed. rewrite js_sort_perm, elem_of_lookup_imap. split.
  - intros (j & x & ? & ?). by simplify_eq.
  - intros H. by exists i, g.
Qed.

(** [place] walks down the list and stops at the first group that is
    not rejected. *)
Lemma place_first (tempGroups : list (list string)) (unit : list string)
  (l : list (list string * nat)) :
  (∀ g i, (g, i) ∈ l → tempGroups !! i = Some g) →
  match place apartConstraints l.*2 tempGroups unit with
  | Some tempGroups' =>
      ∃ l1 g i l2, l = l1 ++ (g, i) :: l2 ∧
        Forall (λ gi, groupHasApartPerson apartConstraints gi.1 unit = true) l1 ∧
        groupHasApartPerson apartConstraints g unit = false ∧
        tempGroups' = <[i := g ++ unit]> tempGroups
  | None =>
      Forall (λ gi, groupHasApartPerson apartConstraints gi.1 unit = true) l
  end.
Proof.
  induction l as [|[g i] l IH]; intros Hl; [constructor|].
  rewrite fmap_cons. cbn [place snd].
  assert (tempGroups !!! i = g) as ->.
  { apply list_lookup_total_correct, Hl. by left. }
  destruct (groupHasApartPerson apartConstraints g unit) eqn:E.
  - specialize (IH (λ g' j H, Hl g' j (list_elem_of_further _ _ _ H))).
    destruct (place apartConstraints l.*2 tempGroups unit).
    + destruct IH as (l1 & g' & j & l2 & -> & H1 & H2 & ->).
      exists ((g, i) :: l1), g', j, l2. split_and!; try done.
      by constructor.
    + by constructor.
  - exists [], g, i, l. by repeat split.
Qed.

Lemma before_asym (a b : list string * nat) : before a b → ¬ before b a.
Proof. unfold before. lia. Qed.

Lemma before_irrefl (a : list string * nat) : ¬ before a a.
Proof. unfold before. lia. Qed.

(** What one placement does (lines 225-238). *)
Lemma place_groupOrder (tempGroups : list (list string)) (unit : list string) :
  match place apartConstraints (groupOrder tempGroups) tempGroups unit with
  | Some tempGroups' =>
      ∃ i g, tempGroups !! i = Some g ∧
        groupHasApartPerson apartConstraints g unit = false ∧
        (∀ j g', tempGroups !! j = Some g' → before (g', j) (g, i) →
                 groupHasApartPerson apartConstraints g' unit = true) ∧
        tempGroups' = <[i := g ++ unit]> tempGroups
  | None =>
      ∀ j g', tempGroups !! j = Some g' →
              groupHasApartPerson apartConstraints g' unit = true
  end.
Proof.
  pose proof (place_first tempGroups unit (indexed tempGroups)) as H.
  change (indexed tempGroups).*2 with (groupOrder tempGroups) in H.
  specialize (H (λ g i, proj1 (elem_of_indexed tempGroups g i))).
  destruct (place apartConstraints (groupOrder tempGroups) tempGroups unit).
  - destruct H as (l1 & g & i & l2 & Hl & H1 & H2 & ->).
    pose proof (indexed_sorted tempGroups) as Hs. rewrite Hl in Hs.
    exists i, g. split_and!; try done.
    + apply elem_of_indexed. rewrite Hl. set_solver.
    + intros j g' Hj Hb.
      apply elem_of_indexed in Hj. rewrite Hl in Hj.
      apply elem_of_app in Hj as [Hj|Hj].
      * rewrite Forall_forall in H1. by apply (H1 _ Hj).
      * apply StronglySorted_app_1_r in Hs.
        apply StronglySorted_inv in Hs as [_ Hs].
        apply elem_of_cons in Hj as [Hj|Hj].
        -- rewrite Hj in Hb. by apply before_irrefl in Hb.
        -- rewrite Forall_forall in Hs. specialize (Hs _ Hj).
           by apply before_asym in Hb.
  - intros j g' Hj. apply elem_of_indexed in Hj.
    rewrite Forall_forall in H. by apply (H _ Hj).
Qed.

Lemma concat_insert_app (tempGroups : list (list string)) i g unit :
  tempGroups !! i = Some g →
  concat (<[i := g ++ unit]> tempGroups) ≡ₚ concat tempGroups ++ unit.
Proof.
  intros H.
  rewrite insert_take_drop by (by eapply lookup_lt_Some).
  rewrite <- (take_drop_middle tempGroups i g H) at 3.
  rewrite !concat_app, !concat_cons.
  rewrite <- !(assoc_L (++)). f_equiv. f_equiv. apply (comm (++)).
Qed.

(** A successful attempt keeps the number of groups and distributes
    exactly the members of the units. *)
Lemma pack_perm (shuffledUnits tempGroups tempGroups' : list (list string)) :
  pack apartConstraints shuffledUnits tempGroups = Some tempGroups' →
  length tempGroups' = length tempGroups ∧
  concat tempGroups' ≡ₚ concat tempGroups ++ concat shuffledUnits.
Proof.
  revert tempGroups.
  induction shuffledUnits as [|unit rest IH]; intros tempGroups; simpl.
  - intros [= ->]. by rewrite app_nil_r.
  - pose proof (place_groupOrder tempGroups unit) as Hp.
    destruct (place apartConstraints (groupOrder tempGroups) tempGroups unit)
      as [tg|]; [|done].
    destruct Hp as (i & g & Hi & _ & _ & ->).
    intros H. apply IH in H as [Hlen Hperm]. split.
    + by rewrite Hlen, length_insert.
    + rewrite Hperm, concat_insert_app by done.
      by rewrite <- (assoc_L (++)).
Qed.

(** Groups only grow, and a unit goes into one group as a whole. *)
Lemma pack_whole (shuffledUnits tempGroups tempGroups' : list (list string)) :
  pack apartConstraints shuffledUnits tempGroups = Some tempGroups' →
  (∀ i g, tempGroups !! i = Some g →
          ∃ g', tempGroups' !! i = Some g' ∧ g ⊆ g') ∧
  (∀ unit, unit ∈ shuffledUnits → ∃ g', g' ∈ tempGroups' ∧ unit ⊆ g').
Proof.
  revert tempGroups.
  induction shuffledUnits as [|unit rest IH]; intros tempGroups; simpl.
  - intros [= ->]. split; [|set_solver]. intros i g ->. by exists g.
  - pose proof (place_groupOrder tempGroups unit) as Hp.
    destruct (place apartConstraints (groupOrder tempGroups) tempGroups unit)
      as [tg|]; [|done].
    destruct Hp as (i & g & Hi & _ & _ & ->).
    intros H. apply IH in H as [Hgrow Hunits]. split.
    + intros j g0 Hj. destruct (decide (i = j)) as [->|Hne].
      * destruct (Hgrow j (g ++ unit)) as (g' & ? & ?).
        { apply list_lookup_insert_eq. by eapply lookup_lt_Some. }
        exists g'. split; [done|]. simplify_eq. clear IH. set_solver.
      * apply Hgrow. by rewrite list_lookup_insert_ne.
    + intros u [->|Hu]%elem_of_cons; [|by apply Hunits].
      destruct (Hgrow i (g ++ unit)) as (g' & ? & ?).
      { apply list_lookup_insert_eq. by eapply lookup_lt_Some. }
      exists g'. split; [by eapply list_elem_of_lookup_2|clear IH; set_solver].
Qed.

End packing_facts.

(** ** Conflict detection *)

Lemma elem_of_Set_add (s : list string) (x y : string) :
  y ∈ Set_add s x ↔ y ∈ s ∨ y = x.
Proof.
  unfold Set_add. destruct (includes s x) eqn:E.
  - apply includes_true in E. split; [by left|]. by intros [?| ->].
  - rewrite elem_of_app, list_elem_of_singleton. done.
Qed.

Lemma NoDup_Set_add (s : list string) (x : string) :
  NoDup s → NoDup (Set_add s x).
Proof.
  intros H. unfold Set_add. destruct (includes s x) eqn:E; [done|].
  apply NoDup_app. split_and!; [done| |apply NoDup_singleton].
  intros y Hy ->%list_elem_of_singleton.
  apply includes_true in Hy. congruence.
Qed.

Lemma fold_Set_add (l acc : list string) :
  NoDup acc →
  NoDup (fold_left Set_add l acc) ∧
  ∀ y, y ∈ fold_left Set_add l acc ↔ y ∈ acc ∨ y ∈ l.
Proof.
  revert acc. induction l as [|x l IH]; intros acc Hacc; simpl.
  - split; [done|]. intros y. split; [by left|].
    by intros [?|?%not_elem_of_nil].
  - destruct (IH (Set_add acc x)) as [Hnd Hel]; [by apply NoDup_Set_add|].
    split; [done|]. intros y.
    rewrite Hel, elem_of_Set_add, elem_of_cons. tauto.
Qed.

Lemma NoDup_new_Set (l : list string) : NoDup (new_Set l).
Proof. apply fold_Set_add. constructor. Qed.

Lemma elem_of_new_Set (l : list string) (y : string) : y ∈ new_Set l ↔ y ∈ l.
Proof.
  unfold new_Set. destruct (fold_Set_add l []) as [_ ->]; [constructor|].
  split; [|by right]. by intros [?%not_elem_of_nil|?].
Qed.

(** A set made from distinct elements lists them as they come. *)
Lemma new_Set_NoDup (l : list string) : NoDup l → new_Set l = l.
Proof.
  unfold new_Set.
  assert (∀ acc, NoDup (acc ++ l) → fold_left Set_add l acc = acc ++ l) as H.
  { induction l as [|x l IH]; intros acc Hnd; simpl.
    - by rewrite app_nil_r.
    - assert (Set_add acc x = acc ++ [x]) as ->.
      { unfold Set_add. destruct (includes acc x) eqn:E; [|done].
        apply includes_true in E. apply NoDup_app in Hnd as (_ & Hd & _).
        destruct (Hd x E). by left. }
      rewrite IH; rewrite <- (assoc_L (++)); done. }
  intros Hnd. by apply (H []).
Qed.

Lemma NoDup_common apart together : NoDup (common apart together).
Proof. apply NoDup_filter, NoDup_new_Set. Qed.

Lemma elem_of_common apart together x :
  x ∈ common apart together ↔
  x ∈ types.people apart ∧ x ∈ types.people together.
Proof.
  unfold common. rewrite list_elem_of_filter, elem_of_new_Set. tauto.
Qed.

Lemma conflict_common apart together :
  conflict apart together
  = match common apart together with
    | conflicted0 :: conflicted1 :: _ => Some (conflicted0, conflicted1)
    | _ => None
    end.
Proof.
  unfold conflict.
  assert (filter (λ x, includes (new_Set (types.people together)) x = true)
                 (new_Set (types.people apart))
          = common apart together) as ->.
  { unfold common. apply list_filter_iff. intros x.
    by rewrite includes_true, elem_of_new_Set. }
  rewrite new_Set_NoDup by apply NoDup_common.
  destruct (common apart together) as [|a [|b l]]; simpl; try done.
Qed.

(** At least two shared names, that is, two different people named by
    both constraints. *)
Lemma common_two apart together :
  2 ≤ length (common apart together) ↔
  ∃ x y, x ≠ y ∧
    x ∈ types.people apart ∧ y ∈ types.people apart ∧
    x ∈ types.people together ∧ y ∈ types.people together.
Proof.
  pose proof (NoDup_common apart together) as Hnd.
  pose proof (elem_of_common apart together) as Hel.
  destruct (common apart together) as [|a [|b l]] eqn:E; simpl.
  - split; [lia|]. intros (x & _ & _ & Hx & _ & Hx' & _).
    destruct (not_elem_of_nil x). apply Hel. done.
  - split; [lia|]. intros (x & y & Hne & Hx & Hy & Hx' & Hy').
    assert (x ∈ [a]) as ->%list_elem_of_singleton by by apply Hel.
    assert (y ∈ [a]) as ->%list_elem_of_singleton by by apply Hel.
    done.
  - split; [|lia]. intros _. exists a, b.
    apply NoDup_cons in Hnd as [Ha _].
    assert (a ≠ b) by (intros ->; apply Ha; by left).
    destruct (proj1 (Hel a)) as [? ?]; [by left|].
    destruct (proj1 (Hel b)) as [? ?]; [right; by left|]. done.
Qed.

Lemma conflict_None apart together :
  conflict apart together = None ↔ length (common apart together) < 2.
Proof.
  rewrite conflict_common.
  destruct (common apart together) as [|a [|b l]]; simpl; split;
    try done; lia.
Qed.

(** Without together-constraints there is no pair to compare. *)
Lemma first_conflict_no_together (apartConstraints : list types.Constraint) :
  first_conflict apartConstraints [] = None.
Proof. by induction apartConstraints. Qed.

(** The inner loop (line 168) stops at the first together-constraint in
    conflict with [apart]. *)
Lemma first_conflict_with_spec apart togetherConstraints :
  match first_conflict_with apart togetherConstraints with
  | Some c =>
      ∃ j together, togetherConstraints !! j = Some together ∧
        conflict apart together = Some c ∧
        ∀ j' together', j' < j → togetherConstraints !! j' = Some together' →
                        conflict apart together' = None
  | None =>
      ∀ together, together ∈ togetherConstraints →
                  conflict apart together = None
  end.
Proof.
  induction togetherConstraints as [|t rest IH]; simpl.
  - by intros t ?%not_elem_of_nil.
  - destruct (conflict apart t) as [c|] eqn:E.
    + exists 0, t. split_and!; [done..|]. intros; lia.
    + destruct (first_conflict_with apart rest) as [c|].
      * destruct IH as (j & t' & Hj & Hc & Hbefore).
        exists (S j), t'. split_and!; [done..|].
        intros [|j'] t'' Hlt Hj'; simplify_eq/=; [done|].
        eapply Hbefore; [|done]. lia.
      * intros t' [->|Ht']%elem_of_cons; [done|by apply IH].
Qed.

(** The outer loop (line 167) stops at the first apart-constraint that
    has a conflict. *)
Lemma first_conflict_spec apartConstraints togetherConstraints :
  match first_conflict apartConstraints togetherConstraints with
  | Some c =>
      ∃ i j apart together,
        apartConstraints !! i = Some apart ∧
        togetherConstraints !! j = Some together ∧
        conflict apart together = Some c ∧
        ∀ i' j' apart' together',
          apartConstraints !! i' = Some apart' →
          togetherConstraints !! j' = Some together' →
          i' < i ∨ (i' = i ∧ j' < j) →
          conflict apart' together' = None
  | None =>
      ∀ apart together,
        apart ∈ apartConstraints → together ∈ togetherConstraints →
        conflict apart together = None
  end.
Proof.
  induction apartConstraints as [|a rest IH]; simpl.
  - by intros a t ?%not_elem_of_nil.
  - pose proof (first_conflict_with_spec a togetherConstraints) as Hin.
    destruct (first_conflict_with a togetherConstraints) as [c|].
    + destruct Hin as (j & t & Hj & Hc & Hbefore).
      exists 0, j, a, t. split_and!; [done..|].
      intros i' j' a' t' Hi' Hj' [?| [-> ?]]; [lia|].
      simplify_eq/=. by eapply Hbefore.
    + destruct (first_conflict rest togetherConstraints) as [c|].
      * destruct IH as (i & j & a' & t & Hi & Hj & Hc & Hbefore).
        exists (S i), j, a', t. split_and!; [done..|].
        intros [|i'] j' a'' t' Hi' Hj' Hlt; simplify_eq/=.
        -- apply Hin. by eapply list_elem_of_lookup_2.
        -- eapply Hbefore; [done..|]. lia.
      * intros a' t [->|Ha']%elem_of_cons Ht; [by apply Hin|by apply IH].
Qed.

(** ** The parent table *)

Section parent_facts.
Implicit Types parent : gmap string string.

Lemma reach_fun parent n m x r s :
  reach parent n x r → reach parent m x s → n = m ∧ r = s.
Proof.
  intros H. revert m s. induction H as [x Hx|n x y r Hx Hne _ IH]; intros m s.
  - inversion 1; simplify_eq; done.
  - inversion 1; simplify_eq.
    destruct (IH n0 s) as [-> ->]; done.
Qed.

Lemma reach_is_root parent n x r : reach parent n x r → parent !! r = Some r.
Proof. induction 1; done. Qed.

Lemma reach_dom parent n x r : reach parent n x r → x ∈ dom parent.
Proof. intros H. apply elem_of_dom. destruct H; eauto. Qed.

Lemma reach_root_ne parent n x r : reach parent (S n) x r → x ≠ r.
Proof.
  intros H ->. pose proof (reach_is_root _ _ _ _ H) as Hr.
  destruct (reach_fun _ _ _ _ _ _ H (reach_root _ _ Hr)). lia.
Qed.

(** A chain of [n] links visits [n + 1] distinct entries. *)
Lemma reach_nodes parent n x r :
  reach parent n x r →
  ∃ l : list string, length l = S n ∧ NoDup l ∧
    ∀ z, z ∈ l → ∃ m, m ≤ n ∧ reach parent m z r.
Proof.
  induction 1 as [x Hx|n x y r Hx Hne H (l & Hlen & Hnd & Hl)].
  - exists [x]. split_and!; [done|apply NoDup_singleton|].
    intros z ->%list_elem_of_singleton. exists 0. split; [done|].
    by constructor.
  - exists (x :: l). split_and!; [simpl; lia| |].
    + constructor; [|done]. intros (m & Hm & Hz)%Hl.
      assert (reach parent (S n) x r) as Hx' by by econstructor.
      destruct (reach_fun _ _ _ _ _ _ Hx' Hz). lia.
    + intros z [->|Hz]%elem_of_cons.
      * exists (S n). split; [done|]. by econstructor.
      * destruct (Hl z Hz) as (m & ? & ?). exists m. split; [lia|done].
Qed.

Lemma reach_lt_size parent n x r : reach parent n x r → n < size parent.
Proof.
  intros (l & Hlen & Hnd & Hl)%reach_nodes.
  assert (list_to_set l ⊆ dom parent) as Hsub.
  { intros z Hz%elem_of_list_to_set.
    destruct (Hl z Hz) as (m & _ & Hm). by eapply reach_dom. }
  apply subseteq_size in Hsub.
  rewrite size_list_to_set, size_dom in Hsub by done. lia.
Qed.

Lemma same_roots_refl parent : same_roots parent parent.
Proof. split; [done|]. eauto. Qed.

Lemma same_roots_trans parent1 parent2 parent3 :
  same_roots parent1 parent2 → same_roots parent2 parent3 →
  same_roots parent1 parent3.
Proof.
  intros [Hd1 H1] [Hd2 H2]. split; [congruence|].
  intros z m s [m' Hm']%H1. eauto.
Qed.

Lemma same_roots_wf parent parent' :
  same_roots parent parent' → wf parent → wf parent'.
Proof.
  intros [Hd H] Hwf x Hx. rewrite Hd in Hx.
  destruct (Hwf x Hx) as (n & r & [m' Hr]%H). eauto.
Qed.

Lemma same_roots_conn parent parent' x y :
  same_roots parent parent' → conn parent x y → conn parent' x y.
Proof.
  intros [_ H] (r & n & m & [n' Hx]%H & [m' Hy]%H). by exists r, n', m'.
Qed.

(** Path compression of one entry. *)
Lemma compress_same_roots parent k x r :
  reach parent k x r → x ≠ r → same_roots parent (<[x := r]> parent).
Proof.
  intros Hx Hne. split.
  { apply dom_insert_lookup_L. apply elem_of_dom. by eapply reach_dom. }
  pose proof (reach_is_root _ _ _ _ Hx) as Hr.
  induction 1 as [z Hz|m z w s Hz Hwz Hw [m' IH]].
  - exists 0. constructor. rewrite lookup_insert_ne; [done|].
    intros <-. destruct (reach_fun _ _ _ _ _ _ Hx (reach_root _ _ Hz)).
    done.
  - destruct (decide (z = x)) as [->|Hzx].
    + pose proof (reach_step _ _ _ _ _ Hz Hwz Hw) as Hx'.
      destruct (reach_fun _ _ _ _ _ _ Hx Hx') as [_ <-].
      exists 1. econstructor; [apply lookup_insert_eq|done|].
      constructor. by rewrite lookup_insert_ne.
    + exists (S m'). econstructor; [|done..].
      by rewrite lookup_insert_ne.
Qed.

(** [find] on a well-formed table: enough fuel gives the root. *)
Lemma find_reach parent n x r fuel :
  reach parent n x r → n < fuel →
  ∃ parent', find fuel parent (Some x) = Some (parent', Some r) ∧
             same_roots parent parent'.
Proof.
  intros H. revert fuel.
  induction H as [x Hx|n x y r Hx Hne H IH]; intros [|fuel] Hlt; try lia.
  - exists parent. simpl. rewrite decide_True by done.
    split; [done|apply same_roots_refl].
  - destruct (IH fuel) as (parent1 & Hfind & Hsame); [lia|].
    exists (<[x := r]> parent1). simpl.
    rewrite decide_False by congruence.
    rewrite Hx, Hfind. split; [done|].
    eapply same_roots_trans; [done|].
    pose proof (reach_step _ _ _ _ _ Hx Hne H) as Hx'.
    destruct (proj2 Hsame _ _ _ Hx') as [k Hk].
    eapply compress_same_roots; [done|]. by eapply reach_root_ne.
Qed.

Lemma find_total parent x :
  wf parent → x ∈ dom parent →
  ∃ parent' r, find (find_fuel parent) parent (Some x)
               = Some (parent', Some r) ∧
    same_roots parent parent' ∧ ∃ n, reach parent n x r.
Proof.
  intros Hwf Hx. destruct (Hwf x Hx) as (n & r & Hr).
  destruct (find_reach parent n x r (find_fuel parent) Hr) as (p' & ? & ?).
  { apply reach_lt_size in Hr. unfold find_fuel. lia. }
  exists p', r. eauto.
Qed.

Lemma conn_refl parent x : wf parent → x ∈ dom parent → conn parent x x.
Proof. intros Hwf Hx. destruct (Hwf x Hx) as (n & r & Hr). by exists r, n, n. Qed.

Lemma conn_sym parent x y : conn parent x y → conn parent y x.
Proof. intros (r & n & m & ? & ?). by exists r, m, n. Qed.

Lemma conn_trans parent x y z :
  conn parent x y → conn parent y z → conn parent x z.
Proof.
  intros (r & n & m & Hx & Hy) (r' & n' & m' & Hy' & Hz).
  destruct (reach_fun _ _ _ _ _ _ Hy Hy') as [_ ->]. by exists r', n, m'.
Qed.

(** Linking the root [rootJ] below the root [rootI]. *)
Lemma link_reach parent rootI rootJ z m s :
  parent !! rootI = Some rootI → parent !! rootJ = Some rootJ →
  rootI ≠ rootJ →
  reach parent m z s →
  ∃ m', reach (<[rootJ := rootI]> parent) m' z
          (if decide (s = rootJ) then rootI else s).
Proof.
  intros Hi Hj Hne.
  induction 1 as [z Hz|m z w s Hz Hwz Hw [m' IH]].
  - destruct (decide (z = rootJ)) as [->|Hzj].
    + exists 1. econstructor; [apply lookup_insert_eq|done|].
      constructor. by rewrite lookup_insert_ne.
    + exists 0. constructor. by rewrite lookup_insert_ne.
  - exists (S m'). econstructor; [|done..].
    rewrite lookup_insert_ne; [done|]. congruence.
Qed.

Lemma grows_refl parent : wf parent → grows parent parent.
Proof. intros Hwf. by repeat split. Qed.

Lemma grows_trans parent1 parent2 parent3 :
  grows parent1 parent2 → grows parent2 parent3 → grows parent1 parent3.
Proof.
  intros (Hd1 & _ & H1) (Hd2 & Hwf & H2).
  repeat split; [congruence|done|eauto].
Qed.

Lemma link_grows parent rootI rootJ :
  wf parent →
  parent !! rootI = Some rootI → parent !! rootJ = Some rootJ →
  rootI ≠ rootJ →
  grows parent (<[rootJ := rootI]> parent).
Proof.
  intros Hwf Hi Hj Hne.
  assert (dom (<[rootJ := rootI]> parent) = dom parent) as Hd.
  { apply dom_insert_lookup_L. by eexists. }
  repeat split; [done| |].
  - intros x Hx. rewrite Hd in Hx. destruct (Hwf x Hx) as (n & r & Hr).
    destruct (link_reach _ _ _ _ _ _ Hi Hj Hne Hr) as [m' Hm']. eauto.
  - intros x y (r & n & m & Hx & Hy).
    destruct (link_reach _ _ _ _ _ _ Hi Hj Hne Hx) as [n' Hn'].
    destruct (link_reach _ _ _ _ _ _ Hi Hj Hne Hy) as [m' Hm'].
    by eexists _, n', m'.
Qed.

Lemma same_roots_grows parent parent' :
  wf parent → same_roots parent parent' → grows parent parent'.
Proof.
  intros Hwf Hs. repeat split; [apply Hs|by eapply same_roots_wf|].
  intros x y. by apply same_roots_conn.
Qed.

Lemma union_total parent i j :
  wf parent → i ∈ dom parent → j ∈ dom parent →
  ∃ parent', union parent (Some i) (Some j) = Some parent' ∧
             grows parent parent' ∧ conn parent' i j.
Proof.
  intros Hwf Hi Hj. unfold union.
  destruct (find_total parent i Hwf Hi) as (p1 & ri & -> & Hs1 & ni & Hri).
  pose proof (same_roots_wf _ _ Hs1 Hwf) as Hwf1.
  destruct (find_total p1 j Hwf1) as (p2 & rj & -> & Hs2 & nj & Hrj).
  { by rewrite (proj1 Hs1). }
  pose proof (same_roots_wf _ _ Hs2 Hwf1) as Hwf2.
  pose proof (same_roots_trans _ _ _ Hs1 Hs2) as Hs.
  destruct (proj2 Hs _ _ _ Hri) as [ni' Hri'].
  destruct (proj2 Hs2 _ _ _ Hrj) as [nj' Hrj'].
  eexists. split; [done|].
  case_decide as Hne; [injection Hne as ->|].
  - split; [by apply same_roots_grows|]. by exists rj, ni', nj'.
  - simpl.
    assert (ri ≠ rj) as Hne' by congruence.
    pose proof (reach_is_root _ _ _ _ Hri') as Hi2.
    pose proof (reach_is_root _ _ _ _ Hrj') as Hj2.
    split.
    + eapply grows_trans; [by apply same_roots_grows|].
      by apply link_grows.
    + destruct (link_reach _ _ _ _ _ _ Hi2 Hj2 Hne' Hri') as [a Ha].
      destruct (link_reach _ _ _ _ _ _ Hi2 Hj2 Hne' Hrj') as [b Hb].
      rewrite decide_False in Ha by done. rewrite decide_True in Hb by done.
      by exists ri, a, b.
Qed.

Lemma union_consecutive_cons parent a b rest :
  union_consecutive parent (a :: b :: rest)
  = match union parent (Some a) (Some b) with
    | Some parent' => union_consecutive parent' (b :: rest)
    | None => None
    end.
Proof. done. Qed.

Lemma union_consecutive_total parent members :
  wf parent → (∀ x, x ∈ members → x ∈ dom parent) →
  ∃ parent', union_consecutive parent members = Some parent' ∧
             grows parent parent' ∧
             ∀ a b, a ∈ members → b ∈ members → conn parent' a b.
Proof.
  revert parent. induction members as [|a [|b rest] IH]; intros parent Hwf Hm.
  - exists parent. split_and!; [done|by apply grows_refl|set_solver].
  - exists parent. split_and!; [done|by apply grows_refl|].
    intros x y ->%list_elem_of_singleton ->%list_elem_of_singleton.
    apply conn_refl; [done|]. apply Hm. by left.
  - rewrite union_consecutive_cons.
    destruct (union_total parent a b Hwf) as (p1 & -> & Hg1 & Hab);
      [apply Hm; set_solver..|].
    destruct (IH p1) as (p2 & -> & Hg2 & Hconn); [apply Hg1| |].
    { intros x Hx. rewrite (proj1 Hg1). apply Hm. by right. }
    exists p2. split_and!; [done|by eapply grows_trans|].
    assert (conn p2 a b) as Hab2 by by apply Hg2.
    assert (∀ y, y ∈ a :: b :: rest → conn p2 a y) as Ha.
    { intros y [->|Hy]%elem_of_cons.
      - eapply conn_trans; [done|by apply conn_sym].
      - eapply conn_trans; [done|]. apply Hconn; [by left|done]. }
    intros x y Hx Hy.
    eapply conn_trans; [apply conn_sym|]; by apply Ha.
Qed.

Lemma union_all_total parent togetherConstraints :
  wf parent →
  (∀ c x, c ∈ togetherConstraints → x ∈ types.people c → x ∈ dom parent) →
  ∃ parent', union_all parent togetherConstraints = Some parent' ∧
             grows parent parent' ∧
             ∀ c a b, c ∈ togetherConstraints →
                      a ∈ types.people c → b ∈ types.people c →
                      conn parent' a b.
Proof.
  revert parent.
  induction togetherConstraints as [|c rest IH]; intros parent Hwf Hm.
  - exists parent. split_and!; [done|by apply grows_refl|set_solver].
  - simpl.
    destruct (union_consecutive_total parent (types.people c) Hwf)
      as (p1 & -> & Hg1 & Hc).
    { intros x Hx. apply (Hm c); [by left|done]. }
    destruct (IH p1) as (p2 & -> & Hg2 & Hrest); [apply Hg1| |].
    { intros c' x Hc' Hx. rewrite (proj1 Hg1). apply (Hm c'); [by right|done]. }
    exists p2. split_and!; [done|by eapply grows_trans|].
    intros c' a b [->|Hc']%elem_of_cons Ha Hb.
    + apply Hg2. by apply Hc.
    + by eapply Hrest.
Qed.

Lemma init_parent_lookup people x :
  init_parent people !! x = if decide (x ∈ people) then Some x else None.
Proof.
  unfold init_parent.
  assert (∀ acc : gmap string string,
    fold_left (λ parent p, <[p := p]> parent) people acc !! x
    = if decide (x ∈ people) then Some x else acc !! x) as H.
  { induction people as [|p people IH]; intros acc; cbn [fold_left].
    - case_decide as Hin; [by apply not_elem_of_nil in Hin|done].
    - rewrite IH. destruct (decide (x ∈ people)) as [Hin|Hnin].
      + case_decide as Hc; [done|]. destruct Hc. by right.
      + case_decide as Hc.
        * apply elem_of_cons in Hc as [->|Hc]; [|done].
          by rewrite lookup_insert_eq.
        * rewrite lookup_insert_ne; [done|]. intros ->. apply Hc. by left. }
  rewrite H. by case_decide.
Qed.

Lemma init_parent_dom people x : x ∈ dom (init_parent people) ↔ x ∈ people.
Proof.
  rewrite elem_of_dom, init_parent_lookup.
  case_decide; split; done.
Qed.

Lemma init_parent_wf people : wf (init_parent people).
Proof.
  intros x Hx%init_parent_dom. exists 0, x. constructor.
  rewrite init_parent_lookup. by case_decide.
Qed.

End parent_facts.

(** ** The units *)

Lemma concat_perm {A : Type} (l l' : list (list A)) :
  l ≡ₚ l' → concat l ≡ₚ concat l'.
Proof.
  induction 1 as [|x l l' _ IH|x y l|l l' l'' _ IH1 _ IH2]; simpl.
  - done.
  - by rewrite IH.
  - rewrite !(assoc_L (++)). f_equiv. apply (comm (++)).
  - by rewrite IH1.
Qed.

Lemma elem_of_concat {A : Type} (ls : list (list A)) (x : A) :
  x ∈ concat ls ↔ ∃ l, l ∈ ls ∧ x ∈ l.
Proof.
  induction ls as [|l ls IH]; simpl.
  - split; [by intros ?%not_elem_of_nil|]. by intros (? & ?%not_elem_of_nil & _).
  - rewrite elem_of_app, IH. split.
    + intros [H|(l' & ? & ?)]; [exists l|exists l']; split; try done.
      * by left.
      * by right.
    + intros (l' & [->|H]%elem_of_cons & ?); [by left|right; eauto].
Qed.

Lemma NoDup_fst_fun {A B : Type} (l : list (A * B)) k v1 v2 :
  NoDup l.*1 → (k, v1) ∈ l → (k, v2) ∈ l → v1 = v2.
Proof.
  induction l as [|[k' v'] l IH]; simpl.
  - by intros _ ?%not_elem_of_nil.
  - intros [Hk Hnd]%NoDup_cons [H1|H1]%elem_of_cons [H2|H2]%elem_of_cons;
      simplify_eq; try done.
    + destruct Hk. by apply (list_elem_of_fmap_2 fst _ (k', v2)).
    + destruct Hk. by apply (list_elem_of_fmap_2 fst _ (k', v1)).
    + by apply IH.
Qed.

Section cliques_facts.
Implicit Types cliques : list (string * list string).

Lemma cliques_push_unfold cliques root p :
  cliques_push cliques root p
  = if decide (root ∈ cliques.*1 ∨ root ∉ Object_prototype_names)
    then Some (cliques_add cliques root p) else None.
Proof.
  induction cliques as [|[k ms] cliques IH]; csimpl.
  - destruct (decide (root ∈ Object_prototype_names)) as [Hin|Hnin].
    + rewrite decide_False; [done|].
      intros [H%not_elem_of_nil|H]; done.
    + rewrite decide_True; [done|]. by right.
  - destruct (decide (k = root)) as [->|Hne].
    + rewrite decide_True; [done|]. left. by left.
    + rewrite IH. destruct (decide (root ∈ cliques.*1 ∨ _)) as [H|H].
      * rewrite decide_True; [done|].
        destruct H as [H|H]; [left; by right|by right].
      * rewrite decide_False; [done|].
        intros [[?|?]%elem_of_cons|?]; [congruence|destruct H; by left|
                                         destruct H; by right].
Qed.

Lemma cliques_add_keys cliques root p :
  (cliques_add cliques root p).*1
  = if decide (root ∈ cliques.*1) then cliques.*1 else cliques.*1 ++ [root].
Proof.
  induction cliques as [|[k ms] cliques IH]; csimpl.
  - done.
  - destruct (decide (k = root)) as [->|Hne]; csimpl.
    + rewrite decide_True; [done|]. by left.
    + rewrite IH. destruct (decide (root ∈ cliques.*1)) as [Hin|Hnin].
      * case_decide as Hc; [done|]. destruct Hc. by right.
      * case_decide as Hc; [|done].
        apply elem_of_cons in Hc as [Hc|Hc]; [congruence|done].
Qed.

Lemma cliques_add_NoDup cliques root p :
  NoDup cliques.*1 → NoDup (cliques_add cliques root p).*1.
Proof.
  intros H. rewrite cliques_add_keys. case_decide; [done|].
  apply NoDup_app. split_and!; [done| |apply NoDup_singleton].
  intros x Hx ->%list_elem_of_singleton. done.
Qed.

Lemma cliques_add_values cliques root p :
  concat (cliques_add cliques root p).*2 ≡ₚ concat cliques.*2 ++ [p].
Proof.
  induction cliques as [|[k ms] cliques IH]; csimpl; [done|].
  destruct (decide (k = root)) as [->|Hne]; csimpl.
  - rewrite <- !(assoc_L (++)). f_equiv. apply (comm (++)).
  - by rewrite IH, (assoc_L (++)).
Qed.

Lemma cliques_add_Forall (Q : string → list string → Prop) cliques root p :
  Forall (λ kv, Q kv.1 kv.2) cliques →
  Q root [p] → (∀ ms, Q root ms → Q root (ms ++ [p])) →
  Forall (λ kv, Q kv.1 kv.2) (cliques_add cliques root p).
Proof.
  intros H H1 H2. induction H as [|[k ms] cliques Hk Hrest IH]; simpl.
  - by repeat constructor.
  - destruct (decide (k = root)) as [->|Hne].
    + constructor; [by apply H2|done].
    + by constructor.
Qed.

Lemma build_cliques_cases parent0 parent cliques done people :
  wf parent0 → same_roots parent0 parent →
  (∀ x, x ∈ people → x ∈ dom parent0) →
  cliques_inv parent0 cliques done →
  (∃ parent' cliques',
     build_cliques parent cliques people = Some (parent', cliques') ∧
     cliques_inv parent0 cliques' (done ++ people)) ∨
  (build_cliques parent cliques people = None ∧
   ∃ r, r ∈ dom parent0 ∧ r ∈ Object_prototype_names).
Proof.
  intros Hwf. revert parent cliques done.
  induction people as [|p people IH]; intros parent cliques done Hs Hp Hinv.
  - left. exists parent, cliques. by rewrite app_nil_r.
  - cbn [build_cliques].
    assert (p ∈ dom parent0) as Hp0 by (apply Hp; by left).
    destruct (find_total parent p) as (p1 & r & -> & Hs1 & n & Hr).
    { by eapply same_roots_wf. }
    { by rewrite (proj1 Hs). }
    assert (∃ n0, reach parent0 n0 p r) as Hr0.
    { destruct (Hwf p Hp0) as (n0 & r0 & Hr0).
      destruct (proj2 Hs _ _ _ Hr0) as [m Hm].
      destruct (reach_fun _ _ _ _ _ _ Hr Hm) as [_ <-]. eauto. }
    cbn [key]. rewrite cliques_push_unfold.
    destruct (decide (r ∈ cliques.*1 ∨ r ∉ Object_prototype_names))
      as [_|Hthrow]; last first.
    { right. split; [done|]. exists r. split.
      - destruct Hr0 as [n0 Hr0]. apply elem_of_dom.
        rewrite (reach_is_root _ _ _ _ Hr0). done.
      - destruct (decide (r ∈ Object_prototype_names)); [done|].
        destruct Hthrow. by right. }
    destruct (IH p1 (cliques_add cliques r p) (done ++ [p]))
      as [(p' & c' & -> & Hinv')| [-> Hnone]].
    + by eapply same_roots_trans.
    + intros x Hx. apply Hp. by right.
    + destruct Hinv as (Hnd & Hperm & Hall). repeat split.
      * by apply cliques_add_NoDup.
      * by rewrite cliques_add_values, Hperm.
      * apply (cliques_add_Forall
          (λ k ms, ms ≠ [] ∧ ∀ x, x ∈ ms → ∃ n, reach parent0 n x k)); try done.
        -- split; [done|]. by intros x ->%list_elem_of_singleton.
        -- intros ms [_ Hms]. split; [by destruct ms|].
           intros x [?|Hx%list_elem_of_singleton]%elem_of_app;
             subst; eauto.
    + left. exists p', c'. split; [done|].
      by rewrite <- (assoc_L (++)) in Hinv'.
    + by right.
Qed.

(** No array is ever filed under an inherited name. *)
Lemma build_cliques_keys parent cliques people parent' cliques' k :
  build_cliques parent cliques people = Some (parent', cliques') →
  k ∈ cliques'.*1 → k ∈ cliques.*1 ∨ k ∉ Object_prototype_names.
Proof.
  revert parent cliques.
  induction people as [|p people IH]; intros parent cliques; cbn [build_cliques].
  - intros [= <- <-]. by left.
  - destruct (find _ parent (Some p)) as [[parent1 root]|]; [|done].
    rewrite cliques_push_unfold.
    destruct (decide (key root ∈ cliques.*1 ∨ _)) as [Hroot|]; [|done].
    intros Hb Hk. destruct (IH _ _ Hb Hk) as [Hin|?]; [|by right].
    rewrite cliques_add_keys in Hin.
    destruct (decide (key root ∈ cliques.*1)); [by left|].
    apply elem_of_app in Hin as [?| ->%list_elem_of_singleton]; [by left|].
    destruct Hroot; [done|by right].
Qed.

End cliques_facts.

(** The loop of lines 206-210 files every person under the root of
    the table, or throws at a root that is named after a property of
    [Object.prototype]; a root is a person. *)
Lemma units_unfold (people : list string)
  (togetherConstraints : list types.Constraint) parent0 :
  union_all (init_parent people) togetherConstraints = Some parent0 →
  dom parent0 = dom (init_parent people) → wf parent0 →
  (∃ cliques,
     units people togetherConstraints = Some (Object_values cliques) ∧
     cliques_inv parent0 cliques people ∧
     ∀ k, k ∈ cliques.*1 → k ∉ Object_prototype_names) ∨
  (units people togetherConstraints = None ∧
   ∃ p, p ∈ people ∧ p ∈ Object_prototype_names).
Proof.
  intros Hu Hdom Hwf. unfold units. rewrite Hu.
  destruct (build_cliques_cases parent0 parent0 [] [] people)
    as [(p' & cliques & Hb & Hinv)| [-> (r & Hr & Hnames)]]; try done.
  { apply same_roots_refl. }
  { intros x Hx. rewrite Hdom. by apply init_parent_dom. }
  { repeat split; [constructor|done|constructor]. }
  - left. exists cliques. rewrite Hb. split_and!; [done..|].
    intros k Hk.
    by destruct (build_cliques_keys _ _ _ _ _ k Hb Hk) as [?%not_elem_of_nil|?].
  - right. split; [done|]. exists r. split; [|done].
    apply init_parent_dom. by rewrite <- Hdom.
Qed.

(** The units of well-formed input, where line 209 does not throw:
    every person is in exactly one unit, no unit is empty, and the
    members of a together-constraint share a unit. *)
Lemma units_cases (people : list string)
  (togetherConstraints : list types.Constraint) :
  (∀ c x, c ∈ togetherConstraints → x ∈ types.people c → x ∈ people) →
  match units people togetherConstraints with
  | Some shuffleUnits =>
      concat shuffleUnits ≡ₚ people ∧
      Forall (λ unit, unit ≠ []) shuffleUnits ∧
      ∀ c a b, c ∈ togetherConstraints →
               a ∈ types.people c → b ∈ types.people c →
               ∃ unit, unit ∈ shuffleUnits ∧ a ∈ unit ∧ b ∈ unit
  | None => ∃ p, p ∈ people ∧ p ∈ Object_prototype_names
  end.
Proof.
  intros Hm.
  destruct (union_all_total (init_parent people) togetherConstraints)
    as (parent0 & Hu & (Hdom & Hwf & _) & Hconn).
  { apply init_parent_wf. }
  { intros c x Hc Hx. apply init_parent_dom. by eapply Hm. }
  destruct (units_unfold people togetherConstraints parent0 Hu Hdom Hwf)
    as [(cliques & -> & (Hnd & Hperm & Hall) & _)| [-> Hthrow]]; [|done].
  pose proof (Object_values_perm cliques) as HOV.
  split_and!.
  - by rewrite (concat_perm _ _ HOV).
  - rewrite HOV. apply Forall_fmap. eapply Forall_impl; [exact Hall|].
    by intros kv [? _].
  - intros c a b Hc Ha Hb.
    assert (∀ x, x ∈ people → ∃ k ms n,
      (k, ms) ∈ cliques ∧ x ∈ ms ∧ reach parent0 n x k) as Hfiled.
    { intros x Hx. rewrite <- Hperm in Hx.
      apply elem_of_concat in Hx as (ms & Hms & Hx).
      apply list_elem_of_fmap in Hms as ([k ms'] & -> & Hkv).
      rewrite Forall_forall in Hall.
      destruct (Hall _ Hkv) as [_ Hroot]. destruct (Hroot x Hx) as [n Hn].
      by exists k, ms', n. }
    destruct (Hfiled a) as (ka & msa & na & Hina & Ha' & Hra); [by eapply Hm|].
    destruct (Hfiled b) as (kb & msb & nb & Hinb & Hb' & Hrb); [by eapply Hm|].
    destruct (Hconn c a b Hc Ha Hb) as (r & n & m & Hra' & Hrb').
    destruct (reach_fun _ _ _ _ _ _ Hra Hra') as [_ ->].
    destruct (reach_fun _ _ _ _ _ _ Hrb Hrb') as [_ ->].
    rewrite (NoDup_fst_fun _ _ _ _ Hnd Hinb Hina) in Hb'.
    exists msa. split_and!; [|done..].
    rewrite HOV. by apply (list_elem_of_fmap_2 snd _ (r, msa)).
Qed.

(** On ordinary names line 209 does not throw. *)
Lemma ordinary_elem people p :
  ordinary people → p ∈ people → p ∉ Object_prototype_names.
Proof. unfold ordinary. rewrite Forall_forall. auto. Qed.

Lemma units_total (people : list string)
  (togetherConstraints : list types.Constraint) :
  ordinary people →
  (∀ c x, c ∈ togetherConstraints → x ∈ types.people c → x ∈ people) →
  ∃ shuffleUnits, units people togetherConstraints = Some shuffleUnits ∧
    concat shuffleUnits ≡ₚ people ∧
    Forall (λ unit, unit ≠ []) shuffleUnits ∧
    ∀ c a b, c ∈ togetherConstraints →
             a ∈ types.people c → b ∈ types.people c →
             ∃ unit, unit ∈ shuffleUnits ∧ a ∈ unit ∧ b ∈ unit.
Proof.
  intros Hord Hm. pose proof (units_cases people togetherConstraints Hm) as H.
  destruct (units people togetherConstraints) as [us|].
  - by exists us.
  - destruct H as (p & Hp & Hnames). by destruct (ordinary_elem people p).
Qed.

(** A person who is their own root and is named after a property of
    [Object.prototype]: line 209 throws. *)
Lemma units_throws (people : list string) p :
  p ∈ people → p ∈ Object_prototype_names → units people [] = None.
Proof.
  intros Hp Hnames.
  destruct (units_unfold people [] (init_parent people))
    as [(cliques & _ & (_ & Hperm & Hall) & Hkeys)| [-> _]];
    [done|done|apply init_parent_wf| |done].
  rewrite <- Hperm in Hp. apply elem_of_concat in Hp as (ms & Hms & Hp).
  apply list_elem_of_fmap in Hms as ([k ms'] & -> & Hkv).
  rewrite Forall_forall in Hall.
  destruct (Hall _ Hkv) as [_ Hroot]. destruct (Hroot p Hp) as [n Hn].
  assert (k = p) as ->.
  { simpl in Hn. inversion Hn as [x Hx|n' x y r Hx Hne _]; subst; [done|].
    rewrite init_parent_lookup in Hx. case_decide; congruence. }
  destruct (Hkeys p); [|done].
  by apply (list_elem_of_fmap_2 fst _ (p, ms')).
Qed.

(** ** The engine *)

Lemma drawn_from_elem people constraints c x :
  drawn_from people constraints →
  c ∈ constraints → x ∈ types.people c → x ∈ people.
Proof.
  intros H Hc Hx. unfold drawn_from in H. rewrite Forall_forall in H.
  specialize (H c Hc). rewrite Forall_forall in H. by apply H.
Qed.

Section partition_facts.
Variable people : list string.
Variable finalGroupCount : Z.
Variable apartConstraints togetherConstraints : list types.Constraint.
Variable random : nat → nat.

Local Abbreviation loop :=
  (attempt_loop people finalGroupCount apartConstraints togetherConstraints
                random).

Lemma attempt_loop_oversized shuffleUnits attempts calls :
  units people togetherConstraints = Some shuffleUnits →
  existsb (oversized people finalGroupCount) shuffleUnits = true →
  loop (S attempts) calls = Some (Failure errorCliqueSize, calls).
Proof. intros Hu Ho. simpl. by rewrite Hu, Ho. Qed.

Lemma attempt_loop_step shuffleUnits attempts calls :
  units people togetherConstraints = Some shuffleUnits →
  existsb (oversized people finalGroupCount) shuffleUnits = false →
  loop (S attempts) calls
  = match attempt finalGroupCount apartConstraints random shuffleUnits calls with
    | Some tempGroups =>
        Some (Groups (js_sort String.leb <$> tempGroups),
              calls + length shuffleUnits)
    | None => loop attempts (calls + length shuffleUnits)
    end.
Proof.
  intros Hu Ho. cbn [attempt_loop]. rewrite Hu, Ho.
  unfold attempt.
  rewrite <- (shuffleArray_calls random shuffleUnits calls).
  by destruct (shuffleArray random shuffleUnits calls).
Qed.

(** The loop of line 189 stops at the first attempt that places every
    unit, and gives up after [attempts] failures. *)
Lemma attempt_loop_cases shuffleUnits attempts calls :
  units people togetherConstraints = Some shuffleUnits →
  existsb (oversized people finalGroupCount) shuffleUnits = false →
  (∃ n tempGroups, n < attempts ∧
     (∀ m, m < n → attempt finalGroupCount apartConstraints random shuffleUnits (calls + m * length shuffleUnits)
                   = None) ∧
     attempt finalGroupCount apartConstraints random shuffleUnits (calls + n * length shuffleUnits) = Some tempGroups ∧
     loop attempts calls
     = Some (Groups (js_sort String.leb <$> tempGroups),
             calls + S n * length shuffleUnits))
  ∨ ((∀ m, m < attempts →
           attempt finalGroupCount apartConstraints random shuffleUnits (calls + m * length shuffleUnits) = None) ∧
     loop attempts calls
     = Some (Failure errorFailedConstraints,
             calls + attempts * length shuffleUnits)).
Proof.
  intros Hu Ho. revert calls.
  induction attempts as [|attempts IH]; intros calls.
  - right. split; [lia|]. simpl. do 2 f_equal. lia.
  - rewrite (attempt_loop_step _ _ _ Hu Ho).
    destruct (attempt finalGroupCount apartConstraints random shuffleUnits calls) as [tg|] eqn:Ha.
    + left. exists 0, tg. split_and!; [lia|lia| |].
      * by rewrite Nat.add_0_r.
      * do 2 f_equal. lia.
    + destruct (IH (calls + length shuffleUnits))
        as [(n & tg & Hn & Hfail & Hok & ->)|[Hfail ->]].
      * left. exists (S n), tg. split_and!; [lia| | |].
        -- intros [|m] Hm; [by rewrite Nat.add_0_r|].
           rewrite <- (Hfail m) by lia. f_equal. lia.
        -- rewrite <- Hok. f_equal. lia.
        -- do 2 f_equal. lia.
      * right. split.
        -- intros [|m] Hm; [by rewrite Nat.add_0_r|].
           rewrite <- (Hfail m) by lia. f_equal. lia.
        -- do 2 f_equal. lia.
Qed.

(** A run that resolves with groups: the validations passed and some
    attempt among the first 50 placed every unit. *)
Lemma partition_Groups generatedGroups calls :
  partition people finalGroupCount apartConstraints togetherConstraints random
  = Some (Groups generatedGroups, calls) →
  ∃ shuffleUnits n tempGroups,
    units people togetherConstraints = Some shuffleUnits ∧
    existsb (oversized people finalGroupCount) shuffleUnits = false ∧
    (finalGroupCount ≤ Z.of_nat (length people))%Z ∧
    first_conflict apartConstraints togetherConstraints = None ∧
    n < 50 ∧
    attempt finalGroupCount apartConstraints random shuffleUnits (n * length shuffleUnits) = Some tempGroups ∧
    generatedGroups = js_sort String.leb <$> tempGroups ∧
    calls = S n * length shuffleUnits.
Proof.
  unfold partition. case_bool_decide as Hlen; [done|].
  destruct (first_conflict apartConstraints togetherConstraints)
    as [[a b]|] eqn:Hc; [done|].
  destruct (units people togetherConstraints) as [us|] eqn:Hu.
  2:{ cbn [attempt_loop]. by rewrite Hu. }
  destruct (existsb (oversized people finalGroupCount) us) eqn:Ho.
  { by rewrite (attempt_loop_oversized _ _ _ Hu Ho). }
  destruct (attempt_loop_cases us 50 0 Hu Ho)
    as [(n & tg & Hn & _ & Hok & ->)|[_ ->]]; [|done].
  intros [= <- <-]. exists us, n, tg. split_and!; try done. lia.
Qed.

End partition_facts.

Lemma concat_sorted_perm (tempGroups : list (list string)) :
  concat (js_sort String.leb <$> tempGroups) ≡ₚ concat tempGroups.
Proof.
  induction tempGroups as [|g gs IH]; csimpl; [done|].
  by rewrite js_sort_perm, IH.
Qed.

Lemma concat_empty_groups (finalGroupCount : Z) :
  concat (empty_groups finalGroupCount) = [].
Proof.
  unfold empty_groups. induction (Z.to_nat finalGroupCount); simpl; done.
Qed.

Lemma NoDup_concat_index {A : Type} (gs : list (list A)) i j g g' x :
  NoDup (concat gs) →
  gs !! i = Some g → gs !! j = Some g' → x ∈ g → x ∈ g' → i = j.
Proof.
  revert i j. induction gs as [|h gs IH]; intros i j Hnd Hi Hj Hx Hx'.
  - done.
  - simpl in Hnd. apply NoDup_app in Hnd as (_ & Hdisj & Hnd).
    destruct i as [|i], j as [|j]; simplify_eq/=; try done.
    + destruct (Hdisj x Hx). apply elem_of_concat.
      exists g'. split; [by eapply list_elem_of_lookup_2|done].
    + destruct (Hdisj x Hx'). apply elem_of_concat.
      exists g. split; [by eapply list_elem_of_lookup_2|done].
    + f_equal. by eapply IH.
Qed.

(** What a run that resolves with groups has done, on constraints that
    name people of the list. *)
Lemma partition_Groups_inv people finalGroupCount apartConstraints
  togetherConstraints random generatedGroups calls :
  drawn_from people togetherConstraints →
  partition people finalGroupCount apartConstraints togetherConstraints random
  = Some (Groups generatedGroups, calls) →
  ∃ shuffleUnits,
    units people togetherConstraints = Some shuffleUnits ∧
    length generatedGroups = Z.to_nat finalGroupCount ∧
    concat generatedGroups ≡ₚ people ∧
    (∀ unit, unit ∈ shuffleUnits → unit ≠ [] ∧
       ∃ g, g ∈ generatedGroups ∧ unit ⊆ g) ∧
    (∀ c a b, c ∈ togetherConstraints →
       a ∈ types.people c → b ∈ types.people c →
       ∃ unit, unit ∈ shuffleUnits ∧ a ∈ unit ∧ b ∈ unit).
Proof.
  intros Hdrawn Hrun.
  apply partition_Groups
    in Hrun as (us & n & tg & Hu & _ & _ & _ & _ & Hpack & -> & _).
  pose proof (units_cases people togetherConstraints) as Hcases.
  rewrite Hu in Hcases. destruct Hcases as (Hperm & Hne & Htog).
  { intros c x. by apply drawn_from_elem. }
  unfold attempt in Hpack.
  pose proof (shuffleArray_perm random us (n * length us)) as Hsh.
  destruct (pack_perm _ _ _ _ Hpack) as [Hlen Hcat].
  destruct (pack_whole _ _ _ _ Hpack) as [_ Hwhole].
  exists us. split_and!; try done.
  - rewrite length_fmap, Hlen. apply length_replicate.
  - rewrite concat_sorted_perm, Hcat, concat_empty_groups. simpl.
    by rewrite (concat_perm _ _ Hsh).
  - intros unit Hunit. split.
    + rewrite Forall_forall in Hne. by apply Hne.
    + rewrite <- Hsh in Hunit. destruct (Hwhole unit Hunit) as (g & Hg & Hsub).
      exists (js_sort String.leb g). split.
      * by apply list_elem_of_fmap_2.
      * intros x Hx. rewrite js_sort_perm. by apply Hsub.
Qed.

(** ** The validations *)

(** [ceil_div] is the ceiling of the quotient. *)
Lemma ceil_div_spec (n k : Z) :
  (0 < k)%Z → (k * (ceil_div n k - 1) < n ≤ k * ceil_div n k)%Z.
Proof.
  intros Hk. unfold ceil_div.
  pose proof (Z.div_mod (- n) k) as Hdiv.
  pose proof (Z.mod_pos_bound (- n) k Hk) as Hmod. nia.
Qed.

Lemma oversized_true {A B : Type} (people : list A) finalGroupCount
  (unit : list B) :
  finalGroupCount ≠ 0%Z →
  oversized people finalGroupCount unit = true ↔
  (ceil_div (Z.of_nat (length people)) finalGroupCount
   < Z.of_nat (length unit))%Z.
Proof.
  intros Hk. unfold oversized. rewrite decide_False by done.
  apply bool_decide_eq_true.
Qed.

(** The loop of line 189 fails in two ways only. *)
Lemma attempt_loop_Failure people finalGroupCount apartConstraints
  togetherConstraints random attempts calls e calls' :
  attempt_loop people finalGroupCount apartConstraints togetherConstraints
               random attempts calls = Some (Failure e, calls') →
  e = errorCliqueSize ∨ e = errorFailedConstraints.
Proof.
  revert calls. induction attempts as [|attempts IH]; intros calls; simpl.
  - intros [= <- _]. by right.
  - destruct (units people togetherConstraints) as [us|]; [|done].
    destruct (existsb (oversized people finalGroupCount) us).
    + intros [= <- _]. by left.
    + destruct (shuffleArray random us calls) as [shuffled c].
      destruct (pack apartConstraints shuffled (empty_groups finalGroupCount));
        [done|apply IH].
Qed.

(** ** Reading the store *)

Lemma bind_eq {A B : Type} (m : M A) (f : A → M B) h :
  (m ≫= f) h = match m h with Some (a, h') => f a h' | None => None end.
Proof. done. Qed.

Lemma mapM_as_str (ss : list string) : mapM as_str (Str <$> ss) = Some ss.
Proof. apply mapM_fmap_Some. done. Qed.

Lemma mapM_as_ref (ls : list loc) : mapM as_ref (Ref <$> ls) = Some ls.
Proof. apply mapM_fmap_Some. done. Qed.

Lemma read_at h l elems : h !! l = Some elems → read l h = Some (elems, h).
Proof. intros H. unfold read. by rewrite H. Qed.

Lemma read_strings_at h l ss :
  strings_at h l ss → read_strings l h = Some (ss, h).
Proof.
  intros H. unfold read_strings. rewrite bind_eq, (read_at _ _ _ H).
  unfold lift. by rewrite mapM_as_str.
Qed.

Lemma read_refs_at h l ls :
  h !! l = Some (Ref <$> ls) → read_refs l h = Some (ls, h).
Proof.
  intros H. unfold read_refs. rewrite bind_eq, (read_at _ _ _ H).
  unfold lift. by rewrite mapM_as_ref.
Qed.

Lemma read_each_at h ls (contents : list (list string)) :
  Forall2 (strings_at h) ls contents →
  read_each ls h = Some (contents, h).
Proof.
  induction 1 as [|l ss ls contents Hl _ IH]; [done|].
  cbn [read_each]. rewrite bind_eq, (read_strings_at _ _ _ Hl).
  by rewrite bind_eq, IH.
Qed.

Lemma read_constraints_at h l cs :
  constraints_at h l cs → read_constraints l h = Some (cs, h).
Proof.
  intros (ls & Hl & Hcs). unfold read_constraints.
  rewrite bind_eq, (read_refs_at _ _ _ Hl).
  rewrite bind_eq, (read_each_at h ls (types.people <$> cs)).
  2:{ by apply Forall2_fmap_r. }
  unfold ret. do 2 f_equal. rewrite <- list_fmap_compose.
  rewrite <- (list_fmap_id cs) at 2. apply list_fmap_ext. by intros _ [] _.
Qed.

Lemma strings_at_weaken h h' l ss :
  strings_at h l ss → h ⊆ h' → strings_at h' l ss.
Proof. intros H Hsub. by eapply lookup_weaken. Qed.

Lemma constraints_at_weaken h h' l cs :
  constraints_at h l cs → h ⊆ h' → constraints_at h' l cs.
Proof.
  intros (ls & Hl & Hcs) Hsub. exists ls.
  split; [exact (lookup_weaken _ _ _ _ Hl Hsub)|].
  eapply Forall2_impl; [exact Hcs|]. intros l' c H.
  exact (strings_at_weaken _ _ _ _ H Hsub).
Qed.

(** ** Filing the people *)

Section store_facts.
Variable h0 : gmap loc (list val).
Implicit Types h : gmap loc (list val).

Lemma insert_new_subseteq h l elems :
  h0 ⊆ h → l ∉ dom h0 → h0 ⊆ <[l := elems]> h.
Proof. intros Hsub Hl. apply insert_subseteq_r; [|done]. by apply not_elem_of_dom. Qed.

Lemma fresh_new h : h0 ⊆ h → fresh (dom h) ∉ dom h0.
Proof.
  intros Hsub Hin. apply (is_fresh (dom h)).
  by apply (subseteq_dom _ _ Hsub).
Qed.

Lemma entries_insert h l elems (cliques : list (string * loc))
  (c : list (string * list string)) :
  Forall2 (λ kl km, kl.1 = km.1 ∧ strings_at h kl.2 km.2 ∧ kl.2 ∉ dom h0)
          cliques c →
  l ∉ cliques.*2 →
  Forall2 (λ kl km, kl.1 = km.1 ∧ strings_at (<[l := elems]> h) kl.2 km.2
                    ∧ kl.2 ∉ dom h0)
          cliques c.
Proof.
  induction 1 as [|[k l'] [k' ms] cs c (Hk & Hs & Hn) _ IH]; csimpl; intros Hl.
  - constructor.
  - apply not_elem_of_cons in Hl as [Hne Hl]. constructor; [|by apply IH].
    split_and!; [done| |done]. unfold strings_at. simpl.
    by rewrite lookup_insert_ne.
Qed.

Lemma assoc_elem {V : Type} (k : string) (o : list (string * V)) (v : V) :
  assoc k o = Some v → (k, v) ∈ o.
Proof.
  induction o as [|[k' v'] o IH]; simpl; [done|].
  case_decide as Hk.
  - intros [= ->]. subst. by left.
  - intros H. right. by apply IH.
Qed.

Lemma assoc_None {V : Type} (k : string) (o : list (string * V)) :
  assoc k o = None ↔ k ∉ o.*1.
Proof.
  induction o as [|[k' v'] o IH]; csimpl.
  - split; [intros _; apply not_elem_of_nil|done].
  - rewrite not_elem_of_cons. case_decide as Hk.
    + split; [done|]. intros [Hne _]. congruence.
    + rewrite IH. split; [intros Ho; split; [congruence|done]|by intros [_ ?]].
Qed.

(** A key that is there: its array grows by [p]. *)
Lemma cliques_at_push_old h cliques c root p l :
  cliques_at h0 h cliques c → assoc root cliques = Some l →
  ∃ members, strings_at h l members ∧
    cliques_at h0 (<[l := Str <$> (members ++ [p])]> h) cliques
               (cliques_add c root p).
Proof.
  intros [Hall Hnd]. revert Hnd.
  induction Hall as [|[k l'] [k' ms] cs c (Hk & Hs & Hn) Hall IH];
    csimpl; intros Hnd Hassoc; [done|].
  apply NoDup_cons in Hnd as [Hl' Hnd]. simpl in Hk. subst k'.
  case_decide as Hroot.
  - injection Hassoc as ->. exists ms. split; [done|].
    split; [|by constructor]. constructor.
    + split_and!; [done| |done]. unfold strings_at. simpl.
      apply lookup_insert_eq.
    + by apply entries_insert.
  - destruct (IH Hnd Hassoc) as (members & Hm & Hall' & _).
    exists members. split; [done|]. split; [|by constructor].
    constructor; [|done]. split_and!; [done| |done].
    unfold strings_at. simpl. rewrite lookup_insert_ne; [done|].
    intros <-. apply Hl'. apply assoc_elem in Hassoc.
    by apply (list_elem_of_fmap_2 snd _ (root, l)).
Qed.

(** A new key: a new array that holds [p]. *)
Lemma cliques_at_push_new h cliques c root p l :
  cliques_at h0 h cliques c → assoc root cliques = None →
  l ∉ dom h → l ∉ dom h0 →
  cliques_at h0 (<[l := [Str p]]> h) (cliques ++ [(root, l)])
             (cliques_add c root p).
Proof.
  intros [Hall Hnd] Hassoc Hl Hl0.
  assert (l ∉ cliques.*2) as Hlc.
  { intros ([k l'] & -> & Hin)%list_elem_of_fmap.
    rewrite Forall2_lookup in Hall.
    apply list_elem_of_lookup in Hin as [i Hi].
    specialize (Hall i). rewrite Hi in Hall.
    inversion Hall as [? ? (_ & Hs & _)|]; subst.
    apply Hl. apply elem_of_dom. unfold strings_at in Hs. simpl in Hs.
    by eexists. }
  split.
  2:{ rewrite fmap_app. apply NoDup_app. split_and!; [done| |apply NoDup_singleton].
      intros x Hx ->%list_elem_of_singleton. done. }
  apply assoc_None in Hassoc.
  clear Hnd. induction Hall as [|[k l'] [k' ms] cs c (Hk & Hs & Hn) Hall IH];
    csimpl in *.
  - constructor; [|constructor]. split_and!; [done| |done].
    unfold strings_at. simpl. apply lookup_insert_eq.
  - subst k'. apply not_elem_of_cons in Hassoc as [Hne Hassoc].
    apply not_elem_of_cons in Hlc as [Hne' Hlc].
    rewrite decide_False by done. constructor; [|by apply IH].
    split_and!; [done| |done]. unfold strings_at. simpl.
    by rewrite lookup_insert_ne.
Qed.

Lemma assoc_snoc {V : Type} (k : string) (o : list (string * V)) (v : V) :
  assoc k o = None → assoc k (o ++ [(k, v)]) = Some v.
Proof.
  induction o as [|[k' v'] o IH]; simpl.
  - intros _. by rewrite decide_True.
  - case_decide; [done|apply IH].
Qed.

Lemma cliques_at_keys h (cliques : list (string * loc))
  (c : list (string * list string)) :
  cliques_at h0 h cliques c → cliques.*1 = c.*1.
Proof.
  intros [Hall _].
  induction Hall as [|[k l] [k' ms] cs c (Hk & _) _ IH]; csimpl; [done|].
  simpl in Hk. by rewrite Hk, IH.
Qed.

Lemma cliques_push_store_spec h cliques c root p :
  cliques_at h0 h cliques c → h0 ⊆ h →
  match cliques_push c root p with
  | Some c' =>
      ∃ cliques' h', cliques_push_store cliques root p h = Some (cliques', h') ∧
        cliques_at h0 h' cliques' c' ∧ h0 ⊆ h'
  | None => cliques_push_store cliques root p h = None
  end.
Proof.
  intros Hc Hsub. unfold cliques_push_store. rewrite bind_eq.
  rewrite cliques_push_unfold, <- (cliques_at_keys h cliques c Hc).
  destruct (assoc root cliques) as [l|] eqn:Hassoc.
  - rewrite decide_True.
    2:{ left. apply assoc_elem in Hassoc.
        by apply (list_elem_of_fmap_2 fst _ (root, l)). }
    destruct (cliques_at_push_old h cliques c root p l Hc Hassoc)
      as (members & Hm & Hc').
    unfold ret at 1. rewrite bind_eq. unfold lift at 1. rewrite Hassoc.
    rewrite bind_eq, (read_at _ _ _ Hm). rewrite bind_eq.
    unfold write. rewrite Hm. unfold ret.
    eexists _, _. split; [done|].
    replace (Str <$> members ++ [p]) with ((Str <$> members) ++ [Str p])
      in Hc' by (by rewrite fmap_app).
    split; [done|].
    apply insert_new_subseteq; [done|].
    destruct Hc as [Hall _]. apply assoc_elem in Hassoc.
    apply list_elem_of_lookup in Hassoc as [i Hi].
    rewrite Forall2_lookup in Hall. specialize (Hall i). rewrite Hi in Hall.
    by inversion Hall as [? ? (_ & _ & Hn)|]; subst.
  - pose proof Hassoc as Hkey. apply assoc_None in Hkey.
    destruct (decide (root ∈ Object_prototype_names)) as [Hin|Hnin].
    { rewrite decide_False; [done|]. intros [?|?]; done. }
    rewrite decide_True by (by right).
    rewrite bind_eq. unfold alloc at 1. unfold ret at 1.
    rewrite bind_eq. unfold lift at 1. rewrite (assoc_snoc _ _ _ Hassoc).
    rewrite bind_eq. unfold read at 1. rewrite lookup_insert_eq.
    rewrite bind_eq. unfold write. rewrite lookup_insert_eq.
    rewrite insert_insert_eq. unfold ret. simpl.
    eexists _, _. split; [done|].
    pose proof (fresh_new h Hsub) as Hnew. split.
    + apply cliques_at_push_new; [done..|apply is_fresh|done].
    + by apply insert_new_subseteq.
Qed.

Lemma build_cliques_store_cons parent cliques p rest h :
  build_cliques_store parent cliques (p :: rest) h
  = match find (find_fuel parent) parent (Some p) with
    | Some (parent1, root) =>
        match cliques_push_store cliques (key root) p h with
        | Some (cliques1, h1) => build_cliques_store parent1 cliques1 rest h1
        | None => None
        end
    | None => None
    end.
Proof.
  cbn [build_cliques_store]. rewrite bind_eq. unfold lift.
  by destruct (find (find_fuel parent) parent (Some p)) as [[parent1 root]|].
Qed.

(** Lines 206-210 on the store do what [build_cliques] does. *)
Lemma build_cliques_store_spec people parent h cliques c :
  cliques_at h0 h cliques c → h0 ⊆ h →
  match build_cliques parent c people with
  | Some (parent', c') =>
      ∃ cliques' h',
        build_cliques_store parent cliques people h
        = Some ((parent', cliques'), h') ∧
        cliques_at h0 h' cliques' c' ∧ h0 ⊆ h'
  | None => build_cliques_store parent cliques people h = None
  end.
Proof.
  revert parent h cliques c.
  induction people as [|p people IH]; intros parent h cliques c Hc Hsub.
  - simpl. by exists cliques, h.
  - rewrite build_cliques_store_cons. cbn [build_cliques].
    destruct (find (find_fuel parent) parent (Some p)) as [[parent1 root]|];
      [|done].
    pose proof (cliques_push_store_spec h cliques c (key root) p Hc Hsub)
      as Hpush.
    destruct (cliques_push c (key root) p) as [c1|]; [|by rewrite Hpush].
    destruct Hpush as (cliques1 & h1 & -> & Hc1 & Hsub1).
    apply IH; done.
Qed.

(** ** Enumerating and shuffling the units *)

Lemma sort_insert_Forall2 {V W : Type} (P : V → W → Prop)
  (x : string * V) (x' : string * W) l l' :
  x.1 = x'.1 ∧ P x.2 x'.2 →
  Forall2 (λ a b, a.1 = b.1 ∧ P a.2 b.2) l l' →
  Forall2 (λ a b, a.1 = b.1 ∧ P a.2 b.2)
          (sort_insert index_le x l) (sort_insert index_le x' l').
Proof.
  intros Hx. induction 1 as [|y y' l l' Hy Hl IH]; simpl.
  - constructor; [done|constructor].
  - assert (index_le x y = index_le x' y') as ->.
    { unfold index_le. by rewrite (proj1 Hx), (proj1 Hy). }
    destruct (index_le x' y'); repeat (constructor; try done).
Qed.

Lemma Object_values_Forall2 {V W : Type} (P : V → W → Prop)
  (o : list (string * V)) (o' : list (string * W)) :
  Forall2 (λ a b, a.1 = b.1 ∧ P a.2 b.2) o o' →
  Forall2 P (Object_values o) (Object_values o').
Proof.
  intros H. unfold Object_values.
  apply Forall2_fmap. apply Forall2_app.
  - assert (Forall2 (λ a b, a.1 = b.1 ∧ P a.2 b.2)
              (filter (λ kv, is_index kv.1 = true) o)
              (filter (λ kv, is_index kv.1 = true) o')) as Hf.
    { induction H as [|x x' o o' Hx _ IH]; [constructor|].
      rewrite !filter_cons. rewrite <- (proj1 Hx).
      case_decide; [by constructor|done]. }
    eapply (Forall2_impl (λ a b, a.1 = b.1 ∧ P a.2 b.2)); [|by intros ?? [_ ?]].
    induction Hf as [|x x' l l' Hx _ IH]; simpl; [constructor|].
    by apply sort_insert_Forall2.
  - induction H as [|x x' o o' Hx _ IH]; [constructor|].
    rewrite !filter_cons. rewrite <- (proj1 Hx).
    case_decide; [constructor; [apply Hx|done]|done].
Qed.

Lemma swap_Forall2 {V W : Type} (P : V → W → Prop) l l' i j :
  Forall2 P l l' → Forall2 P (swap l i j) (swap l' i j).
Proof.
  intros H. unfold swap.
  destruct (l !! j) as [aj|] eqn:Hj.
  - destruct (Forall2_lookup_l _ _ _ j aj H Hj) as (aj' & -> & Hjj).
    destruct (l !! i) as [ai|] eqn:Hii.
    + destruct (Forall2_lookup_l _ _ _ i ai H Hii) as (ai' & -> & Hiii).
      by repeat apply Forall2_insert.
    + assert (l' !! i = None) as ->; [|done].
      apply lookup_ge_None. rewrite <- (Forall2_length _ _ _ H).
      by apply lookup_ge_None.
  - assert (l' !! j = None) as ->; [|done].
    apply lookup_ge_None. rewrite <- (Forall2_length _ _ _ H).
    by apply lookup_ge_None.
Qed.

Lemma shuffle_loop_Forall2 {V W : Type} (P : V → W → Prop) random
  currentIndex l l' calls :
  Forall2 P l l' →
  Forall2 P (shuffle_loop random currentIndex l calls).1
            (shuffle_loop random currentIndex l' calls).1.
Proof.
  revert l l' calls. induction currentIndex as [|n IH]; intros l l' calls H.
  - done.
  - simpl. apply IH. by apply swap_Forall2.
Qed.

Lemma shuffleArray_Forall2 {V W : Type} (P : V → W → Prop) random
  l l' calls :
  Forall2 P l l' →
  Forall2 P (shuffleArray random l calls).1 (shuffleArray random l' calls).1.
Proof.
  intros H. unfold shuffleArray. rewrite <- (Forall2_length _ _ _ H).
  by apply shuffle_loop_Forall2.
Qed.

Lemma shuffleArray_fmap {V W : Type} (f : V → W) random l calls :
  (shuffleArray random (f <$> l) calls).1
  = f <$> (shuffleArray random l calls).1.
Proof.
  assert (Forall2 (λ a b, a = f b) (shuffleArray random (f <$> l) calls).1
                  (shuffleArray random l calls).1) as H.
  { apply shuffleArray_Forall2. apply Forall2_fmap_l.
    apply Forall2_same_length_lookup. split; [done|]. by intros; simplify_eq. }
  revert H. generalize (shuffleArray random (f <$> l) calls).1.
  generalize (shuffleArray random l calls).1.
  intros k k' H. induction H as [|?? ?? -> _ IH]; [done|]. csimpl. by rewrite IH.
Qed.

(** ** Writing to the groups only *)

Lemma only_changed_refl ls h : only_changed ls h h.
Proof. by intros l _. Qed.

Lemma only_changed_trans ls h1 h2 h3 :
  only_changed ls h1 h2 → only_changed ls h2 h3 → only_changed ls h1 h3.
Proof. intros H1 H2 l Hl. by rewrite H2, H1. Qed.

Lemma only_changed_insert ls h l elems :
  l ∈ ls → only_changed ls h (<[l := elems]> h).
Proof. intros Hl l' Hl'. apply lookup_insert_ne. by intros <-. Qed.

Lemma only_changed_subseteq ls h h' :
  h0 ⊆ h → only_changed ls h h' → (∀ l, l ∈ ls → l ∉ dom h0) → h0 ⊆ h'.
Proof.
  intros Hsub Hch Hls. apply map_subseteq_spec. intros l elems Hl.
  rewrite Hch; [by eapply lookup_weaken|].
  intros Hin%Hls. apply Hin. apply elem_of_dom. by eexists.
Qed.

Lemma only_changed_strings_at ls h h' l ss :
  only_changed ls h h' → l ∉ ls → strings_at h l ss → strings_at h' l ss.
Proof. intros Hch Hl Hs. unfold strings_at. by rewrite Hch. Qed.

(** [Array.from] makes new, distinct, empty arrays. *)
Lemma alloc_empty_spec n h :
  ∃ groups h', alloc_empty n h = Some (groups, h') ∧ h ⊆ h' ∧
    length groups = n ∧ NoDup groups ∧
    Forall (λ g, strings_at h' g [] ∧ g ∉ dom h) groups.
Proof.
  revert h. induction n as [|n IH]; intros h.
  - exists [], h. split_and!; [done..|constructor|constructor].
  - cbn [alloc_empty]. rewrite bind_eq. unfold alloc at 1.
    set (l := fresh (dom h)). set (h1 := <[l := []]> h).
    destruct (IH h1) as (groups & h' & Heq & Hsub & Hlen & Hnd & Hall).
    rewrite bind_eq, Heq. unfold ret.
    assert (h ⊆ h1) as Hsub1.
    { apply insert_subseteq. apply not_elem_of_dom, is_fresh. }
    rewrite Forall_forall in Hall.
    exists (l :: groups), h'. split_and!.
    + done.
    + by etrans.
    + simpl. by rewrite Hlen.
    + constructor; [|done]. intros Hin. destruct (Hall l Hin) as [_ Hl].
      apply Hl. unfold h1. rewrite dom_insert_L.
      apply elem_of_union. left. by apply elem_of_singleton.
    + constructor.
      * split; [|apply is_fresh].
        eapply strings_at_weaken; [|done]. apply lookup_insert_eq.
      * apply Forall_forall. intros g Hg. destruct (Hall g Hg) as [Hs Hn].
        split; [done|]. intros Hin. apply Hn.
        by apply (subseteq_dom _ _ Hsub1).
Qed.

(** ** Packing on the store *)

Lemma groups_at_insert h groups gs i g members :
  groups_at h groups gs → NoDup groups → groups !! i = Some g →
  groups_at (<[g := Str <$> members]> h) groups (<[i := members]> gs).
Proof.
  intros Hgs Hnd Hg. apply Forall2_same_length_lookup. split.
  { rewrite length_insert. by eapply Forall2_length. }
  intros j g' members' Hj Hj'.
  destruct (decide (i = j)) as [->|Hne].
  - assert (g' = g) as -> by congruence.
    rewrite list_lookup_insert_eq in Hj'.
    2:{ rewrite <- (Forall2_length _ _ _ Hgs). by eapply lookup_lt_Some. }
    injection Hj' as <-. apply lookup_insert_eq.
  - rewrite list_lookup_insert_ne in Hj' by done.
    pose proof (Forall2_lookup_lr _ _ _ j _ _ Hgs Hj Hj') as Hs.
    unfold strings_at. rewrite lookup_insert_ne; [done|].
    intros <-. apply Hne. by eapply NoDup_lookup.
Qed.

Lemma groups_at_only_changed ls h h' groups gs :
  only_changed ls h h' → (∀ g, g ∈ groups → g ∉ ls) →
  groups_at h groups gs → groups_at h' groups gs.
Proof.
  intros Hch Hdisj Hgs. apply Forall2_same_length_lookup.
  split; [by eapply Forall2_length|]. intros i g members Hi Hi'.
  eapply only_changed_strings_at; [done| |].
  - apply Hdisj. by eapply list_elem_of_lookup_2.
  - exact (Forall2_lookup_lr _ _ _ i _ _ Hgs Hi Hi').
Qed.

Section packing_store.
Variable apartConstraints : loc.
Variable apart : list types.Constraint.
Variable groups : list loc.
Hypothesis groups_NoDup : NoDup groups.

Lemma place_store_cons h gs i order g unit personsInUnit :
  groups_at h groups gs → groups !! i = Some g →
  strings_at h unit personsInUnit →
  constraints_at h apartConstraints apart →
  place_store apartConstraints (i :: order) groups unit h
  = if groupHasApartPerson apart (gs !!! i) personsInUnit
    then place_store apartConstraints order groups unit h
    else Some (true, <[g := Str <$> (gs !!! i ++ personsInUnit)]> h).
Proof.
  intros Hgs Hg Hu Hc.
  destruct (Forall2_lookup_l _ _ _ i g Hgs Hg) as (members & Hi & Hm).
  rewrite (list_lookup_total_correct _ _ _ Hi).
  cbn [place_store]. rewrite bind_eq. unfold lift at 1. rewrite Hg.
  rewrite bind_eq, (read_strings_at _ _ _ Hm).
  rewrite bind_eq, (read_strings_at _ _ _ Hu).
  rewrite bind_eq, (read_constraints_at _ _ _ Hc).
  destruct (groupHasApartPerson apart members personsInUnit); [done|].
  rewrite bind_eq, (read_at _ _ _ Hm).
  rewrite bind_eq, (read_at _ _ _ Hu).
  rewrite bind_eq. unfold write. rewrite Hm. unfold ret.
  by rewrite fmap_app.
Qed.

(** Lines 227-238 on the store do what [place] does. *)
Lemma place_store_spec h gs order unit personsInUnit :
  groups_at h groups gs →
  strings_at h unit personsInUnit → unit ∉ groups →
  constraints_at h apartConstraints apart →
  (∀ i, i ∈ order → i < length groups) →
  match place apart order gs personsInUnit with
  | Some gs' =>
      ∃ h', place_store apartConstraints order groups unit h
            = Some (true, h') ∧
        groups_at h' groups gs' ∧ only_changed groups h h'
  | None =>
      place_store apartConstraints order groups unit h = Some (false, h)
  end.
Proof.
  intros Hgs Hu Hug Hc. induction order as [|i order IH]; intros Hrange.
  - done.
  - destruct (lookup_lt_is_Some_2 groups i) as [g Hg].
    { apply Hrange. by left. }
    rewrite (place_store_cons h gs i order g unit personsInUnit) by done.
    cbn [place].
    destruct (groupHasApartPerson apart (gs !!! i) personsInUnit).
    + apply IH. intros j Hj. apply Hrange. by right.
    + eexists. split_and!; [done| |].
      * by apply groups_at_insert.
      * apply only_changed_insert. by eapply list_elem_of_lookup_2.
Qed.

Variable tempGroups : loc.
Hypothesis tempGroups_fresh : tempGroups ∉ groups.

Lemma pack_store_cons h gs unit rest :
  h !! tempGroups = Some (Ref <$> groups) → groups_at h groups gs →
  pack_store apartConstraints (unit :: rest) tempGroups h
  = match place_store apartConstraints (groupOrder gs) groups unit h with
    | Some (true, h') => pack_store apartConstraints rest tempGroups h'
    | Some (false, h') => Some (false, h')
    | None => None
    end.
Proof.
  intros Ht Hgs. cbn [pack_store].
  rewrite bind_eq, (read_refs_at _ _ _ Ht).
  rewrite bind_eq, (read_each_at _ _ _ Hgs). rewrite bind_eq.
  by destruct (place_store apartConstraints (groupOrder gs) groups unit h)
    as [[[] ?]|].
Qed.

(** Lines 223-243 on the store do what [pack] does. *)
Lemma pack_store_spec h gs shuffledUnits (us : list (list string)) :
  h0 ⊆ h → constraints_at h0 apartConstraints apart →
  (∀ g, g ∈ groups → g ∉ dom h0) →
  h !! tempGroups = Some (Ref <$> groups) → groups_at h groups gs →
  Forall2 (λ unit personsInUnit,
             strings_at h unit personsInUnit ∧ unit ∉ groups)
          shuffledUnits us →
  ∃ h', only_changed groups h h' ∧
    match pack apart us gs with
    | Some gs' =>
        pack_store apartConstraints shuffledUnits tempGroups h
        = Some (true, h') ∧ groups_at h' groups gs'
    | None =>
        pack_store apartConstraints shuffledUnits tempGroups h
        = Some (false, h')
    end.
Proof.
  intros Hsub Hc Hnew. revert h gs shuffledUnits Hsub.
  induction us as [|personsInUnit us IH];
    intros h gs shuffledUnits Hsub Ht Hgs Hus.
  - apply Forall2_nil_inv_r in Hus as ->. exists h.
    split; [apply only_changed_refl|done].
  - apply Forall2_cons_inv_r in Hus as (unit & rest & [Hu Hug] & Hus & ->).
    rewrite (pack_store_cons h gs) by done. cbn [pack].
    pose proof (place_store_spec h gs (groupOrder gs) unit personsInUnit) as Hp.
    destruct (place apart (groupOrder gs) gs personsInUnit) as [gs1|].
    + destruct Hp as (h1 & -> & Hgs1 & Hch1); try done.
      { by eapply constraints_at_weaken. }
      { intros i Hi%groupOrder_in_range.
        by rewrite (Forall2_length _ _ _ Hgs). }
      destruct (IH h1 gs1 rest) as (h' & Hch & Hres); try done.
      * by eapply only_changed_subseteq.
      * by rewrite Hch1.
      * eapply Forall2_impl; [exact Hus|]. intros u pu [Hpu Hn].
        split; [|done]. by eapply only_changed_strings_at.
      * exists h'. split; [by eapply only_changed_trans|done].
    + rewrite Hp; try done.
      * exists h. split; [apply only_changed_refl|done].
      * by eapply constraints_at_weaken.
      * intros i Hi%groupOrder_in_range.
        by rewrite (Forall2_length _ _ _ Hgs).
Qed.

End packing_store.

(** [g.sort()] on every group. *)
Lemma sort_each_spec h groups gs :
  NoDup groups → groups_at h groups gs →
  ∃ h', sort_each groups h = Some (tt, h') ∧
    groups_at h' groups (js_sort String.leb <$> gs) ∧
    only_changed groups h h'.
Proof.
  revert gs h.
  induction groups as [|g groups IH]; intros gs h Hnd Hgs.
  - apply Forall2_nil_inv_l in Hgs as ->. exists h.
    split_and!; [done|constructor|apply only_changed_refl].
  - apply Forall2_cons_inv_l in Hgs as (members & gs' & Hm & Hgs & ->).
    apply NoDup_cons in Hnd as [Hg Hnd].
    cbn [sort_each]. rewrite bind_eq, (read_strings_at _ _ _ Hm).
    rewrite bind_eq. unfold write at 1. rewrite Hm.
    set (h1 := <[g := Str <$> js_sort String.leb members]> h).
    destruct (IH gs' h1 Hnd) as (h' & -> & Hgs' & Hch).
    { eapply (groups_at_only_changed [g]); [|  |done].
      - apply only_changed_insert. by left.
      - intros g' Hg' ->%list_elem_of_singleton. done. }
    exists h'. split_and!; [done| |].
    + csimpl. constructor; [|done].
      eapply only_changed_strings_at; [done..|]. apply lookup_insert_eq.
    + intros l Hl. apply not_elem_of_cons in Hl as [Hne Hl].
      rewrite Hch by done. unfold h1. by rewrite lookup_insert_ne.
Qed.

Lemma fresh_insert_subseteq h elems : h ⊆ <[fresh (dom h) := elems]> h.
Proof. apply insert_subseteq. apply not_elem_of_dom, is_fresh. Qed.

Lemma strings_at_dom h l ss : strings_at h l ss → l ∈ dom h.
Proof. intros H. apply elem_of_dom. by eexists. Qed.

Lemma existsb_oversized_fmap {A B C : Type} (f : A → B) (people : list A)
  finalGroupCount (us : list (list C)) :
  existsb (oversized (f <$> people) finalGroupCount) us
  = existsb (oversized people finalGroupCount) us.
Proof.
  induction us as [|u us IH]; [done|]. simpl. rewrite IH. f_equal.
  unfold oversized. by rewrite length_fmap.
Qed.

(** ** The engine on the store and the engine on values *)

Section refinement.
Variable people : loc.
Variable finalGroupCount : Z.
Variable apartConstraints togetherConstraints : loc.
Variable random : nat → nat.
Variable persons : list string.
Variable apart together : list types.Constraint.
Hypothesis people_at : strings_at h0 people persons.
Hypothesis apart_at : constraints_at h0 apartConstraints apart.
Hypothesis together_at : constraints_at h0 togetherConstraints together.

(** Lines 190-212 on the store do what [units] does. *)
Lemma units_store_spec h :
  h0 ⊆ h →
  match units persons together with
  | Some us =>
      ∃ shuffleUnits ls h',
        units_store people togetherConstraints h = Some (shuffleUnits, h') ∧
        h0 ⊆ h' ∧ (h' !! shuffleUnits = Some (Ref <$> ls)) ∧
        (shuffleUnits ∉ dom h0) ∧
        Forall2 (λ l unit, strings_at h' l unit ∧ l ≠ shuffleUnits) ls us
  | None => units_store people togetherConstraints h = None
  end.
Proof.
  intros Hsub. unfold units, units_store.
  rewrite bind_eq, (read_strings_at h people persons)
    by (by eapply strings_at_weaken).
  rewrite bind_eq, (read_constraints_at h togetherConstraints together)
    by (by eapply constraints_at_weaken).
  rewrite bind_eq. unfold lift.
  destruct (union_all (init_parent persons) together) as [parent|]; [|done].
  rewrite bind_eq.
  pose proof (build_cliques_store_spec persons parent h [] []) as Hb.
  destruct (build_cliques parent [] persons) as [[parent' c]|].
  2:{ rewrite Hb; [done| |done]. split; constructor. }
  destruct Hb as (cliques & h1 & -> & [Hc Hnd] & Hsub1); [|done|].
  { split; constructor. }
  unfold alloc. set (su := fresh (dom h1)).
  pose proof (Object_values_Forall2
    (λ l unit, strings_at h1 l unit ∧ l ∉ dom h0) cliques c Hc) as Hov.
  exists su, (Object_values cliques), (<[su := Ref <$> Object_values cliques]> h1).
  split_and!.
  - done.
  - apply insert_new_subseteq; [done|]. by apply fresh_new.
  - apply lookup_insert_eq.
  - by apply fresh_new.
  - eapply Forall2_impl; [exact Hov|]. intros l u [Hs Hn]. split.
    + eapply strings_at_weaken; [done|]. apply fresh_insert_subseteq.
    + intros ->. apply strings_at_dom in Hs. by apply (is_fresh (dom h1)).
Qed.

Lemma attempt_loop_store_spec attempts calls h :
  h0 ⊆ h →
  outcome_at h0
    (attempt_loop persons finalGroupCount apart together random attempts calls)
    (attempt_loop_store people finalGroupCount apartConstraints
       togetherConstraints random attempts calls h).
Proof.
  revert calls h. induction attempts as [|attempts IH]; intros calls h Hsub.
  { simpl. by exists h. }
  cbn [attempt_loop attempt_loop_store]. rewrite bind_eq.
  pose proof (units_store_spec h Hsub) as Hu.
  destruct (units persons together) as [us|]; [|by rewrite Hu].
  destruct Hu as (su & ls & h1 & -> & Hsub1 & Hsu & Hsu0 & Hls).
  rewrite bind_eq, (read_refs_at _ _ _ Hsu).
  rewrite bind_eq, (read_each_at h1 ls us).
  2:{ eapply Forall2_impl; [exact Hls|]. by intros ?? [? _]. }
  rewrite bind_eq, (read_at h1 people (Str <$> persons))
    by (by eapply (strings_at_weaken h0)).
  rewrite existsb_oversized_fmap.
  destruct (existsb (oversized persons finalGroupCount) us).
  { by exists h1. }
  rewrite bind_eq.
  destruct (alloc_empty_spec (Z.to_nat finalGroupCount) h1)
    as (groups & h2 & -> & Hsub2 & Hlen & Hnd & Hgroups).
  rewrite bind_eq. unfold alloc at 1.
  set (tg := fresh (dom h2)). set (h3 := <[tg := Ref <$> groups]> h2).
  assert (h2 ⊆ h3) as Hsub3 by apply fresh_insert_subseteq.
  assert (h1 ⊆ h3) as Hsub13 by by etrans.
  rewrite Forall_forall in Hgroups.
  rewrite bind_eq. unfold shuffleArray_store.
  rewrite bind_eq, (read_at h3 su (Ref <$> ls)) by (by eapply lookup_weaken).
  pose proof (shuffleArray_fmap Ref random ls calls) as Hfmap.
  pose proof (shuffleArray_calls random (Ref <$> ls) calls) as Hcalls.
  pose proof (shuffleArray_calls random us calls) as Hcalls'.
  pose proof (shuffleArray_Forall2 _ random ls us calls Hls) as Hshuf.
  destruct (shuffleArray random (Ref <$> ls) calls) as [elems' calls'].
  destruct (shuffleArray random us calls) as [shuffled calls''].
  simpl in Hfmap, Hcalls, Hcalls', Hshuf.
  assert (calls'' = calls') as ->.
  { rewrite Hcalls, Hcalls', length_fmap.
    by rewrite (Forall2_length _ _ _ Hls). }
  subst elems'. set (sl := (shuffleArray random ls calls).1) in *.
  rewrite bind_eq. unfold write at 1.
  rewrite (lookup_weaken _ _ _ _ Hsu Hsub13). unfold ret at 1.
  set (h4 := <[su := Ref <$> sl]> h3).
  rewrite bind_eq, (read_refs_at h4 su sl) by apply lookup_insert_eq.
  assert (tg ∉ dom h0) as Htg0.
  { apply fresh_new. by etrans. }
  assert (∀ l, l ∈ dom h1 → l ≠ tg) as Hold.
  { intros l Hl ->. apply (is_fresh (dom h2)).
    by apply (subseteq_dom _ _ Hsub2). }
  assert (su ≠ tg) as Hsutg.
  { apply Hold. apply elem_of_dom. by eexists. }
  assert (∀ g, g ∈ groups → g ≠ su ∧ g ≠ tg ∧ (g ∉ dom h0) ∧ g ∉ dom h1)
    as Hg.
  { intros g Hin. destruct (Hgroups g Hin) as [Hs Hn]. split_and!.
    - intros ->. apply Hn. apply elem_of_dom. by eexists.
    - intros ->. apply (is_fresh (dom h2)). by apply strings_at_dom in Hs.
    - intros Hin0. apply Hn. by apply (subseteq_dom _ _ Hsub1).
    - done. }
  assert (h0 ⊆ h4) as Hsub4.
  { apply insert_new_subseteq; [|done].
    apply insert_new_subseteq; [|done]. by etrans. }
  assert (tg ∉ groups) as Htgg.
  { intros Hin. by destruct (Hg tg Hin) as (_ & ? & _). }
  rewrite bind_eq.
  destruct (pack_store_spec apartConstraints apart groups Hnd tg Htgg
              h4 (empty_groups finalGroupCount) sl shuffled)
    as (h5 & Hch & Hpack); try done.
  { intros g Hin. by destruct (Hg g Hin) as (_ & _ & ? & _). }
  { unfold h4, h3. rewrite lookup_insert_ne by done. apply lookup_insert_eq. }
  { unfold groups_at, empty_groups. apply Forall2_same_length_lookup.
    split; [by rewrite length_replicate|]. intros i g members Hi Hi'.
    apply lookup_replicate in Hi' as [-> _].
    apply list_elem_of_lookup_2 in Hi.
    destruct (Hgroups g Hi) as [Hs _]. destruct (Hg g Hi) as (Hne & _).
    unfold strings_at, h4. rewrite lookup_insert_ne by done.
    by eapply lookup_weaken. }
  { eapply Forall2_impl; [exact Hshuf|]. intros l u [Hs Hne].
    pose proof (strings_at_dom _ _ _ Hs) as Hdom. split.
    - unfold strings_at, h4. rewrite lookup_insert_ne by done.
      by eapply lookup_weaken.
    - intros Hin. by destruct (Hg l Hin) as (_ & _ & _ & ?). }
  assert (h0 ⊆ h5) as Hsub5.
  { eapply only_changed_subseteq; [exact Hsub4|done|].
    intros g Hin. by destruct (Hg g Hin) as (_ & _ & ? & _). }
  destruct (pack apart shuffled (empty_groups finalGroupCount)) as [gs|].
  - destruct Hpack as [-> Hgs].
    assert (h5 !! tg = Some (Ref <$> groups)) as Htg.
    { rewrite Hch by done. unfold h4, h3.
      rewrite lookup_insert_ne by done. apply lookup_insert_eq. }
    rewrite bind_eq, (read_refs_at _ _ _ Htg). rewrite bind_eq.
    destruct (sort_each_spec h5 groups gs Hnd Hgs) as (h6 & -> & Hsorted & Hch6).
    rewrite bind_eq. unfold alloc, ret.
    set (r := fresh (dom h6)).
    assert (h0 ⊆ h6) as Hsub6.
    { eapply only_changed_subseteq; [exact Hsub5|done|].
      intros g Hin. by destruct (Hg g Hin) as (_ & _ & ? & _). }
    eexists r, _. split_and!; [done| |].
    + apply insert_new_subseteq; [done|]. by apply fresh_new.
    + unfold read_groups.
      rewrite bind_eq, (read_refs_at _ r groups) by apply lookup_insert_eq.
      apply read_each_at. eapply Forall2_impl; [exact Hsorted|].
      intros g members Hs. eapply strings_at_weaken; [done|].
      apply fresh_insert_subseteq.
  - rewrite Hpack. by apply IH.
Qed.

Lemma partition_store_spec :
  outcome_at h0
    (partition persons finalGroupCount apart together random)
    (partition_store people finalGroupCount apartConstraints
       togetherConstraints random h0).
Proof.
  unfold partition, partition_store.
  rewrite bind_eq, (read_at _ _ _ people_at). rewrite length_fmap.
  case_bool_decide as Hlen.
  { by exists h0. }
  rewrite bind_eq, (read_constraints_at _ _ _ apart_at).
  rewrite bind_eq, (read_constraints_at _ _ _ together_at).
  destruct (first_conflict apart together) as [[a b]|].
  { by exists h0. }
  by apply attempt_loop_store_spec.
Qed.

End refinement.

End store_facts.

(** ** The oracle *)

(** The outcome depends on the oracle through the calls that are made
    only. *)
Lemma attempt_loop_ext people finalGroupCount apartConstraints
  togetherConstraints random random' attempts calls result calls' :
  attempt_loop people finalGroupCount apartConstraints togetherConstraints
               random attempts calls = Some (result, calls') →
  calls ≤ calls' ∧
  ((∀ n, calls ≤ n < calls' → random' n = random n) →
   attempt_loop people finalGroupCount apartConstraints togetherConstraints
                random' attempts calls = Some (result, calls')).
Proof.
  revert calls. induction attempts as [|attempts IH]; intros calls; simpl.
  { intros [= <- <-]. done. }
  destruct (units people togetherConstraints) as [us|]; [|done].
  destruct (existsb (oversized people finalGroupCount) us).
  { intros [= <- <-]. done. }
  pose proof (shuffleArray_calls random us calls) as Hc.
  pose proof (shuffleArray_calls random' us calls) as Hc'.
  pose proof (shuffle_loop_ext random' random (length us) us calls) as Hext.
  fold (shuffleArray random' us calls) in Hext.
  fold (shuffleArray random us calls) in Hext.
  destruct (shuffleArray random us calls) as [shuffled c].
  simpl in Hc. subst c.
  destruct (pack apartConstraints shuffled (empty_groups finalGroupCount))
    as [gs|] eqn:Hpack.
  - intros [= <- <-]. split; [lia|]. intros Hagree.
    rewrite Hext by done. by rewrite Hpack.
  - intros [Hle Hrest]%IH. split; [lia|]. intros Hagree.
    rewrite Hext by (intros n Hn; apply Hagree; lia). rewrite Hpack.
    apply Hrest. intros n Hn. apply Hagree. lia.
Qed.

Lemma partition_ext people finalGroupCount apartConstraints
  togetherConstraints random random' result calls :
  partition people finalGroupCount apartConstraints togetherConstraints random
  = Some (result, calls) →
  (∀ n, n < calls → random' n = random n) →
  partition people finalGroupCount apartConstraints togetherConstraints random'
  = Some (result, calls).
Proof.
  unfold partition. case_bool_decide as Hlen; [done|].
  destruct (first_conflict apartConstraints togetherConstraints)
    as [[a b]|]; [done|].
  intros [_ Hrun]%(attempt_loop_ext _ _ _ _ _ random') Hagree.
  apply Hrun. intros n Hn. apply Hagree. lia.
Qed.

(** ** Apart-constraints across units *)

(** Two people of one group who are named by an apart-constraint were
    placed with one unit. *)
Lemma pack_apart apartConstraints (placed shuffledUnits : list (list string))
  (tempGroups tempGroups' : list (list string)) :
  pack apartConstraints shuffledUnits tempGroups = Some tempGroups' →
  (∀ g a b, g ∈ tempGroups → a ∈ g → b ∈ g →
     apart_linked apartConstraints a b →
     ∃ unit, unit ∈ placed ∧ a ∈ unit ∧ b ∈ unit) →
  ∀ g a b, g ∈ tempGroups' → a ∈ g → b ∈ g →
    apart_linked apartConstraints a b →
    ∃ unit, unit ∈ placed ++ shuffledUnits ∧ a ∈ unit ∧ b ∈ unit.
Proof.
  revert placed tempGroups.
  induction shuffledUnits as [|unit rest IH]; intros placed tempGroups; simpl.
  - intros [= ->] H. by rewrite app_nil_r.
  - pose proof (place_groupOrder apartConstraints tempGroups unit) as Hp.
    destruct (place apartConstraints (groupOrder tempGroups) tempGroups unit)
      as [tg|]; [|done].
    destruct Hp as (i & g0 & Hi & Hel & _ & ->).
    intros Hpack Hinv g a b Hg Ha Hb Hab.
    destruct (IH (placed ++ [unit]) _ Hpack) with (g := g) (a := a) (b := b)
      as (u & Hu & Hau & Hbu); try done.
    2:{ exists u. by rewrite <- (assoc_L (++)) in Hu. }
    clear g a b Hg Ha Hb Hab. intros g a b Hg Ha Hb Hab.
    apply list_elem_of_lookup in Hg as [j Hj].
    destruct (decide (i = j)) as [->|Hne].
    + rewrite list_lookup_insert_eq in Hj by (by eapply lookup_lt_Some).
      injection Hj as <-.
      assert (∀ x y, x ∈ g0 → y ∈ unit →
                apart_linked apartConstraints x y → False) as Hno.
      { intros x y Hx Hy (c & Hc & Hxc & Hyc).
        assert (groupHasApartPerson apartConstraints g0 unit = true)
          as Htrue; [|congruence].
        apply groupHasApartPerson_true. by exists x, y, c. }
      apply elem_of_app in Ha as [Ha|Ha]; apply elem_of_app in Hb as [Hb|Hb].
      * destruct (Hinv g0 a b) as (u & Hu & ? & ?); try done.
        { by eapply list_elem_of_lookup_2. }
        exists u. split_and!; [|done..]. apply elem_of_app. by left.
      * destruct (Hno a b Ha Hb Hab).
      * destruct (Hno b a Hb Ha). destruct Hab as (c & ? & ? & ?).
        by exists c.
      * exists unit. split_and!; [|done..]. apply elem_of_app. right. by left.
    + rewrite list_lookup_insert_ne in Hj by done.
      destruct (Hinv g a b) as (u & Hu & ? & ?); try done.
      { by eapply list_elem_of_lookup_2. }
      exists u. split_and!; [|done..]. apply elem_of_app. by left.
Qed.

(** What the packing does keep: in a run that resolves with groups, two
    people named by one apart-constraint share a group only if they are
    in one unit. *)
Lemma apart_across_units people finalGroupCount apartConstraints
  togetherConstraints random generatedGroups calls :
  partition people finalGroupCount apartConstraints togetherConstraints random
  = Some (Groups generatedGroups, calls) →
  ∃ shuffleUnits, units people togetherConstraints = Some shuffleUnits ∧
    ∀ g a b, g ∈ generatedGroups → a ∈ g → b ∈ g →
      apart_linked apartConstraints a b →
      ∃ unit, unit ∈ shuffleUnits ∧ a ∈ unit ∧ b ∈ unit.
Proof.
  intros (us & n & tg & Hu & _ & _ & _ & _ & Hpack & -> & _)%partition_Groups.
  exists us. split; [done|]. intros g a b Hg Ha Hb Hab.
  apply list_elem_of_fmap in Hg as (g' & -> & Hg').
  rewrite js_sort_perm in Ha, Hb.
  unfold attempt in Hpack.
  destruct (pack_apart apartConstraints [] _ _ _ Hpack) with g' a b
    as (u & Hu' & ? & ?); try done.
  - intros g0 a0 b0 Hg0 Ha0.
    apply elem_of_replicate in Hg0 as [-> _]. by apply not_elem_of_nil in Ha0.
  - exists u. split_and!; [|done..].
    simpl in Hu'. by rewrite shuffleArray_perm in Hu'.
Qed.

(** ** Units are the connected components of the together-graph *)

Section components.
Implicit Types parent : gmap string string.

Lemma same_roots_conn_inv parent parent' x y :
  wf parent → same_roots parent parent' →
  conn parent' x y → conn parent x y.
Proof.
  intros Hwf [Hdom Hfwd] (r & n & m & Hx & Hy).
  pose proof (reach_dom _ _ _ _ Hx) as Hxd.
  pose proof (reach_dom _ _ _ _ Hy) as Hyd.
  rewrite Hdom in Hxd, Hyd.
  destruct (Hwf x Hxd) as (nx & rx & Hrx).
  destruct (Hwf y Hyd) as (ny & ry & Hry).
  destruct (Hfwd _ _ _ Hrx) as [nx' Hrx'].
  destruct (Hfwd _ _ _ Hry) as [ny' Hry'].
  destruct (reach_fun _ _ _ _ _ _ Hx Hrx') as [_ <-].
  destruct (reach_fun _ _ _ _ _ _ Hy Hry') as [_ <-].
  by exists r, nx, ny.
Qed.

Lemma link_conn_inv parent rootI rootJ x y :
  wf parent →
  parent !! rootI = Some rootI → parent !! rootJ = Some rootJ →
  rootI ≠ rootJ →
  conn (<[rootJ := rootI]> parent) x y →
  conn parent x y ∨
  (conn parent x rootI ∧ conn parent y rootJ) ∨
  (conn parent x rootJ ∧ conn parent y rootI).
Proof.
  intros Hwf Hi Hj Hne (r & n & m & Hx & Hy).
  assert (dom (<[rootJ := rootI]> parent) = dom parent) as Hdom.
  { apply dom_insert_lookup_L. by eexists. }
  pose proof (reach_dom _ _ _ _ Hx) as Hxd.
  pose proof (reach_dom _ _ _ _ Hy) as Hyd.
  rewrite Hdom in Hxd, Hyd.
  destruct (Hwf x Hxd) as (nx & rx & Hrx).
  destruct (Hwf y Hyd) as (ny & ry & Hry).
  destruct (link_reach _ _ _ _ _ _ Hi Hj Hne Hrx) as [nx' Hrx'].
  destruct (link_reach _ _ _ _ _ _ Hi Hj Hne Hry) as [ny' Hry'].
  destruct (reach_fun _ _ _ _ _ _ Hx Hrx') as [_ Hr].
  destruct (reach_fun _ _ _ _ _ _ Hy Hry') as [_ Hr'].
  assert (reach parent 0 rootI rootI) as HI by by constructor.
  assert (reach parent 0 rootJ rootJ) as HJ by by constructor.
  destruct (decide (rx = rootJ)) as [Hx1|Hx1],
           (decide (ry = rootJ)) as [Hy1|Hy1].
  - left. rewrite Hx1 in Hrx. rewrite Hy1 in Hry. by exists rootJ, nx, ny.
  - right. right. assert (ry = rootI) as Hy2 by congruence.
    rewrite Hx1 in Hrx. rewrite Hy2 in Hry.
    split; [by exists rootJ, nx, 0|by exists rootI, ny, 0].
  - right. left. assert (rx = rootI) as Hx2 by congruence.
    rewrite Hx2 in Hrx. rewrite Hy1 in Hry.
    split; [by exists rootI, nx, 0|by exists rootJ, ny, 0].
  - left. assert (rx = ry) as Hxy by congruence.
    rewrite Hxy in Hrx. by exists ry, nx, ny.
Qed.

Lemma union_within (R : relation string) `{!Equivalence R} parent parent' i j :
  wf parent → i ∈ dom parent → j ∈ dom parent →
  union parent (Some i) (Some j) = Some parent' →
  within R parent → R i j → within R parent'.
Proof.
  intros Hwf Hi Hj Hunion HR Hij. unfold union in Hunion.
  destruct (find_total parent i Hwf Hi) as (p1 & ri & Hf1 & Hs1 & ni & Hri).
  rewrite Hf1 in Hunion.
  pose proof (same_roots_wf _ _ Hs1 Hwf) as Hwf1.
  destruct (find_total p1 j Hwf1) as (p2 & rj & Hf2 & Hs2 & nj & Hrj).
  { by rewrite (proj1 Hs1). }
  rewrite Hf2 in Hunion. injection Hunion as <-.
  pose proof (same_roots_wf _ _ Hs2 Hwf1) as Hwf2.
  pose proof (same_roots_trans _ _ _ Hs1 Hs2) as Hs.
  destruct (proj2 Hs _ _ _ Hri) as [ni' Hri'].
  destruct (proj2 Hs2 _ _ _ Hrj) as [nj' Hrj'].
  assert (within R p2) as HR2.
  { intros x y Hxy. apply HR. by eapply same_roots_conn_inv. }
  case_decide as Hne; [done|]. simpl.
  assert (ri ≠ rj) as Hne' by congruence.
  pose proof (reach_is_root _ _ _ _ Hri') as Hi2.
  pose proof (reach_is_root _ _ _ _ Hrj') as Hj2.
  assert (conn p2 i ri) as Hci by by exists ri, ni', 0; split; [|constructor].
  assert (conn p2 j rj) as Hcj by by exists rj, nj', 0; split; [|constructor].
  intros x y [Hxy|[[Hx Hy]|[Hx Hy]]]%link_conn_inv; try done.
  - by apply HR2.
  - trans i; [apply HR2; eapply conn_trans; [done|by apply conn_sym]|].
    trans j; [done|]. apply HR2. by eapply conn_trans; [|apply conn_sym].
  - trans j; [apply HR2; eapply conn_trans; [done|by apply conn_sym]|].
    trans i; [done|]. apply HR2. by eapply conn_trans; [|apply conn_sym].
Qed.

Lemma union_consecutive_within (R : relation string) `{!Equivalence R}
  parent parent' members :
  wf parent → (∀ x, x ∈ members → x ∈ dom parent) →
  union_consecutive parent members = Some parent' →
  within R parent → (∀ a b, next_in members a b → R a b) →
  within R parent'.
Proof.
  revert parent.
  induction members as [|a [|b rest] IH]; intros parent Hwf Hm Hu HR Hnext.
  - by injection Hu as <-.
  - by injection Hu as <-.
  - rewrite union_consecutive_cons in Hu.
    destruct (union_total parent a b Hwf) as (p1 & Hu1 & Hg1 & _);
      [apply Hm; set_solver..|].
    rewrite Hu1 in Hu. apply (IH p1); try done.
    + apply Hg1.
    + intros x Hx. rewrite (proj1 Hg1). apply Hm. by right.
    + eapply (union_within R parent p1 a b); try done.
      * apply Hm. by left.
      * apply Hm. right. by left.
      * apply Hnext. by exists 0.
    + intros x y [i [Hi Hi']]. apply Hnext. by exists (S i).
Qed.

Lemma union_all_within (R : relation string) `{!Equivalence R}
  parent parent' togetherConstraints :
  wf parent →
  (∀ c x, c ∈ togetherConstraints → x ∈ types.people c → x ∈ dom parent) →
  union_all parent togetherConstraints = Some parent' →
  within R parent →
  (∀ a b, adjacent togetherConstraints a b → R a b) →
  within R parent'.
Proof.
  revert parent.
  induction togetherConstraints as [|c rest IH]; intros parent Hwf Hm Hu HR Hadj.
  - by injection Hu as <-.
  - simpl in Hu.
    destruct (union_consecutive_total parent (types.people c) Hwf)
      as (p1 & Hu1 & Hg1 & _).
    { intros x Hx. apply (Hm c); [by left|done]. }
    rewrite Hu1 in Hu. apply (IH p1); try done.
    + apply Hg1.
    + intros c' x Hc' Hx. rewrite (proj1 Hg1). apply (Hm c'); [by right|done].
    + eapply (union_consecutive_within R parent p1); try done.
      * intros x Hx. apply (Hm c); [by left|done].
      * intros a b Hab. apply Hadj. exists c. split; [by left|done].
    + intros a b (c' & Hc' & Hab). apply Hadj. exists c'. split; [by right|done].
Qed.

Lemma init_parent_within (R : relation string) `{!Reflexive R} people :
  within R (init_parent people).
Proof.
  assert (∀ n x r, reach (init_parent people) n x r → r = x) as Hroot.
  { intros n x r [x' Hx|n' x' y r' Hx Hne _]; [done|].
    rewrite init_parent_lookup in Hx. case_decide; congruence. }
  intros x y (r & n & m & Hx%Hroot & Hy%Hroot). by subst.
Qed.

Lemma next_in_elem members a b : next_in members a b → a ∈ members ∧ b ∈ members.
Proof. intros (i & Hi & Hi'). split; by eapply list_elem_of_lookup_2. Qed.

(** The units of well-formed input are the connected components of the
    together-graph on the people. *)
Lemma units_components (people : list string)
  (togetherConstraints : list types.Constraint) shuffleUnits :
  drawn_from people togetherConstraints →
  units people togetherConstraints = Some shuffleUnits →
  ∀ a b, a ∈ people → b ∈ people →
    (∃ unit, unit ∈ shuffleUnits ∧ a ∈ unit ∧ b ∈ unit) ↔
    linked togetherConstraints a b.
Proof.
  intros Hdrawn Hunits.
  assert (∀ c x, c ∈ togetherConstraints → x ∈ types.people c →
                 x ∈ dom (init_parent people)) as Hm.
  { intros c x Hc Hx. apply init_parent_dom. by eapply drawn_from_elem. }
  destruct (union_all_total (init_parent people) togetherConstraints)
    as (parent0 & Hu & (Hdom & Hwf & _) & Hconn);
    [apply init_parent_wf|done|].
  assert (within (linked togetherConstraints) parent0) as Hwithin.
  { eapply (union_all_within _ (init_parent people)); try done.
    - apply init_parent_wf.
    - apply init_parent_within. apply _.
    - intros a b. apply rtsc_lr. }
  destruct (units_unfold people togetherConstraints parent0 Hu Hdom Hwf)
    as [(cliques & Hu' & (Hnd & Hperm & Hall) & _)| [Hnone _]]; [|congruence].
  rewrite Hunits in Hu'. injection Hu' as ->.
  pose proof (Object_values_perm cliques) as HOV.
  rewrite Forall_forall in Hall.
  assert (∀ x, x ∈ people → ∃ k ms n,
    (k, ms) ∈ cliques ∧ x ∈ ms ∧ reach parent0 n x k) as Hfiled.
  { intros x Hx. rewrite <- Hperm in Hx.
    apply elem_of_concat in Hx as (ms & Hms & Hx).
    apply list_elem_of_fmap in Hms as ([k ms'] & -> & Hkv).
    destruct (Hall _ Hkv) as [_ Hroot]. destruct (Hroot x Hx) as [n Hn].
    by exists k, ms', n. }
  intros a b Ha Hb. split.
  - intros (unit & Hunit & Hau & Hbu). apply Hwithin.
    rewrite HOV in Hunit.
    apply list_elem_of_fmap in Hunit as ([k ms] & -> & Hkv).
    destruct (Hall _ Hkv) as [_ Hroot].
    destruct (Hroot a Hau) as [n Hn]. destruct (Hroot b Hbu) as [m Hm'].
    by exists k, n, m.
  - intros Hlinked.
    assert (conn parent0 a b) as (r & n & m & Hra' & Hrb').
    { clear Hb. induction Hlinked as [a|a y b Hay _ IH].
      - apply conn_refl; [done|]. rewrite Hdom. by apply init_parent_dom.
      - assert (∃ c, c ∈ togetherConstraints ∧
                     a ∈ types.people c ∧ y ∈ types.people c)
          as (c & Hc & Hac & Hyc).
        { destruct Hay as [(c & Hc & [? ?]%next_in_elem)
                          |(c & Hc & [? ?]%next_in_elem)]; by exists c. }
        eapply conn_trans; [by eapply Hconn|]. apply IH.
        by eapply drawn_from_elem. }
    destruct (Hfiled a Ha) as (ka & msa & na & Hina & Ha' & Hra).
    destruct (Hfiled b Hb) as (kb & msb & nb & Hinb & Hb' & Hrb).
    destruct (reach_fun _ _ _ _ _ _ Hra Hra') as [_ ->].
    destruct (reach_fun _ _ _ _ _ _ Hrb Hrb') as [_ ->].
    rewrite (NoDup_fst_fun _ _ _ _ Hnd Hinb Hina) in Hb'.
    exists msa. split_and!; [|done..].
    rewrite HOV. by apply (list_elem_of_fmap_2 snd _ (r, msa)).
Qed.

End components.

Lemma string_leb_trans (a b c : string) :
  String.leb a b = true → String.leb b c = true → String.leb a c = true.
Proof.
  unfold String.leb. revert b c.
  induction a as [|c1 a IH]; intros [|c2 b] [|c3 c]; simpl; try done.
  unfold Ascii.compare.
  destruct (N.compare_spec (N_of_ascii c1) (N_of_ascii c2)),
           (N.compare_spec (N_of_ascii c2) (N_of_ascii c3)),
           (N.compare_spec (N_of_ascii c1) (N_of_ascii c3));
    try done; try lia; apply IH.
Qed.

Lemma js_sort_strings_sorted (l : list string) :
  StronglySorted (λ a b, String.leb a b = true) (js_sort String.leb l).
Proof.
  apply Sorted_StronglySorted.
  - intros a b c. apply string_leb_trans.
  - apply js_sort_sorted, string_leb_total.
Qed.

(** * The claims *)



(** C2 does not hold.  [first_conflict] compares one apart-constraint
    with one together-constraint at a time, so A and C, joined through
    B by two together-constraints and named by an apart-constraint,
    pass it; and since line 228 only compares a unit with the people
    already in a group, their unit is placed whole.  Every run on this
    input resolves with groups, and A and C share one of them.  (Across
    units the apart-constraints are kept: [apart_across_units].) *)
Theorem apart_inside_unit :
  let people := ["A"; "B"; "C"; "D"; "E"]%string in
  let apartConstraints := [types.Build_Constraint ["A"; "C"]%string] in
  let togetherConstraints :=
    [types.Build_Constraint ["A"; "B"]%string;
     types.Build_Constraint ["B"; "C"]%string] in
  NoDup people ∧ drawn_from people apartConstraints ∧
  drawn_from people togetherConstraints ∧
  ∀ random, ∃ generatedGroups calls,
    partition people 2 apartConstraints togetherConstraints random
    = Some (Groups generatedGroups, calls) ∧
    Exists (λ g, "A"%string ∈ g ∧ "C"%string ∈ g) generatedGroups.
Proof.
  intros people apartConstraints togetherConstraints.
  assert (units people togetherConstraints
          = Some [["A"; "B"; "C"]; ["D"]; ["E"]]%string) as Hu
    by (vm_compute; reflexivity).
  split_and!; [by_evaluation..|].
  intros random. unfold partition.
  rewrite bool_decide_eq_false_2 by (simpl; lia).
  replace (first_conflict apartConstraints togetherConstraints)
    with (@None (string * string)) by (vm_compute; reflexivity).
  rewrite (attempt_loop_step _ _ _ _ _ _ _ _ Hu) by (vm_compute; reflexivity).
  unfold attempt, shuffleArray. cbn [length shuffle_loop].
  rewrite Nat.mod_1_r.
  pose proof (Nat.mod_upper_bound (random 0) 3) as Hlt0.
  pose proof (Nat.mod_upper_bound (random 1) 2) as Hlt1.
  destruct (random 0 `mod` 3) as [|[|[|r]]]; [| | |lia];
    (destruct (random 1 `mod` 2) as [|[|r']]; [| |lia]);
    (eexists _, _; split; [vm_compute; reflexivity|by_evaluation]).
Qed.

(** C3.  On a duplicate-free list of people, none of them named
    [__proto__] (the one name under which [parent[p] = p] stores
    nothing), and together-constraints that name people of the list, in
    a run that resolves with groups
    any two members of a together-constraint are in one group, and a
    group that has one of them has the other.  The same holds of the
    units: every unit is inside one group, and a group that has one
    member of a unit has the whole unit.  The units are the connected
    components of the together-graph, whose edges join the consecutive
    members of each together-constraint: two people are in one unit
    exactly when the graph links them. *)
Theorem together_invariant people finalGroupCount apartConstraints
  togetherConstraints random generatedGroups calls :
  NoDup people →
  "__proto__"%string ∉ people →
  drawn_from people togetherConstraints →
  partition people finalGroupCount apartConstraints togetherConstraints random
  = Some (Groups generatedGroups, calls) →
  (∀ c a b, c ∈ togetherConstraints →
     a ∈ types.people c → b ∈ types.people c →
     (∃ g, g ∈ generatedGroups ∧ a ∈ g ∧ b ∈ g) ∧
     (∀ g, g ∈ generatedGroups → a ∈ g → b ∈ g)) ∧
  (∃ shuffleUnits, units people togetherConstraints = Some shuffleUnits ∧
     (∀ unit, unit ∈ shuffleUnits →
        (∃ g, g ∈ generatedGroups ∧ unit ⊆ g) ∧
        (∀ a b g, a ∈ unit → b ∈ unit →
                  g ∈ generatedGroups → a ∈ g → b ∈ g)) ∧
     (∀ a b, a ∈ people → b ∈ people →
        (∃ unit, unit ∈ shuffleUnits ∧ a ∈ unit ∧ b ∈ unit) ↔
        linked togetherConstraints a b)).
Proof.
  intros Hnd _ Hdrawn Hrun.
  destruct (partition_Groups_inv _ _ _ _ _ _ _ Hdrawn Hrun)
    as (us & Hu & Hlen & Hperm & Hwhole & Htog).
  assert (∀ unit a b g, unit ∈ us → a ∈ unit → b ∈ unit →
            g ∈ generatedGroups → a ∈ g → b ∈ g) as Hsplit.
  { intros unit a b g Hunit Ha Hb Hg Hag.
    destruct (Hwhole unit Hunit) as (_ & g' & Hg' & Hsub).
    apply list_elem_of_lookup in Hg as [i Hi].
    apply list_elem_of_lookup in Hg' as [j Hj].
    rewrite <- Hperm in Hnd.
    assert (i = j) as ->.
    { apply (NoDup_concat_index generatedGroups i j g g' a); auto. }
    assert (g = g') as -> by congruence. by apply Hsub. }
  split.
  - intros c a b Hc Ha Hb.
    destruct (Htog c a b Hc Ha Hb) as (unit & Hunit & Hau & Hbu).
    split.
    + destruct (Hwhole unit Hunit) as (_ & g & Hg & Hsub). exists g. auto.
    + intros g. by apply (Hsplit unit).
  - exists us. split_and!; [done| |].
    + intros unit Hunit. split.
      * by apply Hwhole.
      * intros a b g. by apply Hsplit.
    + by apply units_components.
Qed.

(** Scenario A: A and B are named by a together-constraint. *)
Lemma together_invariant_scenario_A :
  let generatedGroups := [["A"; "B"; "C"]; ["D"]]%string in
  let togetherConstraints := [types.Build_Constraint ["A"; "B"]%string] in
  let people := ["A"; "B"; "C"; "D"]%string in
  (∀ c a b, c ∈ togetherConstraints →
     a ∈ types.people c → b ∈ types.people c →
     (∃ g, g ∈ generatedGroups ∧ a ∈ g ∧ b ∈ g) ∧
     (∀ g, g ∈ generatedGroups → a ∈ g → b ∈ g)) ∧
  (∃ shuffleUnits, units people togetherConstraints = Some shuffleUnits ∧
     (∀ unit, unit ∈ shuffleUnits →
        (∃ g, g ∈ generatedGroups ∧ unit ⊆ g) ∧
        (∀ a b g, a ∈ unit → b ∈ unit →
                  g ∈ generatedGroups → a ∈ g → b ∈ g)) ∧
     (∀ a b, a ∈ people → b ∈ people →
        (∃ unit, unit ∈ shuffleUnits ∧ a ∈ unit ∧ b ∈ unit) ↔
        linked togetherConstraints a b)).
Proof.
  apply (together_invariant ["A"; "B"; "C"; "D"]%string 2 []
           [types.Build_Constraint ["A"; "B"]%string] (λ _, 0) _ 3).
  - by_evaluation.
  - by_evaluation.
  - by_evaluation.
  - vm_compute. reflexivity.
Defined.

(** C4.  One packing attempt takes the units in the order of the
    shuffled list.  For each unit the groups are tried from the one with
    the fewest people to the one with the most, groups of one size by
    ascending index.  A group is eligible exactly when no apart-constraint
    names one of its people and one person of the unit.  The unit goes to
    the first eligible group, and to no other; with no eligible group
    the attempt fails. *)
Theorem greedy_placement (apartConstraints : list types.Constraint) :
  (∀ unit rest tempGroups,
     pack apartConstraints (unit :: rest) tempGroups
     = match place apartConstraints (groupOrder tempGroups) tempGroups unit with
       | Some tempGroups' => pack apartConstraints rest tempGroups'
       | None => None
       end) ∧
  (∀ group unit,
     groupHasApartPerson apartConstraints group unit = false ↔
     ¬ ∃ personInGroup personInUnit c,
         personInGroup ∈ group ∧ personInUnit ∈ unit ∧
         c ∈ apartConstraints ∧
         personInGroup ∈ types.people c ∧ personInUnit ∈ types.people c) ∧
  (∀ tempGroups unit,
     match place apartConstraints (groupOrder tempGroups) tempGroups unit with
     | Some tempGroups' =>
         ∃ i g, tempGroups !! i = Some g ∧
           groupHasApartPerson apartConstraints g unit = false ∧
           (∀ j g', tempGroups !! j = Some g' →
              length g' < length g ∨ (length g' = length g ∧ j < i) →
              groupHasApartPerson apartConstraints g' unit = true) ∧
           tempGroups' = <[i := g ++ unit]> tempGroups
     | None =>
         ∀ j g', tempGroups !! j = Some g' →
                 groupHasApartPerson apartConstraints g' unit = true
     end).
Proof.
  split_and!.
  - done.
  - intros group unit. rewrite <- groupHasApartPerson_true.
    by destruct (groupHasApartPerson apartConstraints group unit).
  - intros tempGroups unit. apply place_groupOrder.
Qed.

(** C5.  The run does not end on every input.  Let one of the people
    be named after a property of [Object.prototype] other than
    [__proto__] ([constructor], [toString], [valueOf], ...), let there
    be no together-constraints and at least as many people as groups.
    Then that person is a root, [cliques[root]] is the inherited
    function, no array is made, and [cliques[root].push(p)] throws a
    TypeError in the first attempt, whatever the apart-constraints and
    the oracle.  The exception leaves the callback of [setTimeout]:
    [resolve] is never called, the promise of line 184 is never
    settled, and no error is reported. *)
Theorem partition_throws people finalGroupCount apartConstraints random p :
  p ∈ people → p ∈ Object_prototype_names → p ≠ "__proto__"%string →
  (finalGroupCount ≤ Z.of_nat (length people))%Z →
  partition people finalGroupCount apartConstraints [] random = None.
Proof.
  intros Hp Hnames _ Hlen. unfold partition.
  rewrite bool_decide_eq_false_2 by lia.
  rewrite first_conflict_no_together. cbn [attempt_loop].
  by rewrite (units_throws people p).
Qed.

(** Two people, one of them named [constructor], two groups. *)
Lemma partition_throws_constructor :
  partition ["constructor"; "A"]%string 2 [] [] (λ n, n) = None.
Proof.
  apply (partition_throws ["constructor"; "A"]%string 2 [] (λ n, n)
           "constructor"%string).
  - by_evaluation.
  - by_evaluation.
  - done.
  - simpl. lia.
Defined.

(** The claim that the run fails with [errorCliqueSize] exactly when a
    unit is larger than the ceiling does not hold as it stands.
    - A list with too few people is rejected first.  Two people who
      stay together, three groups: the unit has 2 > ceil(2 / 3) = 1
      members, and the run fails with [errorMorePeople].
    - A conflict is reported first.  Three people who stay together,
      two of them also kept apart, two groups: the unit has
      3 > ceil(3 / 2) = 2 members, and the run fails with
      [errorConflict].
    - A unit whose root is named after a property of
      [Object.prototype] is never measured.  Three people who stay
      together, the first of them named [constructor], two groups: the
      together-graph links all three, 3 > ceil(3 / 2) = 2, and line 209
      throws before line 213 is reached: nothing is reported. *)
Lemma oversized_not_reported :
  (let people := ["A"; "B"]%string in
   let togetherConstraints := [types.Build_Constraint ["A"; "B"]%string] in
   ¬ ((∃ calls, partition people 3 [] togetherConstraints (λ n, n)
                = Some (Failure errorCliqueSize, calls)) ↔
      (∃ shuffleUnits unit,
         units people togetherConstraints = Some shuffleUnits ∧
         unit ∈ shuffleUnits ∧
         (ceil_div (Z.of_nat (length people)) 3
          < Z.of_nat (length unit))%Z))) ∧
  (let people := ["A"; "B"; "C"]%string in
   let apartConstraints := [types.Build_Constraint ["A"; "B"]%string] in
   let togetherConstraints :=
     [types.Build_Constraint ["A"; "B"; "C"]%string] in
   ¬ ((∃ calls, partition people 2 apartConstraints togetherConstraints
                          (λ n, n)
                = Some (Failure errorCliqueSize, calls)) ↔
      (∃ shuffleUnits unit,
         units people togetherConstraints = Some shuffleUnits ∧
         unit ∈ shuffleUnits ∧
         (ceil_div (Z.of_nat (length people)) 2
          < Z.of_nat (length unit))%Z))) ∧
  (let people := ["constructor"; "A"; "B"]%string in
   let togetherConstraints :=
     [types.Build_Constraint ["constructor"; "A"; "B"]%string] in
   Forall (λ a, Forall (λ b, linked togetherConstraints a b) people) people ∧
   (ceil_div (Z.of_nat (length people)) 2 < Z.of_nat (length people))%Z ∧
   partition people 2 [] togetherConstraints (λ n, n) = None).
Proof.
  split_and!.
  - intros people togetherConstraints [_ H].
    destruct H as (calls & H); [|done].
    exists [["A"; "B"]%string], ["A"; "B"]%string.
    split_and!; [done|by left|]. vm_compute. done.
  - intros people apartConstraints togetherConstraints [_ H].
    destruct H as (calls & H); [|done].
    exists [["A"; "B"; "C"]%string], ["A"; "B"; "C"]%string.
    split_and!; [done|by left|]. vm_compute. done.
  - intros people togetherConstraints. split_and!; [|done|done].
    assert (linked togetherConstraints "constructor" "A") as Hca.
    { apply rtsc_lr. eexists. split; [by left|]. by exists 0. }
    assert (linked togetherConstraints "A" "B") as Hab.
    { apply rtsc_lr. eexists. split; [by left|]. by exists 1. }
    unfold linked in *.
    repeat constructor;
      first [reflexivity | done | by symmetry | by etransitivity
            | symmetry; by etransitivity].
Qed.

(** C6 (amended).  On people none of whom is named after a property
    of [Object.prototype] and together-constraints that name people of
    the list, with at least two groups asked for, at least as many
    people as groups and no conflict between an apart- and a
    together-constraint, the run fails with [errorCliqueSize]
    ([OversizedClique]) exactly when some unit has more than
    ceil(people.length / finalGroupCount) members.  The failure is
    reported before any call to [Math.random] and is the same for every
    oracle. *)
Theorem oversized_detection people finalGroupCount apartConstraints
  togetherConstraints :
  ordinary people →
  drawn_from people togetherConstraints →
  (2 ≤ finalGroupCount)%Z →
  (finalGroupCount ≤ Z.of_nat (length people))%Z →
  first_conflict apartConstraints togetherConstraints = None →
  ∃ shuffleUnits, units people togetherConstraints = Some shuffleUnits ∧
    ((∃ unit, unit ∈ shuffleUnits ∧
        (ceil_div (Z.of_nat (length people)) finalGroupCount
         < Z.of_nat (length unit))%Z) →
     ∀ random,
       partition people finalGroupCount apartConstraints togetherConstraints
                 random = Some (Failure errorCliqueSize, 0)) ∧
    ((¬ ∃ unit, unit ∈ shuffleUnits ∧
        (ceil_div (Z.of_nat (length people)) finalGroupCount
         < Z.of_nat (length unit))%Z) →
     ∀ random calls,
       partition people finalGroupCount apartConstraints togetherConstraints
                 random ≠ Some (Failure errorCliqueSize, calls)).
Proof.
  intros Hord Hdrawn Hk Hlen Hc.
  destruct (units_total people togetherConstraints) as (us & Hu & _);
    [done| |].
  { intros c x. by apply drawn_from_elem. }
  exists us. split; [done|].
  assert (existsb (oversized people finalGroupCount) us = true ↔
          ∃ unit, unit ∈ us ∧
            (ceil_div (Z.of_nat (length people)) finalGroupCount
             < Z.of_nat (length unit))%Z) as Hover.
  { rewrite existsb_exists.
    split; intros (unit & Hunit & H); exists unit.
    - apply list_elem_of_In in Hunit. apply oversized_true in H; [done|lia].
    - split; [by apply list_elem_of_In|apply oversized_true; [lia|done]]. }
  unfold partition. rewrite bool_decide_eq_false_2 by lia. rewrite Hc.
  split.
  - intros Ho%Hover random.
    by apply (attempt_loop_oversized _ _ _ _ _ us).
  - intros Hno random calls.
    destruct (existsb (oversized people finalGroupCount) us) eqn:Ho.
    { destruct Hno. by apply Hover. }
    destruct (attempt_loop_cases people finalGroupCount apartConstraints
                togetherConstraints random us 50 0 Hu Ho)
      as [(n & tg & _ & _ & _ & ->)|[_ ->]]; done.
Qed.

(** Scenario D of the specification: three people who stay together,
    two groups. *)
Lemma oversized_detection_scenario_D :
  let people := ["A"; "B"; "C"]%string in
  let togetherConstraints := [types.Build_Constraint ["A"; "B"; "C"]%string] in
  ∃ shuffleUnits, units people togetherConstraints = Some shuffleUnits ∧
    ((∃ unit, unit ∈ shuffleUnits ∧
        (ceil_div (Z.of_nat (length people)) 2 < Z.of_nat (length unit))%Z) →
     ∀ random,
       partition people 2 [] togetherConstraints random
       = Some (Failure errorCliqueSize, 0)) ∧
    ((¬ ∃ unit, unit ∈ shuffleUnits ∧
        (ceil_div (Z.of_nat (length people)) 2 < Z.of_nat (length unit))%Z) →
     ∀ random calls,
       partition people 2 [] togetherConstraints random
       ≠ Some (Failure errorCliqueSize, calls)).
Proof.
  apply (oversized_detection ["A"; "B"; "C"]%string 2 []
           [types.Build_Constraint ["A"; "B"; "C"]%string]).
  - by_evaluation.
  - by_evaluation.
  - lia.
  - simpl. lia.
  - reflexivity.
Defined.

Example scenario_D random :
  partition ["A"; "B"; "C"]%string 2 []
    [types.Build_Constraint ["A"; "B"; "C"]%string] random
  = Some (Failure errorCliqueSize, 0).
Proof. vm_compute. reflexivity. Qed.

(** The claim that a conflict is reported exactly when two constraints
    share two people does not hold of a list with too few people, which
    is rejected first.  Two people, three groups, and one pair both
    together and apart: *)
Lemma conflict_after_count :
  let people := ["A"; "B"]%string in
  let apartConstraints := [types.Build_Constraint ["A"; "B"]%string] in
  let togetherConstraints := [types.Build_Constraint ["A"; "B"]%string] in
  ¬ ((∃ conflicted0 conflicted1 calls,
        partition people 3 apartConstraints togetherConstraints (λ n, n)
        = Some (Failure (errorConflict conflicted0 conflicted1), calls)) ↔
     (∃ apart together, apart ∈ apartConstraints ∧
        together ∈ togetherConstraints ∧ 2 ≤ length (common apart together))).
Proof.
  intros people apartConstraints togetherConstraints [_ H].
  destruct H as (a & b & calls & H); [|done].
  exists (types.Build_Constraint ["A"; "B"]%string),
         (types.Build_Constraint ["A"; "B"]%string).
  split_and!; [by left|by left|]. vm_compute. lia.
Qed.

(** C7 (amended).  When there are at least as many people as groups
    asked for, the run fails with [errorConflict]
    ([ConflictingConstraint]) exactly when some apart-constraint and
    some together-constraint share at least two people.  The pairs are
    visited apart-constraint by apart-constraint, and for each of them
    together-constraint by together-constraint; the first pair that
    shares two people or more is reported, with the first two names they
    share in the order of the apart-constraint.  The failure is
    reported before any call to [Math.random] and is the same for every
    oracle. *)
Theorem conflict_detection people finalGroupCount apartConstraints
  togetherConstraints :
  (finalGroupCount ≤ Z.of_nat (length people))%Z →
  ((∃ apart together, apart ∈ apartConstraints ∧
      together ∈ togetherConstraints ∧ 2 ≤ length (common apart together)) →
   ∃ i j apart together conflicted0 conflicted1 rest,
     apartConstraints !! i = Some apart ∧
     togetherConstraints !! j = Some together ∧
     common apart together = conflicted0 :: conflicted1 :: rest ∧
     (∀ i' j' apart' together',
        apartConstraints !! i' = Some apart' →
        togetherConstraints !! j' = Some together' →
        i' < i ∨ (i' = i ∧ j' < j) →
        length (common apart' together') < 2) ∧
     ∀ random,
       partition people finalGroupCount apartConstraints togetherConstraints
                 random
       = Some (Failure (errorConflict conflicted0 conflicted1), 0)) ∧
  ((¬ ∃ apart together, apart ∈ apartConstraints ∧
        together ∈ togetherConstraints ∧ 2 ≤ length (common apart together)) →
   ∀ random conflicted0 conflicted1 calls,
     partition people finalGroupCount apartConstraints togetherConstraints
               random
     ≠ Some (Failure (errorConflict conflicted0 conflicted1), calls)).
Proof.
  intros Hlen.
  pose proof (first_conflict_spec apartConstraints togetherConstraints) as Hfc.
  unfold partition. rewrite bool_decide_eq_false_2 by lia.
  destruct (first_conflict apartConstraints togetherConstraints)
    as [[a b]|]; split.
  - intros _. destruct Hfc as (i & j & ac & tc & Hi & Hj & Hc & Hbefore).
    rewrite conflict_common in Hc.
    destruct (common ac tc) as [|a' [|b' rest]] eqn:E; simplify_eq.
    exists i, j, ac, tc, a, b, rest. split_and!; try done.
    intros i' j' ac' tc' Hi' Hj' Hlt. apply conflict_None. by eapply Hbefore.
  - intros Hno. destruct Hno.
    destruct Hfc as (i & j & ac & tc & Hi & Hj & Hc & _).
    exists ac, tc. split_and!; [by eapply list_elem_of_lookup_2..|].
    destruct (decide (2 ≤ length (common ac tc))) as [|Hn]; [done|].
    assert (conflict ac tc = None) by (apply conflict_None; lia). congruence.
  - intros (ac & tc & Hac & Htc & Htwo).
    specialize (Hfc ac tc Hac Htc). apply conflict_None in Hfc. lia.
  - intros _ random a b calls H.
    apply attempt_loop_Failure in H as [?|?]; done.
Qed.

(** Scenario C of the specification. *)
Lemma conflict_detection_scenario_C :
  let people := ["A"; "B"; "C"]%string in
  let apartConstraints := [types.Build_Constraint ["A"; "B"]%string] in
  let togetherConstraints := [types.Build_Constraint ["A"; "B"]%string] in
  ((∃ apart together, apart ∈ apartConstraints ∧
      together ∈ togetherConstraints ∧ 2 ≤ length (common apart together)) →
   ∃ i j apart together conflicted0 conflicted1 rest,
     apartConstraints !! i = Some apart ∧
     togetherConstraints !! j = Some together ∧
     common apart together = conflicted0 :: conflicted1 :: rest ∧
     (∀ i' j' apart' together',
        apartConstraints !! i' = Some apart' →
        togetherConstraints !! j' = Some together' →
        i' < i ∨ (i' = i ∧ j' < j) →
        length (common apart' together') < 2) ∧
     ∀ random,
       partition people 2 apartConstraints togetherConstraints random
       = Some (Failure (errorConflict conflicted0 conflicted1), 0)) ∧
  ((¬ ∃ apart together, apart ∈ apartConstraints ∧
        together ∈ togetherConstraints ∧ 2 ≤ length (common apart together)) →
   ∀ random conflicted0 conflicted1 calls,
     partition people 2 apartConstraints togetherConstraints random
     ≠ Some (Failure (errorConflict conflicted0 conflicted1), calls)).
Proof.
  apply (conflict_detection ["A"; "B"; "C"]%string 2
           [types.Build_Constraint ["A"; "B"]%string]
           [types.Build_Constraint ["A"; "B"]%string]).
  simpl. lia.
Defined.

Example scenario_C random :
  partition ["A"; "B"; "C"]%string 2
    [types.Build_Constraint ["A"; "B"]%string]
    [types.Build_Constraint ["A"; "B"]%string] random
  = Some (Failure (errorConflict "A" "B"), 0).
Proof. reflexivity. Qed.

(** C8.  With fewer people than groups asked for, the run fails with
    [errorMorePeople] ([InsufficientPeople]) before any call to
    [Math.random], whatever the constraints and the oracle. *)
Theorem insufficient_people people finalGroupCount apartConstraints
  togetherConstraints random :
  (Z.of_nat (length people) < finalGroupCount)%Z →
  partition people finalGroupCount apartConstraints togetherConstraints random
  = Some (Failure errorMorePeople, 0).
Proof. intros H. unfold partition. by rewrite bool_decide_eq_true_2. Qed.

(** Scenario E: one person, two groups. *)
Lemma insufficient_people_scenario_E :
  partition ["A"]%string 2 [] [] (λ n, n) = Some (Failure errorMorePeople, 0).
Proof. apply (insufficient_people ["A"]%string 2). simpl. lia. Defined.



Example scenario_A_on_store :
  ∃ sortedGroups h',
    partition_store 0 2 1 2 (λ _, 0) scenario_A_store
    = Some (Groups_store sortedGroups, 3, h') ∧
    read_groups sortedGroups h'
    = Some ([["A"; "B"; "C"]; ["D"]]%string, h').
Proof. eexists _, _. split; vm_compute; reflexivity. Qed.

(** C10.  Nothing checks that there are at least as many units as
    groups.  Four people in two pairs that stay together, split three
    ways: the input is well formed, passes the three validations (four
    people for three groups, no conflict, units of size 2 =
    ceil(4 / 3)), and every run resolves with the third group empty. *)
Theorem empty_group_possible :
  let people := ["A"; "B"; "C"; "D"]%string in
  let togetherConstraints :=
    [types.Build_Constraint ["A"; "B"]%string;
     types.Build_Constraint ["C"; "D"]%string] in
  NoDup people ∧ drawn_from people togetherConstraints ∧
  (3 ≤ Z.of_nat (length people))%Z ∧
  first_conflict [] togetherConstraints = None ∧
  (∃ shuffleUnits, units people togetherConstraints = Some shuffleUnits ∧
     ∀ unit, unit ∈ shuffleUnits →
       (Z.of_nat (length unit) ≤ ceil_div (Z.of_nat (length people)) 3)%Z) ∧
  ∀ random, ∃ generatedGroups calls,
    partition people 3 [] togetherConstraints random
    = Some (Groups generatedGroups, calls) ∧
    generatedGroups !! 2 = Some [].
Proof.
  intros people togetherConstraints.
  assert (units people togetherConstraints
          = Some [["A"; "B"]; ["C"; "D"]]%string) as Hu
    by (vm_compute; reflexivity).
  split_and!; [by_evaluation|by_evaluation|simpl; lia|done| |].
  - eexists. split; [done|]. apply Forall_forall.
    repeat constructor; vm_compute; congruence.
  - intros random. unfold partition.
    rewrite bool_decide_eq_false_2 by (simpl; lia).
    cbn [first_conflict].
    rewrite (attempt_loop_step _ _ _ _ _ _ _ _ Hu) by (vm_compute; reflexivity).
    unfold attempt, shuffleArray. cbn [length shuffle_loop].
    rewrite Nat.mod_1_r.
    pose proof (Nat.mod_upper_bound (random 0) 2) as Hlt.
    destruct (random 0 `mod` 2) as [|[|r]]; [| |lia];
      vm_compute; eexists _, _; split; reflexivity.
Qed.

(** * Properties of the setup form *)

Lemma filter_index_from {A : Type} (k index : nat) (array : list A) :
  (filter (λ ix : nat * A, ix.1 ≠ index)
          (imap (λ i x, (k + i, x)) array)).*2
  = if decide (index < k) then array else delete (index - k) array.
Proof.
  revert k. induction array as [|x array IH]; intros k.
  { by case_decide. }
  cbn [imap]. rewrite filter_cons. cbn [fst].
  rewrite (imap_ext _ (λ i x, (S k + i, x)))
    by (intros; unfold compose; f_equal; lia).
  specialize (IH (S k)).
  destruct (decide (k + 0 ≠ index)) as [Hne|Heq].
  - rewrite fmap_cons, IH. cbn [snd].
    repeat case_decide; try lia; try done.
    replace (index - k) with (S (index - S k)) by lia. done.
  - rewrite IH. assert (index = k) as -> by lia.
    rewrite decide_True, decide_False by lia.
    by rewrite Nat.sub_diag.
Qed.

Lemma filter_index_delete {A : Type} (index : nat) (array : list A) :
  filter_index index array = delete index array.
Proof.
  pose proof (filter_index_from 0 index array) as H.
  rewrite decide_False, Nat.sub_0_r in H by lia. exact H.
Qed.

Lemma constraint_ok_mono people people' c :
  (∀ x, x ∈ people → x ∈ people') →
  constraint_ok people c → constraint_ok people' c.
Proof.
  intros Hsub (Hlen & Hnd & Hin). repeat split; [done..|].
  eapply Forall_impl; [exact Hin|]. auto.
Qed.

Lemma constraint_ok_remove people name c :
  constraint_ok people c →
  negb (includes (types.people c) name) →
  constraint_ok (filter (λ p, p ≠ name) people) c.
Proof.
  intros (Hlen & Hnd & Hin) Hname. repeat split; [done..|].
  apply Forall_forall. intros x Hx. apply list_elem_of_filter. split.
  - intros ->. unfold includes in Hname.
    by rewrite bool_decide_true in Hname.
  - by eapply Forall_forall in Hin.
Qed.

Lemma form_ok_handle (e : App.event) (s : App.state) :
  App.offered s e → form_ok s → form_ok (App.handle e s).
Proof.
  intros He (Hap & Htg & Hnd & Hsel).
  destruct e as [value| |p|p|type|type i|value|value|index value|index|];
    cbn [App.handle]; try done.
  - (* add_person *)
    unfold App.handleAddPerson. case_match; [|done].
    repeat split; cbn; [| |done|].
    + eapply Forall_impl; [exact Hap|]. intros c.
      apply constraint_ok_mono. set_solver.
    + eapply Forall_impl; [exact Htg|]. intros c.
      apply constraint_ok_mono. set_solver.
    + eapply Forall_impl; [exact Hsel|]. set_solver.
  - (* remove_person *)
    repeat split; cbn.
    + apply Forall_forall. intros c [Hc Hin]%list_elem_of_filter.
      apply constraint_ok_remove; [|done]. by eapply Forall_forall in Hap.
    + apply Forall_forall. intros c [Hc Hin]%list_elem_of_filter.
      apply constraint_ok_remove; [|done]. by eapply Forall_forall in Htg.
    + by apply NoDup_filter.
    + apply Forall_forall. intros x [Hx Hin]%list_elem_of_filter.
      apply list_elem_of_filter. split; [done|].
      by eapply Forall_forall in Hsel.
  - (* change_checkbox *)
    cbn in He. unfold includes in He. apply bool_decide_unpack in He.
    repeat split; cbn; [done..| |].
    + unfold includes. case_bool_decide as Hp.
      * by apply NoDup_filter.
      * apply NoDup_app. repeat split; [done| |apply NoDup_singleton].
        intros x Hx ->%list_elem_of_singleton. done.
    + unfold includes. case_bool_decide as Hp.
      * apply Forall_forall. intros x [_ Hin]%list_elem_of_filter.
        by eapply Forall_forall in Hsel.
      * apply Forall_app. split; [done|]. by apply Forall_singleton.
  - (* create_constraint *)
    unfold App.handleCreateConstraint. case_bool_decide as Hlen; [done|].
    assert (constraint_ok (App.people s)
              {| types.people := App.selectedForConstraint s |}) as Hnew.
    { repeat split; cbn; [lia|done..]. }
    destruct type; repeat split; cbn;
      try done; try apply NoDup_nil_2;
      apply Forall_app; split; try done; by apply Forall_singleton.
  - (* remove_constraint *)
    unfold App.handleRemoveConstraint. rewrite filter_index_delete.
    destruct type; repeat split; cbn; try done.
    + by apply Forall_delete.
    + by apply Forall_delete.
Qed.

Lemma form_ok_session (events : list App.event) (s s' : App.state) :
  form_ok s → App.session s events = Some s' → form_ok s'.
Proof.
  revert s. induction events as [|e events IH]; intros s Hok Hrun.
  { by simplify_eq/=. }
  cbn [App.session] in Hrun. destruct (App.offered s e) eqn:He; [|done].
  eapply IH; [|done]. apply form_ok_handle; [|done]. by rewrite He.
Qed.

Lemma form_ok_initial : form_ok App.initial.
Proof. repeat split; cbn; try done; apply NoDup_nil_2. Qed.

Lemma trimStart_empty s : trimStart s = ""%string ↔ blank s.
Proof.
  unfold blank. induction s as [|c s IH]; simpl.
  { split; [constructor|done]. }
  destruct (is_white_space c) eqn:Hc.
  - rewrite IH. split; [by constructor|by inversion 1].
  - split; [done|]. inversion 1; congruence.
Qed.

Lemma trimStart_blank s : blank s → trimStart s = ""%string.
Proof. apply trimStart_empty. Qed.

Lemma blank_rev_app s1 s2 :
  blank (String.rev_app s1 s2) ↔ blank s1 ∧ blank s2.
Proof.
  unfold blank. revert s2. induction s1 as [|c s1 IH]; intros s2; simpl.
  { split; [by split; [constructor|]|by intros [_ ?]]. }
  rewrite IH. simpl. rewrite !Forall_cons. tauto.
Qed.

Lemma blank_trimStart s : blank (trimStart s) ↔ blank s.
Proof.
  unfold blank. induction s as [|c s IH]; simpl; [done|].
  destruct (is_white_space c) eqn:Hc; [|done].
  rewrite IH, Forall_cons. tauto.
Qed.

Lemma rev_empty s : String.rev s = ""%string ↔ s = ""%string.
Proof.
  split; [|by intros ->].
  assert (∀ s1 s2, String.length (String.rev_app s1 s2)
                   = String.length s1 + String.length s2) as Hlen.
  { induction s1 as [|c s1 IH]; intros s2; simpl; [done|].
    rewrite IH. simpl. lia. }
  intros Hrev. pose proof (Hlen s ""%string) as H.
  unfold String.rev in Hrev. rewrite Hrev in H.
  destruct s; [done|]. simpl in H. lia.
Qed.

Lemma trim_empty name : trim name = ""%string ↔ blank name.
Proof.
  unfold trim. rewrite rev_empty, trimStart_empty.
  unfold String.rev. rewrite blank_rev_app, blank_trimStart.
  split; [by intros [? _]|]. intros H. split; [done|]. constructor.
Qed.

Lemma partition_total people finalGroupCount apartConstraints
  togetherConstraints random :
  ordinary people →
  drawn_from people togetherConstraints →
  ∃ result calls,
    partition people finalGroupCount apartConstraints togetherConstraints
              random = Some (result, calls).
Proof.
  intros Hord Hdrawn.
  destruct (units_total people togetherConstraints) as (us & Hu & _);
    [done| |].
  { intros c x. by apply drawn_from_elem. }
  unfold partition. case_bool_decide as Hlen; [by eauto|].
  destruct (first_conflict apartConstraints togetherConstraints)
    as [[a b]|]; [by eauto|].
  destruct (existsb (oversized people finalGroupCount) us) eqn:Ho.
  { rewrite (attempt_loop_oversized _ _ _ _ _ _ _ _ Hu Ho). eauto. }
  destruct (attempt_loop_cases people finalGroupCount apartConstraints
              togetherConstraints random us 50 0 Hu Ho)
    as [(n & tg & _ & _ & _ & ->)|[_ ->]]; eauto.
Qed.

Lemma partition_length people finalGroupCount apartConstraints
  togetherConstraints random generatedGroups calls :
  partition people finalGroupCount apartConstraints togetherConstraints
            random = Some (Groups generatedGroups, calls) →
  length generatedGroups = Z.to_nat finalGroupCount.
Proof.
  intros (us & n & tg & _ & _ & _ & _ & _ & Hpack & -> & _)%partition_Groups.
  unfold attempt in Hpack. apply pack_perm in Hpack as [Hlen _].
  rewrite length_fmap, Hlen. unfold empty_groups. by rewrite length_replicate.
Qed.

(** X1.  Whatever the user does on the form, the constraints fit the
    list of people: every apart- and together-constraint names people
    of the list only, names at least two, and names nobody twice; the
    names ticked for the next constraint are people of the list, each
    ticked once. *)
Theorem form_constraints_fit (events : list App.event) (s : App.state) :
  App.session App.initial events = Some s →
  drawn_from (App.people s) (App.apartConstraints s) ∧
  drawn_from (App.people s) (App.togetherConstraints s) ∧
  (∀ c, c ∈ App.apartConstraints s ∨ c ∈ App.togetherConstraints s →
        2 ≤ length (types.people c) ∧ NoDup (types.people c)) ∧
  NoDup (App.selectedForConstraint s) ∧
  (∀ p, p ∈ App.selectedForConstraint s → p ∈ App.people s).
Proof.
  intros (Hap & Htg & Hnd & Hsel)%(form_ok_session _ _ _ form_ok_initial).
  split_and!.
  - eapply Forall_impl; [exact Hap|]. by intros c (_ & _ & ?).
  - eapply Forall_impl; [exact Htg|]. by intros c (_ & _ & ?).
  - intros c [Hc|Hc].
    + eapply Forall_forall in Hap as (? & ? & _); done.
    + eapply Forall_forall in Htg as (? & ? & _); done.
  - done.
  - intros p Hp. by eapply Forall_forall in Hsel.
Qed.

Lemma form_constraints_fit_a_session :
  drawn_from (App.people after_a_session)
             (App.apartConstraints after_a_session) ∧
  drawn_from (App.people after_a_session)
             (App.togetherConstraints after_a_session) ∧
  (∀ c, c ∈ App.apartConstraints after_a_session
        ∨ c ∈ App.togetherConstraints after_a_session →
        2 ≤ length (types.people c) ∧ NoDup (types.people c)) ∧
  NoDup (App.selectedForConstraint after_a_session) ∧
  (∀ p, p ∈ App.selectedForConstraint after_a_session →
        p ∈ App.people after_a_session).
Proof. apply (form_constraints_fit a_session). vm_compute. reflexivity. Defined.

(** X2.  [handleAddPerson] tests the typed text and appends its trimmed
    form.  A list without duplicates keeps being so, except when the
    typed text is new and its trimmed form is listed already: then the
    name is in the list twice. *)
Theorem handleAddPerson_NoDup (s : App.state) :
  NoDup (App.people s) →
  NoDup (App.people (App.handleAddPerson s)) ↔
  ¬ (App.personName s ≠ ""%string ∧
     (App.personName s ∉ App.people s) ∧
     trim (App.personName s) ∈ App.people s).
Proof.
  intros Hnd. unfold App.handleAddPerson, includes.
  case_bool_decide as Hname; case_bool_decide as Hin; simpl;
    try (split; [tauto|done]).
  rewrite NoDup_app. split.
  - intros (_ & Hnew & _) (_ & _ & Hold).
    apply (Hnew _ Hold). by apply list_elem_of_singleton.
  - intros Hnew. split_and!; [done| |apply NoDup_singleton].
    intros x Hx ->%list_elem_of_singleton. tauto.
Qed.

Lemma handleAddPerson_NoDup_padded :
  NoDup (App.people (App.handleAddPerson padded_A)) ↔
  ¬ (App.personName padded_A ≠ ""%string ∧
     (App.personName padded_A ∉ App.people padded_A) ∧
     trim (App.personName padded_A) ∈ App.people padded_A).
Proof. apply (handleAddPerson_NoDup padded_A). by_evaluation. Defined.

Lemma filter_ne_notin (name : string) (l : list string) :
  name ∉ l → filter (λ p, p ≠ name) l = l.
Proof.
  intros Hname. induction l as [|x l IH]; [done|].
  apply not_elem_of_cons in Hname as [Hx Hl].
  rewrite filter_cons, decide_True by done. f_equal. auto.
Qed.

Lemma filter_names_notin (name : string) (people : list string)
  (constraints : list types.Constraint) :
  name ∉ people → Forall (constraint_ok people) constraints →
  filter (λ c, negb (includes (types.people c) name)) constraints
  = constraints.
Proof.
  intros Hname. induction 1 as [|c l (_ & _ & Hc) _ IH]; [done|].
  rewrite filter_cons, decide_True, IH; [done|].
  unfold includes. rewrite bool_decide_false; [done|].
  intros Hin. eapply Forall_forall in Hc; done.
Qed.

(** X3.  Adding a person and removing that person again leaves the
    form as it was, but for the cleared text box: the people, the
    constraints and the ticked names are those of before.  (The form
    is one that a session has led to; the typed text and its trimmed
    form are both new.) *)
Theorem add_then_remove (events : list App.event) (s : App.state) :
  App.session App.initial events = Some s →
  App.personName s ≠ ""%string →
  App.personName s ∉ App.people s →
  trim (App.personName s) ∉ App.people s →
  App.handleRemovePerson (trim (App.personName s)) (App.handleAddPerson s)
  = App.setPersonName "" s.
Proof.
  intros (Hap & Htg & _ & Hsel)%(form_ok_session _ _ _ form_ok_initial)
         Hname Hnew Htrim.
  unfold App.handleAddPerson, includes.
  rewrite bool_decide_true, bool_decide_false by done.
  destruct s as [people personName groupCount apart together selected
                 names method]; simpl in *.
  unfold App.handleRemovePerson, App.setPersonName; cbn.
  rewrite filter_app, (filter_ne_notin _ people) by done.
  rewrite filter_cons, decide_False, filter_nil, app_nil_r by (by intros []).
  rewrite (filter_names_notin _ people apart),
          (filter_names_notin _ people together) by done.
  rewrite filter_ne_notin; [done|].
  intros Hin. by eapply Forall_forall in Hsel.
Qed.

Lemma add_then_remove_typed_D :
  App.handleRemovePerson (trim (App.personName typed_D))
                         (App.handleAddPerson typed_D)
  = App.setPersonName "" typed_D.
Proof.
  apply (add_then_remove (a_session ++ [App.change_personName " D "%string])).
  - vm_compute. reflexivity.
  - by_evaluation.
  - by_evaluation.
  - by_evaluation.
Defined.

(** X4.  Ticking a name twice gives back the selection: the same names
    in any case, and the same form when the name was not ticked
    before.  (A name that was ticked moves to the end.) *)
Theorem toggle_twice (name : string) (s : App.state) :
  NoDup (App.selectedForConstraint s) →
  App.selectedForConstraint
    (App.toggleSelectedForConstraint name
       (App.toggleSelectedForConstraint name s))
  ≡ₚ App.selectedForConstraint s ∧
  (name ∉ App.selectedForConstraint s →
   App.toggleSelectedForConstraint name
     (App.toggleSelectedForConstraint name s) = s) ∧
  (name ∈ App.selectedForConstraint s →
   App.selectedForConstraint
     (App.toggleSelectedForConstraint name
        (App.toggleSelectedForConstraint name s))
   = filter (λ p, p ≠ name) (App.selectedForConstraint s) ++ [name]).
Proof.
  intros Hnd.
  destruct s as [people personName groupCount apart together selected
                 names method]; simpl in *.
  unfold App.toggleSelectedForConstraint, App.setSelectedForConstraint,
    includes; cbn.
  destruct (decide (name ∈ selected)) as [Hin|Hin].
  - assert (name ∉ filter (λ p, p ≠ name) selected) as Hout.
    { by intros [? _]%list_elem_of_filter. }
    rewrite !(bool_decide_true (name ∈ selected)) by done.
    rewrite !(bool_decide_false (name ∈ filter _ _)) by done.
    split_and!; [|done|done].
    apply NoDup_Permutation; [|done|].
    + apply NoDup_app. split_and!;
        [by apply NoDup_filter| |apply NoDup_singleton].
      by intros x Hx ->%list_elem_of_singleton.
    + intros x. rewrite elem_of_app, list_elem_of_filter,
        list_elem_of_singleton.
      destruct (decide (x = name)) as [->|]; tauto.
  - rewrite !(bool_decide_false (name ∈ selected)) by done.
    rewrite !(bool_decide_true (name ∈ selected ++ [name]))
      by (apply elem_of_app; right; apply list_elem_of_singleton; done).
    rewrite filter_app, filter_ne_notin by done.
    rewrite filter_cons, decide_False, filter_nil, app_nil_r by (by intros []).
    split_and!; done.
Qed.

Lemma toggle_twice_typed_D :
  App.selectedForConstraint
    (App.toggleSelectedForConstraint "A"
       (App.toggleSelectedForConstraint "A" typed_D))
  ≡ₚ App.selectedForConstraint typed_D ∧
  ("A"%string ∉ App.selectedForConstraint typed_D →
   App.toggleSelectedForConstraint "A"
     (App.toggleSelectedForConstraint "A" typed_D) = typed_D) ∧
  ("A"%string ∈ App.selectedForConstraint typed_D →
   App.selectedForConstraint
     (App.toggleSelectedForConstraint "A"
        (App.toggleSelectedForConstraint "A" typed_D))
   = filter (λ p, p ≠ "A"%string) (App.selectedForConstraint typed_D)
     ++ ["A"%string]).
Proof. apply (toggle_twice "A" typed_D). by_evaluation. Defined.

(** X5.  [handleRemoveConstraint] takes out the constraint at the index
    given, of the type given, and nothing else: the other constraints
    of that type keep their order, and the constraints of the other
    type, the people and the ticked names stay. *)
Theorem handleRemoveConstraint_delete (type : App.ConstraintType)
  (index : nat) (s : App.state) :
  App.handleRemoveConstraint type index s
  = App.setConstraints type (delete index (App.constraintsOf type s)) s ∧
  App.constraintsOf type (App.handleRemoveConstraint type index s)
  = take index (App.constraintsOf type s)
    ++ drop (S index) (App.constraintsOf type s) ∧
  (length (App.constraintsOf type s) ≤ index →
   App.handleRemoveConstraint type index s = s).
Proof.
  unfold App.handleRemoveConstraint. rewrite filter_index_delete.
  split_and!.
  - done.
  - rewrite delete_take_drop. by destruct type.
  - intros Hlen.
    rewrite delete_take_drop, take_ge, drop_ge, app_nil_r by lia.
    by destruct type, s.
Qed.

Lemma groupCount_session (events : list App.event) (s s' : App.state) :
  App.groupCount s ≠ 0%Z → App.session s events = Some s' →
  App.groupCount s' ≠ 0%Z.
Proof.
  revert s. induction events as [|e events IH]; intros s Hk Hrun.
  { by simplify_eq/=. }
  cbn [App.session] in Hrun. destruct (App.offered s e); [|done].
  eapply IH; [|done].
  destruct e as [value| |p|p|type|type i|value|value|index value|index|];
    cbn; try done.
  - unfold App.handleAddPerson. by case_match.
  - unfold App.handleCreateConstraint. case_bool_decide; [done|].
    by destruct type.
  - by destruct type.
  - destruct (parseInt value) as [n|]; [|done]. by case_decide.
Qed.

(** X6.  The number of groups typed on the form is never stored as 0:
    text that does not start with a number, and the number 0, are
    replaced by 2 (line 498).  So the number of groups of a run by
    count is never 0. *)
Theorem groupCount_never_zero (events : list App.event) (s : App.state) :
  App.session App.initial events = Some s →
  App.groupCount s ≠ 0%Z ∧
  (App.namingMethod s = App.count → App.finalGroupCount s ≠ 0%Z).
Proof.
  intros Hk%groupCount_session; [|done].
  split; [done|]. unfold App.finalGroupCount. by intros ->.
Qed.

Lemma groupCount_never_zero_count_session :
  App.groupCount after_count_session ≠ 0%Z ∧
  (App.namingMethod after_count_session = App.count →
   App.finalGroupCount after_count_session ≠ 0%Z).
Proof.
  apply (groupCount_never_zero count_session). vm_compute. reflexivity.
Defined.

Lemma filter_visible (names : list string) :
  filter (λ name, trim name ≠ ""%string) names
  = filter (λ name, ¬ blank name) names.
Proof. apply list_filter_iff. intros name. by rewrite trim_empty. Qed.

(** X7.  A run fails with [errorMinTwoCustom] exactly when the groups
    are named by hand and fewer than two of the names have a visible
    character: every such form fails so, and no other form does.
    [Math.random] is not called then.  (By count there is no such
    check.) *)
Theorem errorMinTwoCustom_iff (random : nat → nat) (s : App.state) :
  ((∃ calls,
      App.generatedGroups random s = Some (App.errorMinTwoCustom, calls)) ↔
   App.namingMethod s = App.custom ∧
   length (filter (λ name, ¬ blank name) (App.customGroupNames s)) < 2) ∧
  (∀ calls,
     App.generatedGroups random s = Some (App.errorMinTwoCustom, calls) →
     calls = 0).
Proof.
  unfold App.generatedGroups, App.finalGroupCount.
  case_bool_decide as Hcheck.
  - destruct Hcheck as [Hcustom Hlen]. rewrite Hcustom in Hlen.
    rewrite filter_visible in Hlen.
    split; [|by intros calls [= <-]].
    split; [|by eauto]. intros _. split; [done|lia].
  - split; [split|].
    + intros [calls Hrun].
      destruct (partition _ _ _ _ _) as [[result calls']|]; done.
    + intros [Hcustom Hlen]. destruct Hcheck. split; [done|].
      rewrite Hcustom, filter_visible. lia.
    + intros calls Hrun.
      destruct (partition _ _ _ _ _) as [[result calls']|]; done.
Qed.

(** X8.  When the groups are named by hand, a run that resolves with
    groups resolves with as many groups as there are names with a
    visible character, at least two; these names, untrimmed and in the
    order of the form, are the names of the groups (line 268). *)
Theorem custom_names_match_groups (random : nat → nat) (s : App.state)
  (groups : list (list string)) (calls : nat) :
  App.namingMethod s = App.custom →
  App.generatedGroups random s = Some (App.engine (Groups groups), calls) →
  length (App.finalNames s) = length groups ∧
  2 ≤ length groups ∧
  App.finalNames s = filter (λ name, ¬ blank name) (App.customGroupNames s).
Proof.
  intros Hcustom. unfold App.generatedGroups.
  case_bool_decide as Hcheck; [done|].
  destruct (partition _ _ _ _ _) as [[result calls']|] eqn:Hrun; [|done].
  intros [= -> ->]. apply partition_length in Hrun.
  assert (App.finalGroupCount s = Z.of_nat (length (App.finalNames s))) as Hk.
  { unfold App.finalGroupCount, App.finalNames. by rewrite Hcustom. }
  rewrite Hk, Nat2Z.id in Hrun.
  split_and!; [done| |apply filter_visible].
  rewrite Hrun. apply not_and_l in Hcheck as [|]; [done|lia].
Qed.

Lemma custom_names_match_groups_named_form :
  length (App.finalNames named_form)
  = length [["A"; "B"]; ["C"]]%string ∧
  2 ≤ length [["A"; "B"]; ["C"]]%string ∧
  App.finalNames named_form
  = filter (λ name, ¬ blank name) (App.customGroupNames named_form).
Proof.
  apply (custom_names_match_groups (λ _, 0) named_form _ 3).
  - reflexivity.
  - vm_compute. reflexivity.
Defined.

(** X9.  Whatever the user has done on the form, as long as nobody
    on the list is named after a property of [Object.prototype], a run
    of the engine on it ends, with groups or with a failure: the
    together-constraints made on the form never send [find] round in
    circles, and line 209 finds an array or nothing under every
    root. *)
Theorem generation_ends (events : list App.event) (s : App.state)
  (random : nat → nat) :
  App.session App.initial events = Some s →
  ordinary (App.people s) →
  ∃ result calls, App.generatedGroups random s = Some (result, calls).
Proof.
  intros (_ & Htg & _)%(form_ok_session _ _ _ form_ok_initial) Hord.
  unfold App.generatedGroups. case_bool_decide; [by eauto|].
  destruct (partition_total (App.people s) (App.finalGroupCount s)
              (App.apartConstraints s) (App.togetherConstraints s) random)
    as (result & calls & ->); [done| |by eauto].
  eapply Forall_impl; [exact Htg|]. by intros c (_ & _ & ?).
Qed.

Lemma generation_ends_a_session :
  ∃ result calls,
    App.generatedGroups (λ n, n) after_a_session = Some (result, calls).
Proof.
  apply (generation_ends a_session).
  - vm_compute. reflexivity.
  - by_evaluation.
Defined.

(** * Further properties of the engine *)

(** ** Apart-constraints that are kept, and those that cannot be *)

(** Two people of one group whom an apart-constraint names are linked
    by together-constraints. *)
Lemma apart_linked_in_group people finalGroupCount apartConstraints
  togetherConstraints random generatedGroups calls g a b :
  drawn_from people togetherConstraints →
  partition people finalGroupCount apartConstraints togetherConstraints random
  = Some (Groups generatedGroups, calls) →
  g ∈ generatedGroups → a ∈ g → b ∈ g →
  apart_linked apartConstraints a b →
  linked togetherConstraints a b.
Proof.
  intros Hdrawn Hrun Hg Ha Hb Hapart.
  destruct (apart_across_units _ _ _ _ _ _ _ Hrun) as (us & Hu & Hunit).
  destruct (partition_Groups_inv _ _ _ _ _ _ _ Hdrawn Hrun)
    as (us' & _ & _ & Hperm & _).
  apply (units_components people togetherConstraints us Hdrawn Hu).
  - rewrite <- Hperm. apply elem_of_concat. eauto.
  - rewrite <- Hperm. apply elem_of_concat. eauto.
  - by eapply Hunit.
Qed.

Lemma linked_nil (a b : string) : linked [] a b → a = b.
Proof.
  induction 1 as [|x y z Hxy _ IH]; [done|].
  destruct Hxy as [(c & Hc & _)|(c & Hc & _)]; by apply elem_of_nil in Hc.
Qed.

(** When nobody is named by two together-constraints, the people that
    together-constraints link are those that one of them names. *)
Lemma linked_one_constraint (togetherConstraints : list types.Constraint)
  (a b : string) :
  (∀ t t' x, t ∈ togetherConstraints → t' ∈ togetherConstraints →
             x ∈ types.people t → x ∈ types.people t' → t = t') →
  linked togetherConstraints a b →
  a = b ∨ ∃ t, t ∈ togetherConstraints ∧
               a ∈ types.people t ∧ b ∈ types.people t.
Proof.
  intros Hone. induction 1 as [|x y z Hxy _ IH]; [by left|].
  assert (∃ t, t ∈ togetherConstraints ∧ x ∈ types.people t
               ∧ y ∈ types.people t) as (t & Ht & Hx & Hy).
  { destruct Hxy as [(t & Ht & Hn)|(t & Ht & Hn)];
      apply next_in_elem in Hn as [? ?]; eauto. }
  destruct IH as [<-|(t' & Ht' & Hy' & Hz)]; [by eauto|].
  rewrite <- (Hone t t' y Ht Ht' Hy Hy') in Hz. eauto.
Qed.

(** More people than groups: two of them share a group. *)
Lemma crowded (groups : list (list string)) (members : list string) :
  NoDup members →
  (∀ a, a ∈ members → ∃ g, g ∈ groups ∧ a ∈ g) →
  length groups < length members →
  ∃ a b g, a ≠ b ∧ a ∈ members ∧ b ∈ members ∧ g ∈ groups ∧ a ∈ g ∧ b ∈ g.
Proof.
  revert members. induction groups as [|g groups IH];
    intros members Hnd Hin Hlen.
  { destruct members as [|a members]; [simpl in Hlen; lia|].
    destruct (Hin a) as (g & Hg & _); [by left|]. by apply elem_of_nil in Hg. }
  pose proof (filter_app_complement (λ a, a ∈ g) members) as Hsplit.
  apply Permutation_length in Hsplit. rewrite length_app in Hsplit.
  destruct (filter (λ a, a ∈ g) members) as [|a [|b inside]] eqn:Hinside.
  3:{ assert (a ∈ filter (λ a, a ∈ g) members) as [Hag Ha]%list_elem_of_filter
        by (rewrite Hinside; by left).
      assert (b ∈ filter (λ a, a ∈ g) members) as [Hbg Hb]%list_elem_of_filter
        by (rewrite Hinside; right; by left).
      exists a, b, g. split_and!; [|done|done|by left|done|done].
      pose proof (NoDup_filter (λ a, a ∈ g) _ Hnd) as Hnd'.
      rewrite Hinside in Hnd'. apply NoDup_cons in Hnd' as [Hab _].
      intros ->. apply Hab. by left. }
  all: destruct (IH (filter (λ a, ¬ a ∈ g) members))
         as (a' & b' & g' & Hne & [_ Ha]%list_elem_of_filter
             & [_ Hb]%list_elem_of_filter & Hg' & Hag & Hbg);
       [by apply NoDup_filter
       |intros x [Hx Hxm]%list_elem_of_filter;
        destruct (Hin x Hxm) as (g' & [->|Hg']%elem_of_cons & Hxg);
        [done|by eauto]
       |simpl in *; lia
       |exists a', b', g'; split_and!; [done..|by right|done|done]].
Qed.

(** X10.  Where nobody is named [__proto__]: in the groups of a run,
    two people named by one apart-constraint share a group only if
    together-constraints link them, directly or through others: an
    apart-constraint between people whom no chain of
    together-constraints joins is always kept. *)
Theorem apart_kept_unless_linked people finalGroupCount apartConstraints
  togetherConstraints random generatedGroups calls :
  "__proto__"%string ∉ people →
  drawn_from people togetherConstraints →
  partition people finalGroupCount apartConstraints togetherConstraints random
  = Some (Groups generatedGroups, calls) →
  Forall (λ g, ∀ a b, a ∈ g → b ∈ g →
                      apart_linked apartConstraints a b →
                      linked togetherConstraints a b)
         generatedGroups.
Proof.
  intros _ Hdrawn Hrun. apply Forall_forall. intros g Hg a b Ha Hb Hapart.
  by eapply apart_linked_in_group.
Qed.

Lemma apart_kept_unless_linked_scenario_B :
  Forall (λ g, ∀ a b, a ∈ g → b ∈ g →
            apart_linked [types.Build_Constraint ["A"; "B"]%string] a b →
            linked [] a b)
         [["B"]; ["A"]]%string.
Proof.
  apply (apart_kept_unless_linked ["A"; "B"]%string 2
           [types.Build_Constraint ["A"; "B"]%string] [] (λ _, 0) _ 2).
  - by_evaluation.
  - constructor.
  - vm_compute. reflexivity.
Defined.

(** X11.  Where nobody is named [__proto__]: when nobody is named by
    two together-constraints, every apart-constraint is kept: in the
    groups of a run no two different people named by one
    apart-constraint share a group. *)
Theorem apart_kept_when_separate people finalGroupCount apartConstraints
  togetherConstraints random generatedGroups calls :
  "__proto__"%string ∉ people →
  drawn_from people togetherConstraints →
  (∀ t t' x, t ∈ togetherConstraints → t' ∈ togetherConstraints →
             x ∈ types.people t → x ∈ types.people t' → t = t') →
  partition people finalGroupCount apartConstraints togetherConstraints random
  = Some (Groups generatedGroups, calls) →
  Forall (λ g, ∀ a b, a ∈ g → b ∈ g → a ≠ b →
                      ¬ apart_linked apartConstraints a b)
         generatedGroups.
Proof.
  intros _ Hdrawn Hone Hrun. apply Forall_forall.
  intros g Hg a b Ha Hb Hne Hapart.
  pose proof (apart_linked_in_group _ _ _ _ _ _ _ _ _ _
                Hdrawn Hrun Hg Ha Hb Hapart) as Hlinked.
  destruct (linked_one_constraint _ _ _ Hone Hlinked)
    as [?|(t & Ht & Hat & Hbt)]; [done|].
  destruct Hapart as (c & Hc & Hac & Hbc).
  destruct (partition_Groups _ _ _ _ _ _ _ Hrun)
    as (_ & _ & _ & _ & _ & _ & Hnone & _).
  pose proof (first_conflict_spec apartConstraints togetherConstraints)
    as Hspec.
  rewrite Hnone in Hspec. specialize (Hspec c t Hc Ht).
  apply conflict_None in Hspec.
  assert (2 ≤ length (common c t)); [|lia].
  apply common_two. by exists a, b.
Qed.

Lemma apart_kept_when_separate_pair :
  Forall (λ g, ∀ a b, a ∈ g → b ∈ g → a ≠ b →
            ¬ apart_linked [types.Build_Constraint ["A"; "C"]%string] a b)
         [["C"]; ["A"; "B"; "D"]]%string.
Proof.
  apply (apart_kept_when_separate ["A"; "B"; "C"; "D"]%string 2
           [types.Build_Constraint ["A"; "C"]%string]
           [types.Build_Constraint ["A"; "B"]%string] (λ _, 0) _ 3).
  - by_evaluation.
  - by_evaluation.
  - by intros t t' x ->%list_elem_of_singleton ->%list_elem_of_singleton.
  - vm_compute. reflexivity.
Defined.

(** X12.  Where nobody is named [__proto__]: an apart-constraint that
    names more people than there are groups, no two of them linked by
    together-constraints, cannot be kept, and the run does not pretend
    otherwise: it never ends with groups.  Where nobody is named after
    a property of [Object.prototype] at all, it ends with a failure. *)
Theorem crowded_apart_fails people finalGroupCount apartConstraints
  togetherConstraints random (c : types.Constraint) :
  "__proto__"%string ∉ people →
  drawn_from people togetherConstraints →
  c ∈ apartConstraints → NoDup (types.people c) →
  (∀ a, a ∈ types.people c → a ∈ people) →
  (∀ a b, a ∈ types.people c → b ∈ types.people c → a ≠ b →
          ¬ linked togetherConstraints a b) →
  (0 ≤ finalGroupCount < Z.of_nat (length (types.people c)))%Z →
  (¬ ∃ generatedGroups calls,
       partition people finalGroupCount apartConstraints togetherConstraints
                 random = Some (Groups generatedGroups, calls)) ∧
  (ordinary people →
   ∃ e calls,
     partition people finalGroupCount apartConstraints togetherConstraints
               random = Some (Failure e, calls)).
Proof.
  intros _ Hdrawn Hc Hnd Hlisted Hfar Hk.
  assert (¬ ∃ gs calls,
       partition people finalGroupCount apartConstraints togetherConstraints
                 random = Some (Groups gs, calls)) as Hnever.
  { intros (gs & calls & Hrun).
    destruct (partition_Groups_inv _ _ _ _ _ _ _ Hdrawn Hrun)
      as (us & _ & Hlen & Hperm & _).
    destruct (crowded gs (types.people c)) as (a & b & g & Hne & Ha & Hb & Hg
                                                & Hag & Hbg).
    - done.
    - intros a Ha. apply elem_of_concat. rewrite Hperm. eauto.
    - lia.
    - destruct (Hfar a b Ha Hb Hne).
      eapply apart_linked_in_group; [done..|]. by exists c. }
  split; [done|]. intros Hord.
  destruct (partition_total people finalGroupCount apartConstraints
              togetherConstraints random Hord Hdrawn)
    as ([gs|e] & calls & Hrun); [|by eauto].
  destruct Hnever. eauto.
Qed.

Lemma crowded_apart_fails_three :
  (¬ ∃ generatedGroups calls,
       partition ["A"; "B"; "C"]%string 2
                 [types.Build_Constraint ["A"; "B"; "C"]%string] [] (λ n, n)
       = Some (Groups generatedGroups, calls)) ∧
  (∃ e calls,
     partition ["A"; "B"; "C"]%string 2
               [types.Build_Constraint ["A"; "B"; "C"]%string] [] (λ n, n)
     = Some (Failure e, calls)).
Proof.
  destruct (crowded_apart_fails ["A"; "B"; "C"]%string 2
              [types.Build_Constraint ["A"; "B"; "C"]%string] [] (λ n, n)
              (types.Build_Constraint ["A"; "B"; "C"]%string))
    as [Hnever Hfails].
  - by_evaluation.
  - constructor.
  - by left.
  - by_evaluation.
  - simpl. intros a Ha. done.
  - intros a b _ _ Hne Hl. by apply linked_nil in Hl.
  - simpl. lia.
  - split; [exact Hnever|]. apply Hfails. by_evaluation.
Defined.

(** ** Runs without apart-constraints *)

Lemma groupHasApartPerson_nil (group unit : list string) :
  groupHasApartPerson [] group unit = false.
Proof.
  destruct (groupHasApartPerson [] group unit) eqn:H; [|done].
  apply groupHasApartPerson_true in H as (? & ? & c & _ & _ & Hc & _).
  by apply elem_of_nil in Hc.
Qed.

(** Without apart-constraints a unit goes to a group of the least
    size. *)
Lemma place_no_apart (tempGroups : list (list string)) (unit : list string) :
  tempGroups ≠ [] →
  ∃ i g, tempGroups !! i = Some g ∧
    (∀ j g', tempGroups !! j = Some g' → length g ≤ length g') ∧
    place [] (groupOrder tempGroups) tempGroups unit
    = Some (<[i := g ++ unit]> tempGroups).
Proof.
  intros Hne. pose proof (place_groupOrder [] tempGroups unit) as H.
  destruct (place [] (groupOrder tempGroups) tempGroups unit) as [tg|].
  - destruct H as (i & g & Hi & _ & Hfirst & ->).
    exists i, g. split_and!; [done| |done].
    intros j g' Hj. destruct (decide (length g' < length g)) as [Hlt|]; [|lia].
    specialize (Hfirst j g' Hj (or_introl Hlt)).
    by rewrite groupHasApartPerson_nil in Hfirst.
  - destruct tempGroups as [|g tg]; [done|].
    specialize (H 0 g eq_refl). by rewrite groupHasApartPerson_nil in H.
Qed.

Lemma pack_no_apart (U : nat) (shuffledUnits tempGroups : list (list string)) :
  tempGroups ≠ [] →
  ∃ tempGroups', pack [] shuffledUnits tempGroups = Some tempGroups' ∧
    (Forall (λ unit, length unit ≤ U) shuffledUnits →
     spread U tempGroups → spread U tempGroups').
Proof.
  revert tempGroups.
  induction shuffledUnits as [|unit rest IH]; intros tempGroups Hne.
  { by exists tempGroups. }
  cbn [pack].
  destruct (place_no_apart tempGroups unit Hne) as (i & g & Hi & Hmin & ->).
  destruct (IH (<[i := g ++ unit]> tempGroups)) as (tg' & -> & Hspread).
  { intros Hnil. apply (f_equal length) in Hnil.
    rewrite length_insert in Hnil. by destruct tempGroups. }
  exists tg'. split; [done|].
  intros [Hunit Hrest]%Forall_cons Hs. apply Hspread; [done|].
  intros a b ga gb
    [(-> & <- & _)|[_ Ha]]%list_lookup_insert_Some
    [(-> & <- & _)|[_ Hb]]%list_lookup_insert_Some.
  - lia.
  - rewrite length_app. specialize (Hmin _ _ Hb). lia.
  - rewrite length_app. specialize (Hs _ _ _ _ Ha Hi). lia.
  - by eapply Hs.
Qed.

Lemma spread_empty_groups (U : nat) (finalGroupCount : Z) :
  spread U (empty_groups finalGroupCount).
Proof.
  unfold empty_groups.
  intros i j g g' [-> _]%lookup_replicate [-> _]%lookup_replicate.
  simpl. lia.
Qed.

Lemma spread_sorted (U : nat) (tempGroups : list (list string)) :
  spread U tempGroups → spread U (js_sort String.leb <$> tempGroups).
Proof.
  intros Hs i j g g'. rewrite !list_lookup_fmap.
  intros (a & Ha & ->)%fmap_Some_1 (b & Hb & ->)%fmap_Some_1.
  rewrite !length_js_sort. by eapply Hs.
Qed.

Lemma first_conflict_nil (togetherConstraints : list types.Constraint) :
  first_conflict [] togetherConstraints = None.
Proof. done. Qed.

(** A run without apart-constraints, past the validations. *)
Lemma partition_no_apart people finalGroupCount togetherConstraints random
  shuffleUnits :
  (1 ≤ finalGroupCount ≤ Z.of_nat (length people))%Z →
  units people togetherConstraints = Some shuffleUnits →
  existsb (oversized people finalGroupCount) shuffleUnits = false →
  ∃ generatedGroups,
    partition people finalGroupCount [] togetherConstraints random
    = Some (Groups generatedGroups, length shuffleUnits) ∧
    ∀ U, Forall (λ unit, length unit ≤ U) shuffleUnits →
         spread U generatedGroups.
Proof.
  intros Hk Hu Ho. unfold partition.
  rewrite bool_decide_false by lia. cbn [first_conflict].
  rewrite (attempt_loop_step _ _ _ _ _ _ _ _ Hu Ho). unfold attempt.
  destruct (pack_no_apart 0 (shuffleArray random shuffleUnits 0).1
              (empty_groups finalGroupCount)) as (tg & Hpack & _).
  { unfold empty_groups.
    destruct (Z.to_nat finalGroupCount) eqn:E; [lia|done]. }
  rewrite Hpack. eexists. split; [done|].
  intros U HU. apply spread_sorted.
  destruct (pack_no_apart U (shuffleArray random shuffleUnits 0).1
              (empty_groups finalGroupCount)) as (tg' & Hpack' & Hs).
  { unfold empty_groups.
    destruct (Z.to_nat finalGroupCount) eqn:E; [lia|done]. }
  rewrite Hpack in Hpack'. injection Hpack' as <-.
  apply Hs; [|apply spread_empty_groups].
  by rewrite shuffleArray_perm.
Qed.

Lemma NoDup_concat_elem {A : Type} (ls : list (list A)) (l : list A) :
  NoDup (concat ls) → l ∈ ls → NoDup l.
Proof.
  induction ls as [|l' ls IH]; intros Hnd Hl; [by apply elem_of_nil in Hl|].
  simpl in Hnd. apply NoDup_app in Hnd as (Hl' & _ & Hls).
  apply elem_of_cons in Hl as [->|Hl]; auto.
Qed.

(** Without together-constraints every person of a list without
    duplicates is a unit. *)
Lemma units_singletons (people : list string) shuffleUnits :
  NoDup people →
  units people [] = Some shuffleUnits →
  Forall (λ unit, length unit ≤ 1) shuffleUnits.
Proof.
  intros Hnd Hu.
  pose proof (units_cases people []) as Hcases.
  rewrite Hu in Hcases. destruct Hcases as (Hperm & _).
  { by intros c x Hc%elem_of_nil. }
  pose proof (units_components people [] shuffleUnits (Forall_nil_2 _) Hu)
    as Hcomp.
  apply Forall_forall. intros unit Hunit.
  assert (NoDup unit) as Hndu.
  { eapply NoDup_concat_elem; [|done]. by rewrite Hperm. }
  destruct unit as [|x [|y unit]]; simpl; [lia..|].
  assert (x = y) as ->.
  { apply linked_nil, Hcomp.
    - rewrite <- Hperm. apply elem_of_concat. eexists. split; [done|]. by left.
    - rewrite <- Hperm. apply elem_of_concat. eexists. split; [done|].
      right. by left.
    - eexists. split_and!; [done|by left|right; by left]. }
  apply NoDup_cons in Hndu as [Hx _]. destruct Hx. by left.
Qed.

Lemma length_concat_ge (a : nat) (ls : list (list string)) :
  Forall (λ l, a ≤ length l) ls → a * length ls ≤ length (concat ls).
Proof.
  induction 1 as [|l ls Hl _ IH]; simpl; [lia|]. rewrite length_app. lia.
Qed.

Lemma length_concat_le (a : nat) (ls : list (list string)) :
  Forall (λ l, length l ≤ a) ls → length (concat ls) ≤ a * length ls.
Proof.
  induction 1 as [|l ls Hl _ IH]; simpl; [lia|]. rewrite length_app. lia.
Qed.

(** Groups whose sizes differ by one at most have the sizes of an even
    split. *)
Lemma spread_even (groups : list (list string)) (g : list string) :
  spread 1 groups → g ∈ groups →
  (Z.of_nat (length (concat groups)) / Z.of_nat (length groups)
   ≤ Z.of_nat (length g)
   ≤ ceil_div (Z.of_nat (length (concat groups)))
              (Z.of_nat (length groups)))%Z.
Proof.
  intros Hs Hg. apply list_elem_of_lookup in Hg as [i Hi].
  assert (Forall (λ l, length g - 1 ≤ length l) groups) as Hlow.
  { apply Forall_forall. intros l [j Hj]%list_elem_of_lookup.
    specialize (Hs _ _ _ _ Hi Hj). lia. }
  assert (Forall (λ l, length l ≤ length g + 1) groups) as Hhigh.
  { apply Forall_forall. intros l [j Hj]%list_elem_of_lookup.
    specialize (Hs _ _ _ _ Hj Hi). lia. }
  apply list_elem_of_split_length in Hi as (l1 & l2 & -> & _).
  apply Forall_app in Hlow as [Hlow1 [_ Hlow2]%Forall_cons].
  apply Forall_app in Hhigh as [Hhigh1 [_ Hhigh2]%Forall_cons].
  apply length_concat_ge in Hlow1, Hlow2.
  apply length_concat_le in Hhigh1, Hhigh2.
  rewrite concat_app, concat_cons, !length_app, length_cons.
  set (n1 := length (concat l1)) in *. set (n2 := length (concat l2)) in *.
  set (k1 := length l1) in *. set (k2 := length l2) in *.
  set (s := length g) in *.
  assert (0 < Z.of_nat (k1 + S k2))%Z as Hk by lia.
  pose proof (ceil_div_spec (Z.of_nat (n1 + (s + n2))) _ Hk) as Hceil.
  split.
  - cut (Z.of_nat (n1 + (s + n2)) / Z.of_nat (k1 + S k2)
          < Z.of_nat s + 1)%Z; [lia|].
    apply Z.div_lt_upper_bound; [done|]. nia.
  - destruct (decide (s = 0)) as [->|Hs0]; [nia|].
    assert ((s - 1) * k1 + ((s - 1) * k2) ≤ n1 + n2) as Hsum by lia.
    nia.
Qed.

(** X13.  Without apart-constraints, and with nobody named after a
    property of [Object.prototype], a run makes one attempt at most:
    with at least one group and no more groups than people, it fails
    with [errorCliqueSize] if a unit is too large (before any call to
    [Math.random]) and otherwise resolves with groups, after one call
    to [Math.random] for each unit.  It never fails with
    [errorFailedConstraints]. *)
Theorem no_apart_one_attempt people finalGroupCount togetherConstraints
  random :
  ordinary people →
  drawn_from people togetherConstraints →
  (1 ≤ finalGroupCount ≤ Z.of_nat (length people))%Z →
  ∃ shuffleUnits,
    units people togetherConstraints = Some shuffleUnits ∧
    if existsb (oversized people finalGroupCount) shuffleUnits
    then partition people finalGroupCount [] togetherConstraints random
         = Some (Failure errorCliqueSize, 0)
    else ∃ generatedGroups,
           partition people finalGroupCount [] togetherConstraints random
           = Some (Groups generatedGroups, length shuffleUnits).
Proof.
  intros Hord Hdrawn Hk.
  destruct (units_total people togetherConstraints) as (us & Hu & _);
    [done| |].
  { intros c x. by apply drawn_from_elem. }
  exists us. split; [done|].
  destruct (existsb (oversized people finalGroupCount) us) eqn:Ho.
  - unfold partition. rewrite bool_decide_false by lia. cbn [first_conflict].
    by rewrite (attempt_loop_oversized _ _ _ _ _ _ _ _ Hu Ho).
  - destruct (partition_no_apart _ _ _ random _ Hk Hu Ho) as (gs & -> & _).
    by exists gs.
Qed.

Lemma no_apart_one_attempt_scenario_A :
  ∃ shuffleUnits,
    units ["A"; "B"; "C"; "D"]%string
          [types.Build_Constraint ["A"; "B"]%string] = Some shuffleUnits ∧
    if existsb (oversized ["A"; "B"; "C"; "D"]%string 2) shuffleUnits
    then partition ["A"; "B"; "C"; "D"]%string 2 []
                   [types.Build_Constraint ["A"; "B"]%string] (λ n, n)
         = Some (Failure errorCliqueSize, 0)
    else ∃ generatedGroups,
           partition ["A"; "B"; "C"; "D"]%string 2 []
                     [types.Build_Constraint ["A"; "B"]%string] (λ n, n)
           = Some (Groups generatedGroups, length shuffleUnits).
Proof.
  apply (no_apart_one_attempt ["A"; "B"; "C"; "D"]%string 2
           [types.Build_Constraint ["A"; "B"]%string] (λ n, n)).
  - by_evaluation.
  - by_evaluation.
  - simpl. lia.
Defined.



(** X15.  Without any constraint, and on a list of people without
    duplicates and without the name [__proto__], the groups of a run
    are an even split: every group has
    the quotient of the number of people by the number of groups,
    rounded down or up. *)
Theorem unconstrained_even people finalGroupCount random generatedGroups
  calls :
  NoDup people →
  "__proto__"%string ∉ people →
  partition people finalGroupCount [] [] random
  = Some (Groups generatedGroups, calls) →
  Forall (λ g, (Z.of_nat (length people) / finalGroupCount
                ≤ Z.of_nat (length g)
                ≤ ceil_div (Z.of_nat (length people)) finalGroupCount)%Z)
         generatedGroups.
Proof.
  intros Hnd _ Hrun.
  pose proof (partition_length _ _ _ _ _ _ _ Hrun) as Hlen.
  destruct (partition_Groups _ _ _ _ _ _ _ Hrun)
    as (us & _ & _ & Hu & Ho & Hk & _).
  destruct (partition_Groups_inv _ _ _ _ _ _ _ (Forall_nil_2 _) Hrun)
    as (_ & _ & _ & Hperm & _).
  pose proof (units_singletons people us Hnd Hu) as Hone.
  destruct (decide (1 ≤ finalGroupCount)%Z) as [Hk1|Hk0].
  2:{ destruct generatedGroups; [constructor|]. simpl in Hlen. lia. }
  destruct (partition_no_apart _ _ _ random _ (conj Hk1 Hk) Hu Ho)
    as (gs & Hrun' & Hs).
  rewrite Hrun in Hrun'. injection Hrun' as <- _.
  apply Forall_forall. intros g Hg.
  pose proof (spread_even generatedGroups g (Hs 1 Hone) Hg) as Heven.
  rewrite Hperm, Hlen, Z2Nat.id in Heven by lia. done.
Qed.

Lemma unconstrained_even_five :
  Forall (λ g, (Z.of_nat (length ["A"; "B"; "C"; "D"; "E"]%string) / 2
                ≤ Z.of_nat (length g)
                ≤ ceil_div (Z.of_nat (length ["A"; "B"; "C"; "D"; "E"]%string))
                           2)%Z)
         [["A"; "C"; "E"]; ["B"; "D"]]%string.
Proof.
  apply (unconstrained_even ["A"; "B"; "C"; "D"; "E"]%string 2 (λ n, n) _ 5).
  - by_evaluation.
  - by_evaluation.
  - vm_compute. reflexivity.
Defined.

(** ** Runs that end *)

(** X28.  With nobody named after a property of [Object.prototype],
    and on together-constraints that name people of the list, the run
    ends, whatever the oracle.  It makes at most 50 attempts: it calls
    [Math.random] at most 50 times per unit.  When the validations
    pass, it fails with [errorFailedConstraints]
    ([UnsatisfiableConstraints]) exactly when none of the 50 attempts
    places every unit. *)
Theorem partition_terminates people finalGroupCount apartConstraints
  togetherConstraints random :
  ordinary people →
  drawn_from people togetherConstraints →
  ∃ shuffleUnits result calls,
    units people togetherConstraints = Some shuffleUnits ∧
    partition people finalGroupCount apartConstraints togetherConstraints
              random = Some (result, calls) ∧
    calls ≤ 50 * length shuffleUnits ∧
    ((finalGroupCount ≤ Z.of_nat (length people))%Z →
     first_conflict apartConstraints togetherConstraints = None →
     existsb (oversized people finalGroupCount) shuffleUnits = false →
     (result = Failure errorFailedConstraints ↔
      ∀ n, n < 50 →
        attempt finalGroupCount apartConstraints random shuffleUnits
                (n * length shuffleUnits) = None)).
Proof.
  intros Hord Hdrawn.
  destruct (units_total people togetherConstraints) as (us & Hu & _);
    [done| |].
  { intros c x. by apply drawn_from_elem. }
  exists us. unfold partition.
  case_bool_decide as Hlen.
  { eexists _, _. split_and!; [done..|lia|lia]. }
  destruct (first_conflict apartConstraints togetherConstraints)
    as [[a b]|] eqn:Hc.
  { eexists _, _. split_and!; [done..|lia|done]. }
  destruct (existsb (oversized people finalGroupCount) us) eqn:Ho.
  { rewrite (attempt_loop_oversized _ _ _ _ _ _ _ _ Hu Ho).
    eexists _, _. split_and!; [done..|lia|done]. }
  destruct (attempt_loop_cases people finalGroupCount apartConstraints
              togetherConstraints random us 50 0 Hu Ho)
    as [(n & tg & Hn & _ & Hok & ->)|[Hfail ->]].
  - eexists _, _. split_and!; [done..| |].
    + simpl. nia.
    + intros _ _ _. split; [done|].
      intros Hfail. rewrite Nat.add_0_l, Hfail in Hok; done.
  - eexists _, _. split_and!; [done..|simpl; lia|].
    intros _ _ _. split; [|done]. intros _ n Hn.
    by rewrite <- (Hfail n Hn).
Qed.

(** Three people who must all stay apart do not fit in two groups: all
    50 attempts are made and fail. *)
Example three_apart_two_groups :
  partition ["A"; "B"; "C"]%string 2
            [types.Build_Constraint ["A"; "B"; "C"]%string] [] (λ n, n)
  = Some (Failure errorFailedConstraints, 150).
Proof. vm_compute. reflexivity. Qed.

Lemma partition_terminates_three_apart :
  ∃ shuffleUnits result calls,
    units ["A"; "B"; "C"]%string [] = Some shuffleUnits ∧
    partition ["A"; "B"; "C"]%string 2
              [types.Build_Constraint ["A"; "B"; "C"]%string] [] (λ n, n)
    = Some (result, calls) ∧
    calls ≤ 50 * length shuffleUnits ∧
    ((2 ≤ Z.of_nat (length ["A"; "B"; "C"]%string))%Z →
     first_conflict [types.Build_Constraint ["A"; "B"; "C"]%string] [] = None →
     existsb (oversized ["A"; "B"; "C"]%string 2) shuffleUnits = false →
     (result = Failure errorFailedConstraints ↔
      ∀ n, n < 50 →
        attempt 2 [types.Build_Constraint ["A"; "B"; "C"]%string] (λ n, n)
                shuffleUnits (n * length shuffleUnits) = None)).
Proof.
  apply (partition_terminates ["A"; "B"; "C"]%string 2
           [types.Build_Constraint ["A"; "B"; "C"]%string] [] (λ n, n)).
  - by_evaluation.
  - by_evaluation.
Defined.

(** ** The number of groups and the calls to Math.random *)

(** X16.  A negative number of groups (the number input of the form
    accepts one) is not rejected as such: with nobody named after a
    property of [Object.prototype], and past the check for conflicts,
    the run fails with [errorCliqueSize], without calling
    [Math.random]. *)
Theorem negative_group_count people finalGroupCount apartConstraints
  togetherConstraints random :
  (finalGroupCount < 0)%Z → people ≠ [] →
  ordinary people →
  drawn_from people togetherConstraints →
  first_conflict apartConstraints togetherConstraints = None →
  partition people finalGroupCount apartConstraints togetherConstraints random
  = Some (Failure errorCliqueSize, 0).
Proof.
  intros Hk Hne Hord Hdrawn Hc.
  destruct (units_total people togetherConstraints)
    as (us & Hu & Hperm & Hunits & _); [done| |].
  { intros c x. by apply drawn_from_elem. }
  unfold partition. rewrite bool_decide_false, Hc by lia.
  apply (attempt_loop_oversized _ _ _ _ _ us); [done|].
  destruct us as [|unit us].
  { simpl in Hperm. apply Permutation_nil_l in Hperm. done. }
  cbn [existsb]. apply orb_true_iff. left.
  apply oversized_true; [lia|].
  apply Forall_cons in Hunits as [Hunit _]. destruct unit; [done|].
  unfold ceil_div. simpl length.
  pose proof (Z.div_mod (- Z.of_nat (length people)) finalGroupCount) as Hdiv.
  pose proof (Z.mod_neg_bound (- Z.of_nat (length people)) finalGroupCount Hk)
    as Hmod.
  nia.
Qed.

Lemma negative_group_count_minus_three :
  partition ["A"; "B"]%string (-3) [] [] (λ n, n)
  = Some (Failure errorCliqueSize, 0).
Proof.
  apply (negative_group_count ["A"; "B"]%string (-3) [] [] (λ n, n)).
  - lia.
  - done.
  - by_evaluation.
  - constructor.
  - reflexivity.
Defined.



(** ** Names listed more than once *)

(** The units are classes: no unit is listed twice, and two units with
    a common member are one unit. *)
Lemma units_classes (people : list string)
  (togetherConstraints : list types.Constraint) shuffleUnits :
  drawn_from people togetherConstraints →
  units people togetherConstraints = Some shuffleUnits →
  concat shuffleUnits ≡ₚ people ∧ NoDup shuffleUnits ∧
  ∀ u v x, u ∈ shuffleUnits → v ∈ shuffleUnits →
           x ∈ u → x ∈ v → u = v.
Proof.
  intros Hdrawn Hunits.
  destruct (union_all_total (init_parent people) togetherConstraints)
    as (parent0 & Hall0 & (Hdom & Hwf & _) & _).
  { apply init_parent_wf. }
  { intros c x Hc Hx. apply init_parent_dom. by eapply drawn_from_elem. }
  destruct (units_unfold people togetherConstraints parent0 Hall0 Hdom Hwf)
    as [(cliques & Hu' & (Hnd & Hperm & Hall) & _)| [Hnone _]]; [|congruence].
  rewrite Hunits in Hu'. injection Hu' as ->.
  pose proof (Object_values_perm cliques) as HOV.
  rewrite Forall_forall in Hall.
  assert (∀ k1 ms1 k2 ms2 x, (k1, ms1) ∈ cliques → (k2, ms2) ∈ cliques →
            x ∈ ms1 → x ∈ ms2 → k1 = k2) as Hkey.
  { intros k1 ms1 k2 ms2 x H1 H2 Hx1 Hx2.
    destruct (Hall _ H1) as [_ Hr1]. destruct (Hall _ H2) as [_ Hr2].
    destruct (Hr1 x Hx1) as [n1 Hn1]. destruct (Hr2 x Hx2) as [n2 Hn2].
    by destruct (reach_fun _ _ _ _ _ _ Hn1 Hn2). }
  split_and!.
  - by rewrite (concat_perm _ _ HOV).
  - rewrite HOV. apply NoDup_fmap_2_strong; [|by eapply NoDup_fmap_1].
    intros [k1 ms1] [k2 ms2] H1 H2 Hms. simpl in Hms. subst ms2.
    destruct (Hall _ H1) as [Hne _]. simpl in Hne.
    destruct ms1 as [|x ms1]; [done|].
    f_equal. eapply (Hkey _ _ _ _ x); [done..|by left|by left].
  - intros u v x Hu Hv Hxu Hxv. rewrite HOV in Hu, Hv.
    apply list_elem_of_fmap in Hu as ([k1 ms1] & -> & H1).
    apply list_elem_of_fmap in Hv as ([k2 ms2] & -> & H2).
    simpl in *. pose proof (Hkey _ _ _ _ x H1 H2 Hxu Hxv) as ->.
    by eapply NoDup_fst_fun.
Qed.

Lemma filter_eq_notin (p : string) (l : list string) :
  p ∉ l → filter (λ x, x = p) l = [].
Proof.
  induction l as [|x l IH]; intros Hp; [done|].
  apply not_elem_of_cons in Hp as [Hx Hl].
  rewrite filter_cons, decide_False by done. auto.
Qed.

Lemma filter_eq_length (p : string) (l l' : list string) :
  l ⊆+ l' → length (filter (λ x, x = p) l) ≤ length (filter (λ x, x = p) l').
Proof.
  intros [k Hk]%submseteq_Permutation.
  rewrite Hk, filter_app, length_app. lia.
Qed.

Lemma elem_submseteq_concat (gs : list (list string)) (g : list string) :
  g ∈ gs → g ⊆+ concat gs.
Proof.
  intros (l1 & l2 & ->)%list_elem_of_split.
  rewrite concat_app, concat_cons.
  by apply submseteq_inserts_l, submseteq_inserts_r.
Qed.

Lemma copies_in_one (us : list (list string)) (unit : list string)
  (p : string) :
  NoDup us → unit ∈ us → (∀ v, v ∈ us → p ∈ v → v = unit) →
  length (filter (λ x, x = p) (concat us))
  = length (filter (λ x, x = p) unit).
Proof.
  induction us as [|v us IH]; intros Hnd Hunit Hone.
  { by apply elem_of_nil in Hunit. }
  apply NoDup_cons in Hnd as [Hv Hnd].
  simpl. rewrite filter_app, length_app.
  destruct (decide (v = unit)) as [->|Hne].
  - rewrite (filter_eq_notin p (concat us)); [simpl; lia|].
    intros (w & Hw & Hpw)%elem_of_concat.
    destruct Hv. rewrite <- (Hone w); [done|by right|done].
  - apply elem_of_cons in Hunit as [->|Hunit]; [done|].
    rewrite (filter_eq_notin p v), IH; [done..| |].
    + intros w Hw. apply Hone. by right.
    + intros Hp. destruct Hne. apply Hone; [by left|done].
Qed.

(** All the entries of a name are in one unit. *)
Lemma units_copies (people : list string)
  (togetherConstraints : list types.Constraint) (p : string) shuffleUnits :
  drawn_from people togetherConstraints → p ∈ people →
  units people togetherConstraints = Some shuffleUnits →
  ∃ unit,
    unit ∈ shuffleUnits ∧
    length (filter (λ x, x = p) unit) = length (filter (λ x, x = p) people).
Proof.
  intros Hdrawn Hp Hu.
  destruct (units_classes people togetherConstraints shuffleUnits Hdrawn Hu)
    as (Hperm & Hnd & Hclass).
  assert (∃ unit, unit ∈ shuffleUnits ∧ p ∈ unit) as (unit & Hunit & Hpu).
  { rewrite <- Hperm in Hp. by apply elem_of_concat in Hp. }
  exists unit. split; [done|].
  rewrite <- Hperm. symmetry. apply copies_in_one; [done..|].
  intros v Hv Hpv. by eapply Hclass.
Qed.

(** A unit is placed whole, with every entry of its names. *)
Lemma pack_submseteq apartConstraints
  (shuffledUnits tempGroups tempGroups' : list (list string)) :
  pack apartConstraints shuffledUnits tempGroups = Some tempGroups' →
  (∀ i g, tempGroups !! i = Some g →
          ∃ g', tempGroups' !! i = Some g' ∧ g ⊆+ g') ∧
  (∀ unit, unit ∈ shuffledUnits → ∃ g', g' ∈ tempGroups' ∧ unit ⊆+ g').
Proof.
  revert tempGroups. induction shuffledUnits as [|unit rest IH];
    intros tempGroups Hpack.
  { simpl in Hpack. injection Hpack as <-. split.
    - intros i g Hi. by exists g.
    - by intros unit Hunit%elem_of_nil. }
  cbn [pack] in Hpack.
  pose proof (place_groupOrder apartConstraints tempGroups unit) as Hplace.
  destruct (place apartConstraints (groupOrder tempGroups) tempGroups unit)
    as [tg|]; [|done].
  destruct Hplace as (i & g & Hi & _ & _ & ->).
  destruct (IH _ Hpack) as [Hold Hnew].
  pose proof (lookup_lt_Some _ _ _ Hi) as Hlt.
  split.
  - intros j h Hj. destruct (decide (j = i)) as [->|Hne].
    + rewrite Hi in Hj. injection Hj as ->.
      destruct (Hold i (h ++ unit)) as (g' & Hg' & Hsub).
      { by apply list_lookup_insert_eq. }
      exists g'. split; [done|]. etrans; [|done].
      by apply submseteq_inserts_r.
    + apply Hold. by rewrite list_lookup_insert_ne.
  - intros u [->|Hu]%elem_of_cons; [|by apply Hnew].
    destruct (Hold i (g ++ unit)) as (g' & Hg' & Hsub).
    { by apply list_lookup_insert_eq. }
    exists g'. split; [by eapply list_elem_of_lookup_2|].
    etrans; [|done]. by apply submseteq_inserts_l.
Qed.



(** X19.  With nobody named after a property of [Object.prototype]:
    a name listed more often than the ceiling of the number of
    people by the number of groups allows makes the run fail with
    [errorCliqueSize], with or without together-constraints: the
    entries of one name make one unit. *)
Theorem listed_too_often people finalGroupCount apartConstraints
  togetherConstraints random (p : string) :
  ordinary people →
  drawn_from people togetherConstraints →
  (1 ≤ finalGroupCount ≤ Z.of_nat (length people))%Z →
  first_conflict apartConstraints togetherConstraints = None →
  (ceil_div (Z.of_nat (length people)) finalGroupCount
   < Z.of_nat (length (filter (λ x, x = p) people)))%Z →
  partition people finalGroupCount apartConstraints togetherConstraints random
  = Some (Failure errorCliqueSize, 0).
Proof.
  intros Hord Hdrawn Hk Hc Hmany.
  assert (p ∈ people) as Hp.
  { destruct (decide (p ∈ people)) as [|Hnot]; [done|].
    rewrite (filter_eq_notin p people Hnot) in Hmany. simpl in Hmany.
    pose proof (ceil_div_spec (Z.of_nat (length people)) finalGroupCount)
      as Hceil. nia. }
  destruct (units_total people togetherConstraints) as (us & Hu & _);
    [done| |].
  { intros c x. by apply drawn_from_elem. }
  destruct (units_copies people togetherConstraints p us Hdrawn Hp Hu)
    as (unit & Hunit & Hcount).
  unfold partition. rewrite bool_decide_false, Hc by lia.
  apply (attempt_loop_oversized _ _ _ _ _ us); [done|].
  apply existsb_exists. exists unit. split; [by apply list_elem_of_In|].
  apply oversized_true; [lia|].
  pose proof (length_filter (λ x, x = p) unit) as Hle. lia.
Qed.

Lemma listed_too_often_twice :
  partition ["A"; "A"]%string 2 [] [] (λ n, n)
  = Some (Failure errorCliqueSize, 0).
Proof.
  apply (listed_too_often ["A"; "A"]%string 2 [] [] (λ n, n) "A"%string).
  - by_evaluation.
  - constructor.
  - simpl. lia.
  - reflexivity.
  - vm_compute. reflexivity.
Defined.

(** ** find and union *)

(** After [find] the name points at its root. *)
Lemma find_reach_compressed (parent : gmap string string) n x r fuel :
  reach parent n x r → n < fuel →
  ∃ parent', find fuel parent (Some x) = Some (parent', Some r) ∧
             parent' !! x = Some r.
Proof.
  intros H. revert fuel.
  induction H as [x Hx|n x y r Hx Hne H IH]; intros [|fuel] Hlt; try lia.
  - exists parent. simpl. by rewrite decide_True.
  - destruct (IH fuel) as (parent1 & Hfind & _); [lia|].
    exists (<[x := r]> parent1). simpl.
    rewrite decide_False by congruence.
    rewrite Hx, Hfind. split; [done|]. apply lookup_insert_eq.
Qed.

(** X20.  On a table in which every name leads to a root, [find]
    returns the root of the name it is given.  It may shorten paths:
    afterwards the name points at its root; but the table has the same
    names and every name has the root it had.  A second [find] of the
    same name changes nothing. *)
Theorem find_root (parent : gmap string string) (x : string) :
  wf parent → x ∈ dom parent →
  ∃ parent' r,
    find (find_fuel parent) parent (Some x) = Some (parent', Some r) ∧
    (∃ n, reach parent n x r) ∧
    parent' !! x = Some r ∧
    same_roots parent parent' ∧
    find (find_fuel parent') parent' (Some x) = Some (parent', Some r).
Proof.
  intros Hwf Hx.
  destruct (find_total parent x Hwf Hx) as (parent' & r & Hfind & Hs & n & Hr).
  destruct (find_reach_compressed parent n x r (find_fuel parent) Hr)
    as (parent'' & Hfind' & Hx').
  { apply reach_lt_size in Hr. unfold find_fuel. lia. }
  rewrite Hfind in Hfind'. injection Hfind' as <-.
  exists parent', r. split_and!; [done|by eauto|done|done|].
  destruct (proj2 Hs _ _ _ Hr) as [m Hr'].
  pose proof (reach_is_root _ _ _ _ Hr') as Hroot.
  unfold find_fuel. replace (size parent' + 3) with (S (S (size parent' + 1)))
    by lia.
  cbn [find key]. rewrite Hx'.
  destruct (decide (Some r = Some x)) as [[= ->]|Hne]; [done|].
  cbn [key]. rewrite Hroot, decide_True by done.
  cbn [store]. by rewrite insert_id.
Qed.

Lemma find_root_chain :
  ∃ parent' r,
    find (find_fuel chain_parent) chain_parent (Some "A"%string)
    = Some (parent', Some r) ∧
    (∃ n, reach chain_parent n "A"%string r) ∧
    parent' !! "A"%string = Some r ∧
    same_roots chain_parent parent' ∧
    find (find_fuel parent') parent' (Some "A"%string)
    = Some (parent', Some r).
Proof.
  apply (find_root chain_parent "A"%string).
  - intros x Hx.
    assert (reach chain_parent 0 "C"%string "C"%string) as HC
      by (by constructor).
    assert (reach chain_parent 1 "B"%string "C"%string) as HB
      by (by econstructor).
    assert (reach chain_parent 2 "A"%string "C"%string) as HA
      by (by econstructor).
    unfold chain_parent in Hx. rewrite dom_list_to_map_L in Hx. simpl in Hx.
    rewrite !elem_of_union, !elem_of_singleton in Hx.
    destruct Hx as [->|[->|[->|Hx]]]; eauto.
    by apply elem_of_empty in Hx.
  - by_evaluation.
Defined.

(** X21.  On such a table [union] of two names joins their two classes
    and nothing else: the table keeps its names, and afterwards two
    names have one root exactly when they had one before, or when one
    was in the class of the first name and the other in the class of
    the second. *)
Theorem union_joins (parent : gmap string string) (i j : string) :
  wf parent → i ∈ dom parent → j ∈ dom parent →
  ∃ parent',
    union parent (Some i) (Some j) = Some parent' ∧
    dom parent' = dom parent ∧ wf parent' ∧
    ∀ x y, conn parent' x y ↔
           conn parent x y ∨
           (conn parent x i ∧ conn parent y j) ∨
           (conn parent x j ∧ conn parent y i).
Proof.
  intros Hwf Hi Hj.
  destruct (union_total parent i j Hwf Hi Hj)
    as (parent' & Hunion & (Hdom & Hwf' & Hgrows) & Hij).
  exists parent'. split_and!; [done..|].
  intros x y. split.
  - unfold union in Hunion.
    destruct (find_total parent i Hwf Hi) as (p1 & ri & Hf1 & Hs1 & ni & Hri).
    rewrite Hf1 in Hunion.
    pose proof (same_roots_wf _ _ Hs1 Hwf) as Hwf1.
    destruct (find_total p1 j Hwf1) as (p2 & rj & Hf2 & Hs2 & nj & Hrj).
    { by rewrite (proj1 Hs1). }
    rewrite Hf2 in Hunion. injection Hunion as <-.
    pose proof (same_roots_wf _ _ Hs2 Hwf1) as Hwf2.
    pose proof (same_roots_trans _ _ _ Hs1 Hs2) as Hs.
    destruct (proj2 Hs _ _ _ Hri) as [ni' Hri'].
    destruct (proj2 Hs2 _ _ _ Hrj) as [nj' Hrj'].
    assert (∀ a b, conn p2 a b → conn parent a b) as Hback.
    { intros a b. by apply same_roots_conn_inv. }
    case_decide as Hne.
    { intros Hxy. left. exact (Hback _ _ Hxy). }
    assert (ri ≠ rj) as Hne' by congruence.
    pose proof (reach_is_root _ _ _ _ Hri') as Hi2.
    pose proof (reach_is_root _ _ _ _ Hrj') as Hj2.
    assert (conn p2 ri i) as Hci by by exists ri, 0, ni'; split; [constructor|].
    assert (conn p2 rj j) as Hcj by by exists rj, 0, nj'; split; [constructor|].
    simpl. intros [Hxy|[[Hx Hy]|[Hx Hy]]]%link_conn_inv; try done.
    + left. exact (Hback _ _ Hxy).
    + right. left.
      split; [exact (Hback _ _ (conn_trans _ _ _ _ Hx Hci))
             |exact (Hback _ _ (conn_trans _ _ _ _ Hy Hcj))].
    + right. right.
      split; [exact (Hback _ _ (conn_trans _ _ _ _ Hx Hcj))
             |exact (Hback _ _ (conn_trans _ _ _ _ Hy Hci))].
  - intros [Hxy|[[Hx Hy]|[Hx Hy]]].
    + exact (Hgrows _ _ Hxy).
    + pose proof (Hgrows _ _ Hx) as Hx'. pose proof (Hgrows _ _ Hy) as Hy'.
      exact (conn_trans _ _ _ _ Hx'
               (conn_trans _ _ _ _ Hij (conn_sym _ _ _ Hy'))).
    + pose proof (Hgrows _ _ Hx) as Hx'. pose proof (Hgrows _ _ Hy) as Hy'.
      exact (conn_trans _ _ _ _ Hx'
               (conn_trans _ _ _ _ (conn_sym _ _ _ Hij) (conn_sym _ _ _ Hy'))).
Qed.

Lemma union_joins_fresh :
  ∃ parent',
    union (init_parent ["A"; "B"; "C"]%string) (Some "A"%string)
          (Some "B"%string) = Some parent' ∧
    dom parent' = dom (init_parent ["A"; "B"; "C"]%string) ∧ wf parent' ∧
    ∀ x y, conn parent' x y ↔
           conn (init_parent ["A"; "B"; "C"]%string) x y ∨
           (conn (init_parent ["A"; "B"; "C"]%string) x "A"%string
            ∧ conn (init_parent ["A"; "B"; "C"]%string) y "B"%string) ∨
           (conn (init_parent ["A"; "B"; "C"]%string) x "B"%string
            ∧ conn (init_parent ["A"; "B"; "C"]%string) y "A"%string).
Proof.
  apply (union_joins (init_parent ["A"; "B"; "C"]%string)
           "A"%string "B"%string).
  - apply init_parent_wf.
  - by_evaluation.
  - by_evaluation.
Defined.

(** * Properties of shuffleArray *)

Lemma shuffle_loop_any_order {A : Type} (currentIndex : nat)
  (done rest target : list A) (calls : nat) :
  length done = currentIndex → target ≡ₚ done →
  ∃ random,
    (shuffle_loop random currentIndex (done ++ rest) calls).1
    = target ++ rest.
Proof.
  revert done rest target calls.
  induction currentIndex as [|n IH]; intros pre suf target calls Hlen Hperm.
  { destruct pre; [|done]. apply Permutation_nil_r in Hperm as ->.
    by exists (λ _, 0). }
  destruct (decide (target = [])) as [->|Hne].
  { apply Permutation_nil_l in Hperm. by subst. }
  apply exists_last in Hne as (target' & x & ->).
  assert (x ∈ pre) as [j Hj]%list_elem_of_lookup.
  { rewrite <- Hperm. apply elem_of_app. right. by left. }
  pose proof (lookup_lt_Some _ _ _ Hj) as Hjlt.
  destruct (lookup_lt_is_Some_2 pre n) as [y Hy]; [lia|].
  set (array := pre ++ suf).
  set (array' := <[j := y]> (<[n := x]> array)).
  assert (swap array n j = array') as Hswap.
  { unfold swap, array. by rewrite !lookup_app_l, Hj, Hy by lia. }
  assert (array' !! n = Some x) as Hn.
  { unfold array'. destruct (decide (j = n)) as [->|Hjn].
    - rewrite Hj in Hy. injection Hy as ->.
      apply list_lookup_insert_eq. rewrite length_insert. unfold array.
      rewrite length_app. lia.
    - rewrite list_lookup_insert_ne by done.
      apply list_lookup_insert_eq. unfold array. rewrite length_app. lia. }
  assert (drop (S n) array' = suf) as Hdrop.
  { unfold array'. rewrite !drop_insert_lt by lia.
    unfold array. by rewrite <- Hlen, drop_app_length. }
  pose proof (take_drop_middle _ _ _ Hn) as Hsplit. rewrite Hdrop in Hsplit.
  assert (target' ≡ₚ take n array') as Hperm'.
  { apply (Permutation_app_inv_r (x :: suf)).
    rewrite Hsplit, <- Hswap, swap_perm. unfold array.
    rewrite <- Hperm, <- (assoc_L (++)). done. }
  destruct (IH (take n array') (x :: suf) target' (S calls))
    as [random' Hrun]; [|done|].
  { apply length_take_le. rewrite <- Hswap.
    rewrite (Permutation_length (swap_perm _ _ _)).
    unfold array. rewrite length_app. lia. }
  exists (λ c, if decide (c = calls) then j else random' c).
  cbn [shuffle_loop]. rewrite decide_True by done.
  rewrite Nat.mod_small by lia. fold array. rewrite Hswap, <- Hsplit.
  rewrite (shuffle_loop_ext _ random').
  - rewrite Hrun. by rewrite <- (assoc_L (++)).
  - intros c Hc. rewrite decide_False; [done|lia].
Qed.

(** X22.  [shuffleArray] permutes its argument in place.  After the
    call the array, at the address it had, holds its elements in some
    order; no other array has changed; and [Math.random] has been
    called once for each element. *)
Theorem shuffleArray_in_place (random : nat → nat) (array : loc)
  (elems : list val) (calls : nat) (h : gmap loc (list val)) :
  h !! array = Some elems →
  ∃ elems',
    shuffleArray_store random array calls h
    = Some (calls + length elems, <[array := elems']> h) ∧
    elems' ≡ₚ elems ∧
    elems' = (shuffleArray random elems calls).1.
Proof.
  intros Harray. unfold shuffleArray_store.
  rewrite bind_eq, (read_at h array elems) by done.
  pose proof (shuffleArray_perm random elems calls) as Hperm.
  pose proof (shuffleArray_calls random elems calls) as Hcalls.
  destruct (shuffleArray random elems calls) as [elems' calls'].
  simpl in Hperm, Hcalls. subst calls'.
  exists elems'. split_and!; [|done..].
  rewrite bind_eq. unfold write. by rewrite Harray.
Qed.

Lemma shuffleArray_in_place_scenario_A :
  ∃ elems',
    shuffleArray_store (λ n, n) 0 7 scenario_A_store
    = Some (7 + length (Str <$> ["A"; "B"; "C"; "D"]%string),
            <[0 := elems']> scenario_A_store) ∧
    elems' ≡ₚ Str <$> ["A"; "B"; "C"; "D"]%string ∧
    elems' = (shuffleArray (λ n, n) (Str <$> ["A"; "B"; "C"; "D"]%string) 7).1.
Proof.
  apply (shuffleArray_in_place (λ n, n) 0 (Str <$> ["A"; "B"; "C"; "D"]%string)
           7 scenario_A_store).
  reflexivity.
Defined.

(** X23.  Every order of the elements is a possible outcome of
    [shuffleArray]: for each one there are values of [Math.random]
    that produce it. *)
Theorem shuffleArray_any_order {A : Type} (array target : list A)
  (calls : nat) :
  target ≡ₚ array →
  ∃ random, (shuffleArray random array calls).1 = target.
Proof.
  intros Hperm. unfold shuffleArray.
  destruct (shuffle_loop_any_order (length array) array [] target calls
              eq_refl Hperm) as [random Hrun].
  exists random. by rewrite !app_nil_r in Hrun.
Qed.

Lemma shuffleArray_any_order_three :
  ∃ random,
    (shuffleArray random ["A"; "B"; "C"]%string 0).1
    = ["C"; "A"; "B"]%string.
Proof.
  apply (shuffleArray_any_order ["A"; "B"; "C"]%string
           ["C"; "A"; "B"]%string 0).
  by_evaluation.
Defined.

(** * Properties of the names and images *)

Lemma NoDup_default_names (group : string)
  (currentGroups : list (list string)) :
  NoDup (Service.default_names group currentGroups).
Proof.
  unfold Service.default_names.
  rewrite (imap_seq_0 currentGroups
             (λ i, group +:+ " " +:+ pretty (i + 1))).
  apply NoDup_fmap_2; [|apply NoDup_seq].
  intros i j Hij. apply (inj (String.app group)) in Hij.
  apply (inj (String.app " ")) in Hij. apply (inj pretty) in Hij. lia.
Qed.

Lemma length_generateNames group service currentGroups :
  length (Service.generateNames group service currentGroups).1
  = length currentGroups.
Proof.
  unfold Service.generateNames, Service.default_names.
  destruct service as [|generatedNames|]; simpl;
    rewrite ?length_fmap; try apply length_imap.
  case_bool_decide; simpl; [done|]. rewrite length_fmap. apply length_imap.
Qed.

Lemma length_generateImagesForGroups client service names :
  length (Service.generateImagesForGroups client service names).1
  = length names.
Proof.
  unfold Service.generateImagesForGroups. destruct client; simpl.
  - apply length_imap.
  - apply length_replicate.
Qed.

Lemma image_of_nonempty (parts : list Service.part) :
  Service.image_of parts ≠ ""%string.
Proof. induction parts as [|[data|] parts IH]; done. Qed.

(** X24.  [generateNames] returns one entry for each group, whatever
    the service answers.  It returns the array of the service as it
    is, whatever the entries are (they are not checked to be strings),
    and sets no message, exactly when the answer is an array with one
    entry for each group; otherwise it sets [errorNameGeneration] and
    returns the default names, the label followed by 1, 2, ..., which
    are strings and all different. *)
Theorem generateNames_one_each (group : string) (service : Service.answer)
  (currentGroups : list (list string)) :
  length (Service.generateNames group service currentGroups).1
  = length currentGroups ∧
  match (Service.generateNames group service currentGroups).2 with
  | None =>
      service = Service.parsed
                  (Service.generateNames group service currentGroups).1
  | Some e =>
      e = Service.errorNameGeneration ∧
      (∀ generatedNames, service = Service.parsed generatedNames →
                         length generatedNames ≠ length currentGroups) ∧
      NoDup (Service.generateNames group service currentGroups).1 ∧
      ∀ i, i < length currentGroups →
           (Service.generateNames group service currentGroups).1 !! i
           = Some (Service.text (group +:+ " " +:+ pretty (i + 1)))
  end.
Proof.
  split; [apply length_generateNames|].
  assert (∀ i, i < length currentGroups →
               (Service.text <$> Service.default_names group currentGroups)
                 !! i
               = Some (Service.text (group +:+ " " +:+ pretty (i + 1))))
    as Hdefault.
  { intros i Hi. unfold Service.default_names.
    rewrite list_lookup_fmap, list_lookup_imap.
    by destruct (lookup_lt_is_Some_2 currentGroups i Hi) as [g ->]. }
  assert (NoDup (Service.text <$> Service.default_names group currentGroups))
    as Hnd.
  { apply NoDup_fmap_2; [by intros a b [= ->]|apply NoDup_default_names]. }
  unfold Service.generateNames.
  destruct service as [|generatedNames|]; simpl.
  - done.
  - case_bool_decide as Hlen; simpl; [done|].
    split_and!; [done| |done|done].
    by intros ? [= <-].
  - done.
Qed.

(** X25.  [generateImagesForGroups] returns one entry for each name.
    When the client is built, no message is set and the entry of a
    name is empty exactly when the name is falsy: the empty string, or
    an entry of the service that is no string and is falsy (no request
    is made for it); when the client is not built, every entry is
    [error] and [errorImageGeneration] is set. *)
Theorem generateImagesForGroups_one_each (client : bool)
  (service : nat → option (list Service.part))
  (names : list Service.value) :
  length (Service.generateImagesForGroups client service names).1
  = length names ∧
  if client
  then (Service.generateImagesForGroups client service names).2 = None ∧
       Forall2 (λ name image,
                  image = ""%string ↔
                  match name with
                  | Service.text s => s = ""%string
                  | Service.other falsy => falsy = true
                  end)
         names (Service.generateImagesForGroups client service names).1
  else (Service.generateImagesForGroups client service names).2
       = Some Service.errorImageGeneration ∧
       Forall (λ image, image = "error"%string)
         (Service.generateImagesForGroups client service names).1.
Proof.
  split; [apply length_generateImagesForGroups|].
  unfold Service.generateImagesForGroups. destruct client; simpl.
  - split; [done|]. apply Forall2_same_length_lookup_2.
    { by rewrite length_imap. }
    intros i name image Hname. rewrite list_lookup_imap, Hname. simpl.
    intros [= <-].
    assert (Service.falsy name = true ↔
            match name with
            | Service.text s => s = ""%string
            | Service.other falsy => falsy = true
            end) as Hfalsy.
    { destruct name as [s|b]; simpl; [apply bool_decide_eq_true|done]. }
    rewrite <- Hfalsy. destruct (Service.falsy name); [done|].
    split; [|done]. destruct (service i); [|done].
    intros H. by apply image_of_nonempty in H.
  - split; [done|]. apply Forall_replicate. done.
Qed.

(** X26.  When a run opens the results view, every group has its name
    and its image: the groups, the names and the images shown are
    equally many, as many as the number of groups asked for. *)
Theorem results_aligned (group : string) (random : nat → nat)
  (names : Service.answer) (client : bool)
  (images : nat → option (list Service.part)) (s : App.state)
  (r : Service.results) :
  Service.handleGenerateGroups group random names client images s
  = Some (inr r) →
  length (Service.groups r) = Z.to_nat (App.finalGroupCount s) ∧
  length (Service.groupNames r) = length (Service.groups r) ∧
  length (Service.groupImages r) = length (Service.groups r).
Proof.
  unfold Service.handleGenerateGroups.
  destruct (App.generatedGroups random s) as [[generated calls]|] eqn:Hrun;
    [|done].
  simpl. destruct generated as [|[generatedGroups|e]]; [done| |done].
  pose proof (length_generateNames group names generatedGroups) as Hnames.
  assert (length generatedGroups = Z.to_nat (App.finalGroupCount s)) as Hlen.
  { unfold App.generatedGroups in Hrun. case_bool_decide; [done|].
    destruct (partition _ _ _ _ _) as [[result calls']|] eqn:Hp; [|done].
    simplify_eq/=. by eapply partition_length. }
  assert (∃ finalNames e1,
    match App.namingMethod s with
    | App.custom => (Service.text <$> App.finalNames s, None)
    | App.count => Service.generateNames group names generatedGroups
    end = (finalNames, e1) ∧ length finalNames = length generatedGroups)
    as (finalNames & e1 & -> & Hfinal).
  { destruct (App.namingMethod s) eqn:Hmethod.
    - destruct (Service.generateNames group names generatedGroups)
        as [finalNames e1]. by exists finalNames, e1.
    - exists (Service.text <$> App.finalNames s), None. split; [done|].
      rewrite length_fmap, Hlen. unfold App.finalGroupCount, App.finalNames.
      by rewrite Hmethod, Nat2Z.id. }
  pose proof (length_generateImagesForGroups client images finalNames)
    as Himages.
  destruct (Service.generateImagesForGroups client images finalNames)
    as [finalImages e2].
  intros [= <-]. simpl in *. split_and!; congruence.
Qed.

Lemma results_aligned_named_form :
  length (Service.groups named_results)
  = Z.to_nat (App.finalGroupCount named_form) ∧
  length (Service.groupNames named_results)
  = length (Service.groups named_results) ∧
  length (Service.groupImages named_results)
  = length (Service.groups named_results).
Proof.
  apply (results_aligned "Group" (λ _, 0) Service.thrown false (λ _, None)
           named_form named_results).
  vm_compute. reflexivity.
Defined.

(** X27.  [handleGenerateNamesAndImages] keeps the groups shown and
    names them anew: if every group had its name and its image before,
    it has them after. *)
Theorem regenerate_aligned (group : string) (names : Service.answer)
  (client : bool) (images : nat → option (list Service.part))
  (r : Service.results) :
  length (Service.groupNames r) = length (Service.groups r) →
  length (Service.groupImages r) = length (Service.groups r) →
  Service.groups
    (Service.handleGenerateNamesAndImages group names client images r)
  = Service.groups r ∧
  length (Service.groupNames
            (Service.handleGenerateNamesAndImages group names client images r))
  = length (Service.groups r) ∧
  length (Service.groupImages
            (Service.handleGenerateNamesAndImages group names client images r))
  = length (Service.groups r).
Proof.
  intros Hnames Himages. unfold Service.handleGenerateNamesAndImages.
  case_bool_decide; [|done].
  pose proof (length_generateNames group names (Service.groups r)) as Hn.
  destruct (Service.generateNames group names (Service.groups r))
    as [finalNames e1].
  pose proof (length_generateImagesForGroups client images finalNames) as Hi.
  destruct (Service.generateImagesForGroups client images finalNames)
    as [finalImages e2].
  simpl in *. split_and!; congruence.
Qed.

Lemma regenerate_aligned_named_results :
  Service.groups
    (Service.handleGenerateNamesAndImages "Group"
       (Service.parsed [Service.text "Foxes"; Service.text "Owls"]) true (λ _, Some [])
       named_results)
  = Service.groups named_results ∧
  length (Service.groupNames
            (Service.handleGenerateNamesAndImages "Group"
               (Service.parsed [Service.text "Foxes"; Service.text "Owls"]) true (λ _, Some [])
               named_results))
  = length (Service.groups named_results) ∧
  length (Service.groupImages
            (Service.handleGenerateNamesAndImages "Group"
               (Service.parsed [Service.text "Foxes"; Service.text "Owls"]) true (λ _, Some [])
               named_results))
  = length (Service.groups named_results).
Proof.
  apply (regenerate_aligned "Group" (Service.parsed [Service.text "Foxes"; Service.text "Owls"])
           true (λ _, Some []) named_results); reflexivity.
Defined.
